(** * DeviceTree (device.js): request pipeline, tree merge and directory expansion

  A shallow embedding of [src/device.js] of node-emberplus.  The JavaScript
  object [DeviceTree] becomes a record of its fields; every method becomes a
  function from worlds to worlds.  What the file calls but does not define
  (the tree model of ember.js, the S101 client, timers and promises of the
  JavaScript runtime) is either a parameter (the class [TreeModel]) or a
  small explicit piece of the world (armed timers, the table of settled
  promises, the log of calls made on the client). *)

From Stdlib Require Import ZArith List String Ascii Bool Arith Lia DecimalString.
Import ListNotations.
Open Scope string_scope.
Set Warnings "-register-all".

(** ** JavaScript strings, as far as device.js uses them *)

Module JsString.

(** [s.lastIndexOf(c)]: index of the last occurrence, [-1] when absent. *)
Fixpoint lastIndexOf (c : ascii) (s : string) : Z :=
  match s with
  | EmptyString => (-1)%Z
  | String a r =>
      let k := lastIndexOf c r in
      if (0 <=? k)%Z then (1 + k)%Z
      else if Ascii.eqb a c then 0%Z else (-1)%Z
  end.

(** [s.length] *)
Definition length (s : string) : Z := Z.of_nat (String.length s).

(** [s.startsWith(p)] *)
Definition startsWith (s p : string) : bool := String.prefix p s.

(** [s.split(c)] for a one-character separator; the empty string splits
    into one empty piece, as in JavaScript. *)
Fixpoint split (c : ascii) (s : string) : list string :=
  match s with
  | EmptyString => [EmptyString]
  | String a r =>
      if Ascii.eqb a c then EmptyString :: split c r
      else match split c r with
           | [] => [String a EmptyString]
           | h :: t => String a h :: t
           end
  end.

(** [l.join(sep)] *)
Fixpoint join (sep : string) (l : list string) : string :=
  match l with
  | [] => EmptyString
  | x :: r =>
      match r with
      | [] => x
      | _ :: _ => x ++ sep ++ join sep r
      end
  end.

(** No occurrence of [c] in [s]. *)
Fixpoint lacks (c : ascii) (s : string) : bool :=
  match s with
  | EmptyString => true
  | String a r => negb (Ascii.eqb a c) && lacks c r
  end.

End JsString.

(** [isDirectSubPathOf] (device.js, lines 134-136). *)
Definition isDirectSubPathOf (path parent : string) : bool :=
  (JsString.lastIndexOf "."%char path =? JsString.length parent)%Z
  && JsString.startsWith path parent.

(** The test applied to every element of an inbound fragment
  (device.js, line 175), on the paths of the elements. *)
Definition elementMatches (requestedPath elPath : string) : bool :=
  String.eqb elPath requestedPath || isDirectSubPathOf elPath requestedPath.

(** A path [p] is [parent] itself or lies one segment below it: the
    wording of the completion rule, to compare the code with. *)
Definition selfOrDirectChild (parent p : string) : Prop :=
  p = parent \/
  exists seg, JsString.lacks "."%char seg = true /\
              p = (parent ++ "." ++ seg)%string.

(** ** What device.js sees of ember.js *)

Module Ember.

(** The classes of ember.js that device.js distinguishes. *)
Inductive Kind : Type :=
| KNode | KQualifiedNode
| KParameter | KQualifiedParameter
| KFunction | KQualifiedFunction
| KCommand.

(** Modelled from the spec: [isQualified()] of ember.js, which is not
    under src/; a qualified element is one addressed by its full dotted
    path. *)
Definition kind_isQualified (k : Kind) : bool :=
  match k with
  | KQualifiedNode | KQualifiedParameter | KQualifiedFunction => true
  | _ => false
  end.

(** Modelled from the spec: [isParameter()] of ember.js, the capability
    query "is-parameter". *)
Definition kind_isParameter (k : Kind) : bool :=
  match k with
  | KParameter | KQualifiedParameter => true
  | _ => false
  end.

(** [x instanceof ember.Parameter] *)
Definition instanceofParameter (k : Kind) : bool :=
  match k with KParameter => true | _ => false end.

(** [x instanceof ember.QualifiedParameter] *)
Definition instanceofQualifiedParameter (k : Kind) : bool :=
  match k with KQualifiedParameter => true | _ => false end.

(** A decoded tree element, as it arrives in a fragment: [number],
    [path] (meaningful on qualified elements), its class, the stream
    flag of parameters, a value, the callbacks registered on it and
    [getChildren()] ([None] is JavaScript's [null]). *)
Inductive Element : Type :=
  MkElement {
      number : Z;
      path : string;
      kind : Kind;
      stream : bool;
      value : option Z;
      callbacks : list nat;
      children : option (list Element)
    }.

Definition isQualified (e : Element) : bool := kind_isQualified (kind e).

(** What the client delivers with 'emberTree': a root fragment with its
    [elements] ([None] is [undefined]) or an invocation result. *)
Inductive Decoded : Type :=
| DRoot (elements : option (list Element))
| DInvocationResult (invocationId : Z) (result : list Z).

(** [node.elements] of a delivered object. *)
Definition decoded_elements (d : Decoded) : option (list Element) :=
  match d with
  | DRoot els => els
  | DInvocationResult _ _ => None
  end.

(** The operations of the tree model of ember.js that device.js calls,
    over an abstract store of tree nodes and references into it.
    A call that changes the tree returns the new store. *)
Class TreeModel : Type :=
  {
    Store : Type;
    Ref : Type;
    (** [new ember.Root()] and the reference [self.root] *)
    tm_newRoot : Store;
    tm_root : Ref;
    (** [self.root.update(root)]: callbacks to fire *)
    tm_updateRoot : Store -> Decoded -> Store * list nat;
    (** [element.update(node)]: callbacks to fire *)
    tm_update : Store -> Ref -> Element -> Store * list nat;
    (** [parent.getElementByPath(path)] *)
    tm_getElementByPath : Store -> Ref -> string -> option Ref;
    (** [parent.getElementByNumber(number)] *)
    tm_getElementByNumber : Store -> Ref -> Z -> option Ref;
    (** [parent.addChild(node)]; the node itself is then in the tree, the
        reference returned is the one it has there *)
    tm_addChild : Store -> Ref -> Element -> Store * Ref;
    (** [self.root.clear()] *)
    tm_clear : Store -> Store;
    (** [self.root.cancelCallbacks()] *)
    tm_cancelCallbacks : Store -> Store;
    (** [qnode.getPath()] *)
    tm_getPath : Store -> Ref -> string;
    (** [qnode.elements] *)
    tm_elements : Store -> Ref -> option (list Ref);
    (** [el.getPath()] on an element of a delivered fragment *)
    tm_elementPath : Store -> Element -> string;
    (** the class of a node and [isStream()] *)
    tm_kind : Store -> Ref -> Kind;
    tm_isStream : Store -> Ref -> bool;
    (** [node.addCallback(callback)] *)
    tm_addCallback : Store -> Ref -> nat -> Store
  }.

End Ember.

(** ** The DeviceTree object and the world it runs in *)

Module Device.
Import Ember.
Local Open Scope list_scope.

Section WithTreeModel.
Context {M : TreeModel}.

(** Errors that device.js builds or passes on. *)
Inductive Err : Type :=
| EmberTimeoutError (id : nat)
| EmberAccessError (msg : string)
| InvalidNullNode
| InvalidQnode
| ClientFailure (code : nat).

(** Values promises are resolved with. *)
Inductive Value : Type :=
| VUndefined
| VDecoded (d : Decoded)
| VNode (r : Ref).

Inductive Outcome : Type :=
| Resolved (v : Value)
| Rejected (e : Err).

(** The four closures handed to [addRequest] (lines 145, 196, 381, 424),
    each with what it captured. *)
Inductive Work : Type :=
| WGetDirectory (qnode : Ref)
| WInvokeFunction (fnNode : Ref) (params : list Z)
| WGetNodeByPath (segments : list string)
| WSetValue (node : Ref) (v : Z).

(** A queued closure; it captured [resolve] and [reject] of the promise
    made by the call that queued it, which tells closures apart. *)
Record Request : Type := MkRequest { work : Work; promise : nat }.

(** The closures stored in [self.callback] (lines 83, 152, 203, 431). *)
Inductive Callback : Type :=
| CbConnect (p : nat)
| CbGetDirectory (p : nat) (qnode : Ref)
| CbInvokeFunction (p : nat)
| CbSetValue (p : nat).

(** What is sent with [client.sendBERNode]. *)
Inductive Command : Type :=
| GetDirectoryCmd (qnode : Ref)
| InvokeCmd (fnNode : Ref) (params : list Z)
| SetValueCmd (node : Ref) (v : Z).

Inductive ClientCall : Type :=
| ClientConnect (timeoutSeconds : Z)
| ClientDisconnect
| SendBERNode (c : Command).

(** Events emitted by the DeviceTree (it is an EventEmitter). *)
Inductive Emitted : Type :=
| EmConnecting
| EmConnected
| EmDisconnected
| EmError (e : Err)
| EmInvocationResult (d : Decoded)
| EmValueChange (node : Element).

(** Calls made on the tree model while merging. *)
Inductive TreeCall : Type :=
| CallGetElementByPath (receiver : Ref) (p : string)
| CallGetElementByNumber (receiver : Ref) (n : Z)
| CallAddChild (receiver : Ref) (node : Element)
| CallUpdate (receiver : Ref) (node : Element)
| CallRootGetNodeByPath (segments : list string).

(** What an observer of the runtime sees the DeviceTree do, in order. *)
Inductive Event : Type :=
| EvEnqueue (r : Request)
| EvDispatch (id : nat) (r : Request)
| EvSetTimeout (id : nat)
| EvClearTimeout (id : nat)
| EvTimerFired (id : nat)
| EvClient (c : ClientCall)
| EvEmit (e : Emitted)
| EvTree (c : TreeCall)
| EvFire (cb : nat).

(** The fields of the DeviceTree ([root] to [requestID], constructor lines
    15-20; a timer handle is identified with the id it was created for),
    then the runtime around it: the timers that are armed, the promises
    made and settled, whether the client is connected, the continuation
    that [root.getNodeByPath] holds, and the trace of observable events. *)
Record World : Type :=
  MkWorld {
      root : Store;
      pendingRequests : list Request;
      activeRequest : option Request;
      timeout : option nat;
      callback : option Callback;
      requestID : nat;
      timers : list nat;
      nextPromise : nat;
      settled : list (nat * Outcome);
      clientConnected : bool;
      treePending : option nat;
      trace : list Event
    }.

Definition set_root (v : Store) (w : World) : World :=
  {| root := v;
     pendingRequests := pendingRequests w;
     activeRequest := activeRequest w;
     timeout := timeout w;
     callback := callback w;
     requestID := requestID w;
     timers := timers w;
     nextPromise := nextPromise w;
     settled := settled w;
     clientConnected := clientConnected w;
     treePending := treePending w;
     trace := trace w |}.

Definition set_pendingRequests (v : list Request) (w : World) : World :=
  {| root := root w;
     pendingRequests := v;
     activeRequest := activeRequest w;
     timeout := timeout w;
     callback := callback w;
     requestID := requestID w;
     timers := timers w;
     nextPromise := nextPromise w;
     settled := settled w;
     clientConnected := clientConnected w;
     treePending := treePending w;
     trace := trace w |}.

Definition set_activeRequest (v : option Request) (w : World) : World :=
  {| root := root w;
     pendingRequests := pendingRequests w;
     activeRequest := v;
     timeout := timeout w;
     callback := callback w;
     requestID := requestID w;
     timers := timers w;
     nextPromise := nextPromise w;
     settled := settled w;
     clientConnected := clientConnected w;
     treePending := treePending w;
     trace := trace w |}.

Definition set_timeout (v : option nat) (w : World) : World :=
  {| root := root w;
     pendingRequests := pendingRequests w;
     activeRequest := activeRequest w;
     timeout := v;
     callback := callback w;
     requestID := requestID w;
     timers := timers w;
     nextPromise := nextPromise w;
     settled := settled w;
     clientConnected := clientConnected w;
     treePending := treePending w;
     trace := trace w |}.

Definition set_callback (v : option Callback) (w : World) : World :=
  {| root := root w;
     pendingRequests := pendingRequests w;
     activeRequest := activeRequest w;
     timeout := timeout w;
     callback := v;
     requestID := requestID w;
     timers := timers w;
     nextPromise := nextPromise w;
     settled := settled w;
     clientConnected := clientConnected w;
     treePending := treePending w;
     trace := trace w |}.

Definition set_requestID (v : nat) (w : World) : World :=
  {| root := root w;
     pendingRequests := pendingRequests w;
     activeRequest := activeRequest w;
     timeout := timeout w;
     callback := callback w;
     requestID := v;
     timers := timers w;
     nextPromise := nextPromise w;
     settled := settled w;
     clientConnected := clientConnected w;
     treePending := treePending w;
     trace := trace w |}.

Definition set_timers (v : list nat) (w : World) : World :=
  {| root := root w;
     pendingRequests := pendingRequests w;
     activeRequest := activeRequest w;
     timeout := timeout w;
     callback := callback w;
     requestID := requestID w;
     timers := v;
     nextPromise := nextPromise w;
     settled := settled w;
     clientConnected := clientConnected w;
     treePending := treePending w;
     trace := trace w |}.

Definition set_nextPromise (v : nat) (w : World) : World :=
  {| root := root w;
     pendingRequests := pendingRequests w;
     activeRequest := activeRequest w;
     timeout := timeout w;
     callback := callback w;
     requestID := requestID w;
     timers := timers w;
     nextPromise := v;
     settled := settled w;
     clientConnected := clientConnected w;
     treePending := treePending w;
     trace := trace w |}.

Definition set_settled (v : list (nat * Outcome)) (w : World) : World :=
  {| root := root w;
     pendingRequests := pendingRequests w;
     activeRequest := activeRequest w;
     timeout := timeout w;
     callback := callback w;
     requestID := requestID w;
     timers := timers w;
     nextPromise := nextPromise w;
     settled := v;
     clientConnected := clientConnected w;
     treePending := treePending w;
     trace := trace w |}.

Definition set_clientConnected (v : bool) (w : World) : World :=
  {| root := root w;
     pendingRequests := pendingRequests w;
     activeRequest := activeRequest w;
     timeout := timeout w;
     callback := callback w;
     requestID := requestID w;
     timers := timers w;
     nextPromise := nextPromise w;
     settled := settled w;
     clientConnected := v;
     treePending := treePending w;
     trace := trace w |}.

Definition set_treePending (v : option nat) (w : World) : World :=
  {| root := root w;
     pendingRequests := pendingRequests w;
     activeRequest := activeRequest w;
     timeout := timeout w;
     callback := callback w;
     requestID := requestID w;
     timers := timers w;
     nextPromise := nextPromise w;
     settled := settled w;
     clientConnected := clientConnected w;
     treePending := v;
     trace := trace w |}.

Definition set_trace (v : list Event) (w : World) : World :=
  {| root := root w;
     pendingRequests := pendingRequests w;
     activeRequest := activeRequest w;
     timeout := timeout w;
     callback := callback w;
     requestID := requestID w;
     timers := timers w;
     nextPromise := nextPromise w;
     settled := settled w;
     clientConnected := clientConnected w;
     treePending := treePending w;
     trace := v |}.

(** [new DeviceTree(host, port)] *)
Definition init : World :=
  {| root := tm_newRoot;
     pendingRequests := [];
     activeRequest := None;
     timeout := None;
     callback := None;
     requestID := 0;
     timers := [];
     nextPromise := 0;
     settled := [];
     clientConnected := false;
     treePending := None;
     trace := [] |}.

Definition log (e : Event) (w : World) : World :=
  set_trace (trace w ++ [e]) w.

Definition emit (e : Emitted) (w : World) : World := log (EvEmit e) w.

Definition treeCall (c : TreeCall) (w : World) : World := log (EvTree c) w.

Definition clientCall (c : ClientCall) (w : World) : World :=
  log (EvClient c) w.

(** ** Promises: made in order, settled at most once *)

Definition newPromise (w : World) : nat * World :=
  (nextPromise w, set_nextPromise (S (nextPromise w)) w).

Definition outcome (w : World) (p : nat) : option Outcome :=
  match find (fun e => Nat.eqb (fst e) p) (settled w) with
  | Some e => Some (snd e)
  | None => None
  end.

Definition settle (p : nat) (o : Outcome) (w : World) : World :=
  match outcome w p with
  | Some _ => w
  | None => set_settled (settled w ++ [(p, o)]) w
  end.

Definition resolve (p : nat) (v : Value) : World -> World :=
  settle p (Resolved v).

Definition reject (p : nat) (e : Err) : World -> World :=
  settle p (Rejected e).

(** ** The request pipeline (lines 232-276) *)

(** A queued closure called without an error: it installs its response
    handler and sends (lines 152-188, 203-221, 431-446), or hands its
    continuation to [root.getNodeByPath] (line 387). *)
Definition startWork (r : Request) (w : World) : World :=
  match work r with
  | WGetDirectory q =>
      clientCall (SendBERNode (GetDirectoryCmd q))
        (set_callback (Some (CbGetDirectory (promise r) q)) w)
  | WInvokeFunction f ps =>
      clientCall (SendBERNode (InvokeCmd f ps))
        (set_callback (Some (CbInvokeFunction (promise r))) w)
  | WGetNodeByPath segs =>
      set_treePending (Some (promise r))
        (treeCall (CallRootGetNodeByPath segs) w)
  | WSetValue n v =>
      clientCall (SendBERNode (SetValueCmd n v))
        (set_callback (Some (CbSetValue (promise r))) w)
  end.

(** [makeRequest] (lines 232-249); [self.activeRequest()] is the closure
    called without an error. *)
Definition makeRequest (w : World) : World :=
  match activeRequest w, pendingRequests w with
  | None, r :: rest =>
      let id := requestID w in
      let w := set_pendingRequests rest (set_activeRequest (Some r) w) in
      let w := log (EvDispatch id r) w in
      let w := log (EvSetTimeout id)
                 (set_timers (id :: timers w) (set_timeout (Some id) w)) in
      let w := set_requestID (S id) w in
      startWork r w
  | _, _ => w
  end.

(** [addRequest] (lines 251-255) *)
Definition addRequest (r : Request) (w : World) : World :=
  makeRequest
    (log (EvEnqueue r) (set_pendingRequests (pendingRequests w ++ [r]) w)).

(** [clearTimeout] (lines 257-262) *)
Definition clearTimeout (w : World) : World :=
  match timeout w with
  | Some h =>
      set_timeout None
        (log (EvClearTimeout h)
           (set_timers (remove Nat.eq_dec h (timers w)) w))
  | None => w
  end.

(** [finishRequest] (lines 264-270) *)
Definition finishRequest (w : World) : World :=
  makeRequest (set_activeRequest None (clearTimeout (set_callback None w))).

(** A queued closure called with an error (the [if (error)] branches at
    lines 146, 197, 382, 425, each in its own order). *)
Definition failWork (r : Request) (e : Err) (w : World) : World :=
  match work r with
  | WGetDirectory _ => reject (promise r) e (finishRequest w)
  | WInvokeFunction _ _ => finishRequest (reject (promise r) e w)
  | WGetNodeByPath _ => finishRequest (reject (promise r) e w)
  | WSetValue _ _ => reject (promise r) e (finishRequest w)
  end.

(** Calling a queued closure, [self.activeRequest(error)]. *)
Definition callRequest (r : Request) (error : option Err) (w : World)
  : World :=
  match error with
  | Some e => failWork r e w
  | None => startWork r w
  end.

(** [timeoutRequest] (lines 272-276).  Cancelling the callbacks of the tree
    drops the continuation held by [root.getNodeByPath].  With no active
    request the call at line 275 would throw; the world is left as it is. *)
Definition timeoutRequest (id : nat) (w : World) : World :=
  let w := set_treePending None
             (set_root (tm_cancelCallbacks (root w)) w) in
  match activeRequest w with
  | Some r => callRequest r (Some (EmberTimeoutError id)) w
  | None => w
  end.

(** ** The merge engine (lines 278-372) *)

(** Lines 352-358 of [handleNode]: the element the incoming node resolves
    to under [parent], and the callbacks of its update. *)
Definition resolveNumbered (parent : Ref) (node : Element) (w : World)
  : Ref * list nat * World :=
  let w := treeCall (CallGetElementByNumber parent (number node)) w in
  match tm_getElementByNumber (root w) parent (number node) with
  | None =>
      let '(s, n) := tm_addChild (root w) parent node in
      (n, [], set_root s (treeCall (CallAddChild parent node) w))
  | Some n =>
      let '(s, cbs) := tm_update (root w) n node in
      (n, cbs, set_root s (treeCall (CallUpdate n node) w))
  end.

(** [handleNode] (lines 348-372): every child, qualified or not, is handled
    by [handleNode] again. *)
Fixpoint handleNode (parent : Ref) (node : Element) (w : World)
  {struct node} : list nat * World :=
  let '(n, callbacks, w) := resolveNumbered parent node w in
  match children node with
  | Some cs =>
      (fix loop (cs : list Element) (callbacks : list nat) (w : World)
         {struct cs} : list nat * World :=
         match cs with
         | [] => (callbacks, w)
         | c :: rest =>
             let '(cbs, w) := handleNode n c w in
             loop rest (callbacks ++ cbs) w
         end) cs callbacks w
  | None => (callbacks, emit (EmValueChange node) w)
  end.

(** Lines 305-329 of [handleQualifiedNode]: the element the incoming node
    resolves to, [None] at the early return of line 324. *)
Definition resolveQualified (parent : Ref) (node : Element) (w : World)
  : option (Ref * list nat) * World :=
  let w := treeCall (CallGetElementByPath parent (path node)) w in
  match tm_getElementByPath (root w) parent (path node) with
  | Some element =>
      let w := emit (EmValueChange node) w in
      let '(s, cbs) := tm_update (root w) element node in
      (Some (element, cbs), set_root s (treeCall (CallUpdate element node) w))
  | None =>
      let segs := JsString.split "."%char (path node) in
      if Nat.eqb (List.length segs) 1 then
        let '(s, n) := tm_addChild (root w) tm_root node in
        (Some (n, []), set_root s (treeCall (CallAddChild tm_root node) w))
      else
        let parentPath := JsString.join "." (removelast segs) in
        let w := treeCall (CallGetElementByPath tm_root parentPath) w in
        match tm_getElementByPath (root w) tm_root parentPath with
        | None => (None, w)
        | Some p =>
            let '(s, n) := tm_addChild (root w) p node in
            (Some (n, []), set_root s (treeCall (CallAddChild p node) w))
        end
  end.

(** [handleQualifiedNode] (lines 303-346) *)
Fixpoint handleQualifiedNode (parent : Ref) (node : Element) (w : World)
  {struct node} : list nat * World :=
  match resolveQualified parent node w with
  | (None, w) => ([], w)
  | (Some (element, callbacks), w) =>
      match children node with
      | Some cs =>
          (fix loop (cs : list Element) (callbacks : list nat) (w : World)
             {struct cs} : list nat * World :=
             match cs with
             | [] => (callbacks, w)
             | c :: rest =>
                 let '(cbs, w) :=
                   if isQualified c then handleQualifiedNode element c w
                   else handleNode element c w in
                 loop rest (callbacks ++ cbs) w
             end) cs callbacks w
      | None => (callbacks, w)
      end
  end.

(** The loop over the children of a node handled by [handleNode]
    (lines 362-364), as a function of its own. *)
Fixpoint handleNodes (n : Ref) (cs : list Element) (callbacks : list nat)
  (w : World) : list nat * World :=
  match cs with
  | [] => (callbacks, w)
  | c :: rest =>
      let '(cbs, w) := handleNode n c w in
      handleNodes n rest (callbacks ++ cbs) w
  end.

(** The loop of lines 333-340 over the children of a qualified node, as a
    function of its own; the loop of lines 286-293 over the elements of a
    root fragment is the same loop on [this.root]. *)
Fixpoint handleChildren (element : Ref) (cs : list Element)
  (callbacks : list nat) (w : World) : list nat * World :=
  match cs with
  | [] => (callbacks, w)
  | c :: rest =>
      let '(cbs, w) :=
        if isQualified c then handleQualifiedNode element c w
        else handleNode element c w in
      handleChildren element rest (callbacks ++ cbs) w
  end.

(** Lines 296-299: the collected callbacks are called in order.  What a
    callback does is its own business; the call is recorded. *)
Definition fireCallbacks (callbacks : list nat) (w : World) : World :=
  fold_left (fun w cb => log (EvFire cb) w) callbacks w.

(** [handleRoot] (lines 278-301) *)
Definition handleRoot (d : Decoded) (w : World) : World :=
  let '(s, callbacks) := tm_updateRoot (root w) d in
  let w := set_root s w in
  match decoded_elements d with
  | Some els =>
      let '(callbacks, w) := handleChildren tm_root els callbacks w in
      fireCallbacks callbacks w
  | None => w
  end.

(** ** Response handlers *)

(** Lines 163-172: the path a directory response is compared with; [None]
    where line 169 calls [self.callback] with an error and no node, a call
    that the guard of line 153 ends at once. *)
Definition requestedPathOf (qnode : Ref) (w : World) : option string :=
  let requestedPath := tm_getPath (root w) qnode in
  if String.eqb requestedPath "" then
    match tm_elements (root w) qnode with
    | None => None
    | Some [] => None
    | Some (e0 :: _) => Some (tm_getPath (root w) e0)
    end
  else Some requestedPath.

(** Lines 173-175: is the delivered fragment a complete answer? *)
Definition directoryComplete (requestedPath : string)
  (elPaths : option (list string)) : bool :=
  match elPaths with
  | Some ps => forallb (elementMatches requestedPath) ps
  | None => false
  end.

(** [el.getPath()] for each of [node.elements]. *)
Definition elementPaths (w : World) (d : Decoded) : option (list string) :=
  option_map (map (tm_elementPath (root w))) (decoded_elements d).

(** The handler installed by [getDirectory] (lines 152-183). *)
Definition getDirectoryCallback (p : nat) (qnode : Ref)
  (error : option Err) (node : option Decoded) (w : World) : World :=
  match node with
  | None => w
  | Some d =>
      match error with
      | Some e => reject p e (finishRequest (clearTimeout w))
      | None =>
          match requestedPathOf qnode w with
          | None => w
          | Some requestedPath =>
              if directoryComplete requestedPath (elementPaths w d)
              then resolve p (VDecoded d) (finishRequest (clearTimeout w))
              else w
          end
      end
  end.

Definition valueOf (node : option Decoded) : Value :=
  match node with
  | Some d => VDecoded d
  | None => VUndefined
  end.

(** Calling what is stored in [self.callback] with [(error, node)]. *)
Definition invokeCallback (cb : Callback) (error : option Err)
  (node : option Decoded) (w : World) : World :=
  match cb with
  | CbConnect p =>
      (* lines 83-89 *)
      let w := set_callback None w in
      match error with
      | None => resolve p VUndefined w
      | Some e => reject p e w
      end
  | CbGetDirectory p qnode => getDirectoryCallback p qnode error node w
  | CbInvokeFunction p =>
      (* lines 203-215 *)
      let w := clearTimeout w in
      let w := match error with
               | Some e => reject p e w
               | None => resolve p (valueOf node) w
               end in
      finishRequest w
  | CbSetValue p =>
      (* lines 431-440 *)
      let w := finishRequest w in
      match error with
      | Some e => reject p e w
      | None => resolve p (valueOf node) w
      end
  end.

(** ** What the client and the runtime deliver (constructor, lines 22-60) *)

Definition onConnecting (w : World) : World := emit EmConnecting w.

(** The client is taken to answer [isConnected()] with true from its
    'connected' event to its 'disconnected' event. *)
Definition onConnected (w : World) : World :=
  let w := emit EmConnected (set_clientConnected true w) in
  match callback w with
  | Some cb => invokeCallback cb None None w
  | None => w
  end.

Definition onDisconnected (w : World) : World :=
  emit EmDisconnected (set_clientConnected false w).

Definition onError (e : Err) (w : World) : World :=
  let w := match callback w with
           | Some cb => invokeCallback cb (Some e) None w
           | None => w
           end in
  emit (EmError e) w.

Definition onEmberTree (d : Decoded) (w : World) : World :=
  let w := match d with
           | DInvocationResult _ _ => emit (EmInvocationResult d) w
           | DRoot _ => handleRoot d w
           end in
  match callback w with
  | Some cb => invokeCallback cb None (Some d) w
  | None => w
  end.

(** The runtime fires a timer that is still armed (line 241). *)
Definition onTimer (id : nat) (w : World) : World :=
  if existsb (Nat.eqb id) (timers w) then
    timeoutRequest id
      (log (EvTimerFired id)
         (set_timers (remove Nat.eq_dec id (timers w)) w))
  else w.

(** Modelled from the spec: [root.getNodeByPath] of ember.js, which is not
    under src/, calls the continuation it was given (lines 387-394)
    once, unless the callbacks of the tree were cancelled before. *)
Definition onNodeByPath (error : option Err) (node : Ref) (w : World)
  : World :=
  match treePending w with
  | Some p =>
      let w := set_treePending None w in
      let w := match error with
               | Some e => reject p e w
               | None => resolve p (VNode node) w
               end in
      finishRequest w
  | None => w
  end.

(** ** The methods called by users *)

(** [isConnected] (lines 77-79) *)
Definition isConnected (w : World) : bool := clientConnected w.

(** [connect] (lines 81-95) *)
Definition connect (timeoutSeconds : Z) (w : World) : nat * World :=
  let '(p, w) := newPromise w in
  let w := set_callback (Some (CbConnect p)) w in
  let w := if clientConnected w then clientCall ClientDisconnect w else w in
  (p, clientCall (ClientConnect timeoutSeconds) w).

(** [disconnect] (lines 226-230) *)
Definition disconnect (w : World) : World := clientCall ClientDisconnect w.

(** [getDirectory] (lines 138-191); [None] is a null [qnode]. *)
Definition getDirectory (qnode : option Ref) (w : World) : nat * World :=
  let '(q, w) := match qnode with
                 | None => (tm_root, set_root (tm_clear (root w)) w)
                 | Some q => (q, w)
                 end in
  let '(p, w) := newPromise w in
  (p, addRequest (MkRequest (WGetDirectory q) p) w).

(** [invokeFunction] (lines 193-224) *)
Definition invokeFunction (fnNode : Ref) (params : list Z) (w : World)
  : nat * World :=
  let '(p, w) := newPromise w in
  (p, addRequest (MkRequest (WInvokeFunction fnNode params) p) w).

(** [getNodeByPath] (lines 374-397); a string is split at [/]. *)
Definition getNodeByPath (p : string + list string) (w : World)
  : nat * World :=
  let segs := match p with
              | inl s => JsString.split "/"%char s
              | inr l => l
              end in
  let '(p, w) := newPromise w in
  (p, addRequest (MkRequest (WGetNodeByPath segs) p) w).

(** [subscribe] (lines 399-405) *)
Definition subscribe (node : Ref) (cb : nat) (w : World) : World :=
  if instanceofParameter (tm_kind (root w) node)
     && tm_isStream (root w) node
  then w
  else set_root (tm_addCallback (root w) node cb) w.

(** [unsubscribe] (lines 407-413) *)
Definition unsubscribe (node : Ref) (cb : nat) (w : World) : World :=
  if instanceofParameter (tm_kind (root w) node)
     && tm_isStream (root w) node
  then w
  else set_root (tm_addCallback (root w) node cb) w.

(** [setValue] (lines 415-450) *)
Definition setValue (node : Ref) (v : Z) (w : World) : nat * World :=
  let '(p, w) := newPromise w in
  if negb (instanceofParameter (tm_kind (root w) node))
     && negb (instanceofQualifiedParameter (tm_kind (root w) node))
  then (p, reject p (EmberAccessError "not a property") w)
  else (p, addRequest (MkRequest (WSetValue node v) p) w).

(** ** Runs: anything that can happen to a DeviceTree, one at a time *)

Inductive Input : Type :=
| CallConnect (timeoutSeconds : Z)
| CallDisconnect
| CallGetDirectory (qnode : option Ref)
| CallInvokeFunction (fnNode : Ref) (params : list Z)
| CallGetNodeByPath (p : string + list string)
| CallSetValue (node : Ref) (v : Z)
| CallSubscribe (node : Ref) (cb : nat)
| CallUnsubscribe (node : Ref) (cb : nat)
| ClientConnecting
| ClientConnected
| ClientDisconnected
| ClientError (e : Err)
| ClientEmberTree (d : Decoded)
| TimerFires (id : nat)
| TreeNodeByPath (error : option Err) (node : Ref).

Definition step (w : World) (i : Input) : World :=
  match i with
  | CallConnect t => snd (connect t w)
  | CallDisconnect => disconnect w
  | CallGetDirectory q => snd (getDirectory q w)
  | CallInvokeFunction f ps => snd (invokeFunction f ps w)
  | CallGetNodeByPath p => snd (getNodeByPath p w)
  | CallSetValue n v => snd (setValue n v w)
  | CallSubscribe n cb => subscribe n cb w
  | CallUnsubscribe n cb => unsubscribe n cb w
  | ClientConnecting => onConnecting w
  | ClientConnected => onConnected w
  | ClientDisconnected => onDisconnected w
  | ClientError e => onError e w
  | ClientEmberTree d => onEmberTree d w
  | TimerFires id => onTimer id w
  | TreeNodeByPath e n => onNodeByPath e n w
  end.

Definition run (inputs : list Input) : World := fold_left step inputs init.

(** ** Reading the trace *)

Definition clearsOf (e : Event) : list nat :=
  match e with EvClearTimeout id => [id] | _ => [] end.

Definition firesOf (e : Event) : list nat :=
  match e with EvTimerFired id => [id] | _ => [] end.

Definition enqueueOf (e : Event) : list Request :=
  match e with EvEnqueue r => [r] | _ => [] end.

Definition dispatchOf (e : Event) : list (nat * Request) :=
  match e with EvDispatch id r => [(id, r)] | _ => [] end.

Definition sendOf (e : Event) : list Command :=
  match e with EvClient (SendBERNode c) => [c] | _ => [] end.

Definition clientCallOf (e : Event) : list ClientCall :=
  match e with EvClient c => [c] | _ => [] end.

Definition treeCallOf (e : Event) : list TreeCall :=
  match e with EvTree c => [c] | _ => [] end.

Definition emittedOf (e : Event) : list Emitted :=
  match e with EvEmit x => [x] | _ => [] end.

(** Timer handles passed to the runtime's [clearTimeout], in order. *)
Definition cleared (w : World) : list nat := flat_map clearsOf (trace w).

(** Timers that fired, in order. *)
Definition fired (w : World) : list nat := flat_map firesOf (trace w).

(** Closures pushed on the queue, in order. *)
Definition enqueued (w : World) : list Request :=
  flat_map enqueueOf (trace w).

(** Closures taken from the queue with the id they were given, in order. *)
Definition dispatched (w : World) : list (nat * Request) :=
  flat_map dispatchOf (trace w).

(** What was sent through the client, in order. *)
Definition sent (w : World) : list Command := flat_map sendOf (trace w).

Definition clientCalls (w : World) : list ClientCall :=
  flat_map clientCallOf (trace w).

Definition treeCalls (w : World) : list TreeCall :=
  flat_map treeCallOf (trace w).

Definition emittedEvents (w : World) : list Emitted :=
  flat_map emittedOf (trace w).

(** The request in service, if any, as a list. *)
Definition activeList (w : World) : list Request :=
  match activeRequest w with
  | Some r => [r]
  | None => []
  end.

(** ** The pipeline seen alone

    What the scheduler of lines 232-276 reads and writes, with the part of
    the trace that concerns it.  Every method acts on this projection of
    the world by one of the functions below (lemmas [pipeline_*]). *)

Record Pipeline : Type :=
  MkPipeline {
      q_pending : list Request;
      q_active : option Request;
      q_timeout : option nat;
      q_requestID : nat;
      q_timers : list nat;
      q_nextPromise : nat;
      q_cleared : list nat;
      q_fired : list nat;
      q_enqueued : list Request;
      q_dispatched : list (nat * Request)
    }.

Definition pipeline (w : World) : Pipeline :=
  {| q_pending := pendingRequests w;
     q_active := activeRequest w;
     q_timeout := timeout w;
     q_requestID := requestID w;
     q_timers := timers w;
     q_nextPromise := nextPromise w;
     q_cleared := cleared w;
     q_fired := fired w;
     q_enqueued := enqueued w;
     q_dispatched := dispatched w |}.

Definition pipeMakeRequest (q : Pipeline) : Pipeline :=
  match q_active q, q_pending q with
  | None, r :: rest =>
      {| q_pending := rest;
         q_active := Some r;
         q_timeout := Some (q_requestID q);
         q_requestID := S (q_requestID q);
         q_timers := q_requestID q :: q_timers q;
         q_nextPromise := q_nextPromise q;
         q_cleared := q_cleared q;
         q_fired := q_fired q;
         q_enqueued := q_enqueued q;
         q_dispatched := q_dispatched q ++ [(q_requestID q, r)] |}
  | _, _ => q
  end.

Definition pipeClearTimeout (q : Pipeline) : Pipeline :=
  match q_timeout q with
  | Some h =>
      {| q_pending := q_pending q;
         q_active := q_active q;
         q_timeout := None;
         q_requestID := q_requestID q;
         q_timers := remove Nat.eq_dec h (q_timers q);
         q_nextPromise := q_nextPromise q;
         q_cleared := q_cleared q ++ [h];
         q_fired := q_fired q;
         q_enqueued := q_enqueued q;
         q_dispatched := q_dispatched q |}
  | None => q
  end.

Definition pipeIdle (q : Pipeline) : Pipeline :=
  {| q_pending := q_pending q;
     q_active := None;
     q_timeout := q_timeout q;
     q_requestID := q_requestID q;
     q_timers := q_timers q;
     q_nextPromise := q_nextPromise q;
     q_cleared := q_cleared q;
     q_fired := q_fired q;
     q_enqueued := q_enqueued q;
     q_dispatched := q_dispatched q |}.

Definition pipeFinishRequest (q : Pipeline) : Pipeline :=
  pipeMakeRequest (pipeIdle (pipeClearTimeout q)).

(** A call that makes a promise and queues a closure holding it. *)
Definition pipeAddRequest (wk : Work) (q : Pipeline) : Pipeline :=
  let r := MkRequest wk (q_nextPromise q) in
  pipeMakeRequest
    {| q_pending := q_pending q ++ [r];
       q_active := q_active q;
       q_timeout := q_timeout q;
       q_requestID := q_requestID q;
       q_timers := q_timers q;
       q_nextPromise := S (q_nextPromise q);
       q_cleared := q_cleared q;
       q_fired := q_fired q;
       q_enqueued := q_enqueued q ++ [r];
       q_dispatched := q_dispatched q |}.

(** A call that makes a promise and queues nothing. *)
Definition pipeNewPromise (q : Pipeline) : Pipeline :=
  {| q_pending := q_pending q;
     q_active := q_active q;
     q_timeout := q_timeout q;
     q_requestID := q_requestID q;
     q_timers := q_timers q;
     q_nextPromise := S (q_nextPromise q);
     q_cleared := q_cleared q;
     q_fired := q_fired q;
     q_enqueued := q_enqueued q;
     q_dispatched := q_dispatched q |}.

(** The runtime fires an armed timer. *)
Definition pipeFire (id : nat) (q : Pipeline) : Pipeline :=
  {| q_pending := q_pending q;
     q_active := q_active q;
     q_timeout := q_timeout q;
     q_requestID := q_requestID q;
     q_timers := remove Nat.eq_dec id (q_timers q);
     q_nextPromise := q_nextPromise q;
     q_cleared := q_cleared q;
     q_fired := q_fired q ++ [id];
     q_enqueued := q_enqueued q;
     q_dispatched := q_dispatched q |}.

(** The moves of the pipeline. *)
Inductive PipeStep (q : Pipeline) : Pipeline -> Prop :=
| PipeStay : PipeStep q q
| PipeNew : PipeStep q (pipeNewPromise q)
| PipeAdd (wk : Work) : PipeStep q (pipeAddRequest wk q)
| PipeFinish : PipeStep q (pipeFinishRequest q)
| PipeTimeout (id : nat) :
    In id (q_timers q) -> q_active q <> None ->
    PipeStep q (pipeFinishRequest (pipeFire id q))
| PipeStray (id : nat) :
    In id (q_timers q) -> q_active q = None ->
    PipeStep q (pipeFire id q).

Definition optList {A : Type} (o : option A) : list A :=
  match o with
  | Some a => [a]
  | None => []
  end.

(** Does the field [timeout] hold the handle of request [id]? *)
Definition holds (t : option nat) (id : nat) : bool :=
  match t with
  | Some h => Nat.eqb h id
  | None => false
  end.

(** What holds of the pipeline at every point of every method. *)
Record Relaxed (q : Pipeline) : Prop :=
  MkRelaxed {
      rx_handle : forall h, q_timeout q = Some h ->
                            q_requestID q = S h /\ q_active q <> None;
      rx_timers : forall t, In t (q_timers q) -> q_timeout q = Some t;
      rx_cleared : forall id,
          count_occ Nat.eq_dec (q_cleared q) id =
            if Nat.ltb id (q_requestID q) && negb (holds (q_timeout q) id)
            then 1 else 0;
      rx_fired_nodup : NoDup (q_fired q);
      rx_fired_old : forall id, In id (q_fired q) ->
                                id < q_requestID q /\ ~ In id (q_timers q);
      rx_queue_nodup : NoDup (map promise (optList (q_active q) ++ q_pending q));
      rx_queue_fresh : forall r, In r (optList (q_active q) ++ q_pending q) ->
                                 promise r < q_nextPromise q;
      rx_fifo : map snd (q_dispatched q) ++ q_pending q = q_enqueued q;
      rx_ids : map fst (q_dispatched q) = seq 0 (q_requestID q);
      rx_count : List.length (q_cleared q) + List.length (optList (q_timeout q))
                 = q_requestID q
    }.

(** What holds in addition between two methods: the request in service has
    its timer armed. *)
Definition Stable (q : Pipeline) : Prop :=
  Relaxed q /\
  (q_active q <> None -> exists h, q_timeout q = Some h /\ q_timers q = [h]).

(** Is request [id] the one in service? *)
Definition inService (w : World) (id : nat) : bool :=
  match activeRequest w with
  | Some _ => Nat.eqb (S id) (requestID w)
  | None => false
  end.

(** ** Merging seen alone: it changes the tree and adds to the trace *)

Definition mergeEvent (e : Event) : bool :=
  match e with
  | EvTree _ | EvEmit _ | EvFire _ => true
  | _ => false
  end.

Definition extend (s : Store) (tr : list Event) (w : World) : World :=
  set_trace (trace w ++ tr) (set_root s w).

Definition isPathLookup (e : Event) : bool :=
  match e with
  | EvTree (CallGetElementByPath _ _) => true
  | _ => false
  end.

(** Merge events other than lookups by path. *)
Definition numberEvent (e : Event) : bool :=
  mergeEvent e && negb (isPathLookup e).

(** [w'] is [w] with another tree and more events, all of them [ok]. *)
Definition mergesWith (ok : Event -> bool) (w w' : World) : Prop :=
  exists s tr, w' = extend s tr w /\ forallb ok tr = true.

(** [w'] is [w] after some merging. *)
Definition merges (w w' : World) : Prop := mergesWith mergeEvent w w'.

(** The lookup by which the loops of lines 286-293 and 333-340 resolve a
    child under [element]. *)
Definition childLookup (element : Ref) (c : Element) : TreeCall :=
  if isQualified c then CallGetElementByPath element (path c)
  else CallGetElementByNumber element (number c).

(** ** Promises in use were made before *)

Definition callbackPromise (cb : Callback) : nat :=
  match cb with
  | CbConnect p => p
  | CbGetDirectory p _ => p
  | CbInvokeFunction p => p
  | CbSetValue p => p
  end.

Record Made (w : World) : Prop :=
  MkMade {
      made_settled : forall p, In p (map fst (settled w)) -> p < nextPromise w;
      made_callback : forall cb, callback w = Some cb ->
                                 callbackPromise cb < nextPromise w;
      made_pending : forall p, treePending w = Some p -> p < nextPromise w;
      made_queue : forall r, In r (activeList w ++ pendingRequests w) ->
                             promise r < nextPromise w
    }.

(** ** What a closure sends and installs when it is called *)

(** The command a queued closure sends when it is called without an error
    (lines 188, 221, 446); the closure of [getNodeByPath] sends nothing
    itself. *)
Definition commandOf (wk : Work) : list Command :=
  match wk with
  | WGetDirectory q => [GetDirectoryCmd q]
  | WInvokeFunction f ps => [InvokeCmd f ps]
  | WGetNodeByPath _ => []
  | WSetValue n v => [SetValueCmd n v]
  end.

(** The response handler it stores in [self.callback] (lines 152, 220,
    442); the closure of [getNodeByPath] stores none. *)
Definition handlerOf (r : Request) : option Callback :=
  match work r with
  | WGetDirectory q => Some (CbGetDirectory (promise r) q)
  | WInvokeFunction _ _ => Some (CbInvokeFunction (promise r))
  | WGetNodeByPath _ => None
  | WSetValue _ _ => Some (CbSetValue (promise r))
  end.

(** The closure a call of the DeviceTree pushes on the queue, if it pushes
    one (lines 145, 196, 381, 424). *)
Definition queuedWork (w : World) (i : Input) : option Work :=
  match i with
  | CallGetDirectory (Some q) => Some (WGetDirectory q)
  | CallGetDirectory None => Some (WGetDirectory tm_root)
  | CallInvokeFunction f ps => Some (WInvokeFunction f ps)
  | CallGetNodeByPath (inl s) =>
      Some (WGetNodeByPath (JsString.split "/"%char s))
  | CallGetNodeByPath (inr l) => Some (WGetNodeByPath l)
  | CallSetValue n v =>
      if negb (instanceofParameter (tm_kind (root w) n))
         && negb (instanceofQualifiedParameter (tm_kind (root w) n))
      then None
      else Some (WSetValue n v)
  | _ => None
  end.


(** ** Responses go to the request in service *)

Record Routed (w : World) : Prop :=
  MkRouted {
      rt_waiting : forall r, In r (activeList w ++ pendingRequests w) ->
                             outcome w (promise r) = None;
      rt_slot : forall cb, callback w = Some cb ->
                           match cb with
                           | CbConnect p =>
                               forall r,
                                 In r (activeList w ++ pendingRequests w) ->
                                 promise r <> p
                           | _ =>
                               treePending w = None /\
                               exists r, activeRequest w = Some r /\
                                         handlerOf r = Some cb
                           end;
      rt_tree : forall p, treePending w = Some p ->
                          exists r, activeRequest w = Some r /\ promise r = p;
      rt_done : forall d, In d (dispatched w) ->
                          In (snd d) (activeList w) \/
                          outcome w (promise (snd d)) <> None
    }.

(** What [makeRequest] needs to find when no request is in service. *)
Record Handover (w : World) : Prop :=
  MkHandover {
      ho_idle : activeRequest w = None;
      ho_tree : treePending w = None;
      ho_nodup : NoDup (map promise (pendingRequests w));
      ho_waiting : forall r, In r (pendingRequests w) ->
                             outcome w (promise r) = None;
      ho_slot : forall cb, callback w = Some cb ->
                           exists p, cb = CbConnect p /\
                                     forall r, In r (pendingRequests w) ->
                                               promise r <> p;
      ho_done : forall d, In d (dispatched w) ->
                          outcome w (promise (snd d)) <> None
    }.

(** ** Promises that nothing holds any more *)

(** Promise [p] was made and is unsettled, and neither the response handler
    in [self.callback], nor a queued closure, nor the continuation handed to
    [root.getNodeByPath] settles it. *)
Record Orphan (p : nat) (w : World) : Prop :=
  MkOrphan {
      or_made : p < nextPromise w;
      or_unsettled : outcome w p = None;
      or_slot : forall cb, callback w = Some cb -> callbackPromise cb <> p;
      or_tree : forall q, treePending w = Some q -> q <> p;
      or_queue : forall r, In r (activeList w ++ pendingRequests w) ->
                           promise r <> p
    }.

(** ** Merging seen closer: lookups and emissions, no callback called *)

Definition quietEvent (e : Event) : bool :=
  match e with
  | EvTree _ | EvEmit _ => true
  | _ => false
  end.

(** The elements of a fragment that have no list of children, in the
    order of the fragment. *)
Fixpoint leaves (node : Element) : list Element :=
  match children node with
  | None => [node]
  | Some cs =>
      (fix over (cs : list Element) : list Element :=
         match cs with
         | [] => []
         | c :: rest => leaves c ++ over rest
         end) cs
  end.

(** The path [handleQualifiedNode] looks up for the parent of a node
    (lines 315, 321, 322). *)
Definition parentPath (p : string) : string :=
  JsString.join "." (removelast (JsString.split "."%char p)).

End WithTreeModel.
End Device.

(** ** A tree model to run the merge engine on *)

Module SimpleTree.
Import Ember.
Local Open Scope list_scope.

(** A decimal numeral, as JavaScript prints an integer in a path. *)
Definition showZ (n : Z) : string := NilZero.string_of_int (Z.to_int n).

(** A reference is the list of numbers from the root down to the node; the
    path of a node is these numbers joined by dots. *)
Definition showRef (r : list Z) : string := JsString.join "." (map showZ r).

Definition emptyRoot : Element := MkElement 0 "" KNode false None [] None.

Definition childrenOf (e : Element) : list Element :=
  match children e with
  | Some l => l
  | None => []
  end.

Definition set_children (cs : option (list Element)) (e : Element)
  : Element :=
  MkElement (number e) (path e) (kind e) (stream e) (value e) (callbacks e)
    cs.

Definition set_value (v : option Z) (e : Element) : Element :=
  MkElement (number e) (path e) (kind e) (stream e) v (callbacks e)
    (children e).

Definition set_callbacks (cbs : list nat) (e : Element) : Element :=
  MkElement (number e) (path e) (kind e) (stream e) (value e) cbs
    (children e).

(** The node a reference leads to. *)
Fixpoint locate (r : list Z) (e : Element) : option Element :=
  match r with
  | [] => Some e
  | n :: r' =>
      match find (fun c => Z.eqb (number c) n) (childrenOf e) with
      | Some c => locate r' c
      | None => None
      end
  end.

Fixpoint modifyFirst (n : Z) (g : Element -> Element) (cs : list Element)
  : list Element :=
  match cs with
  | [] => []
  | c :: rest =>
      if Z.eqb (number c) n then g c :: rest
      else c :: modifyFirst n g rest
  end.

(** The tree with [f] applied to the node a reference leads to. *)
Fixpoint modify (f : Element -> Element) (r : list Z) (e : Element)
  : Element :=
  match r with
  | [] => f e
  | n :: r' =>
      set_children (option_map (modifyFirst n (modify f r')) (children e)) e
  end.

(** The first node below [e] (itself at [here]) whose path is [p]. *)
Fixpoint findPath (p : string) (here : list Z) (e : Element)
  {struct e} : option (list Z) :=
  match children e with
  | None => None
  | Some cs =>
      (fix scan (cs : list Element) : option (list Z) :=
         match cs with
         | [] => None
         | c :: rest =>
             let r := here ++ [number c] in
             if String.eqb (showRef r) p then Some r
             else match findPath p r c with
                  | Some found => Some found
                  | None => scan rest
                  end
         end) cs
  end.

Definition getElementByPath (s : Element) (r : list Z) (p : string)
  : option (list Z) :=
  match locate r s with
  | Some e => findPath p r e
  | None => None
  end.

Definition getElementByNumber (s : Element) (r : list Z) (n : Z)
  : option (list Z) :=
  match locate r s with
  | Some e =>
      if existsb (fun c => Z.eqb (number c) n) (childrenOf e)
      then Some (r ++ [n]) else None
  | None => None
  end.

Definition addChild (s : Element) (r : list Z) (node : Element)
  : Element * list Z :=
  (modify (fun e => set_children (Some (childrenOf e ++ [node])) e) r s,
   r ++ [number node]).

Definition update (s : Element) (r : list Z) (node : Element)
  : Element * list nat :=
  (modify (fun e => match value node with
                    | Some v => set_value (Some v) e
                    | None => e
                    end) r s,
   match locate r s with
   | Some e => callbacks e
   | None => []
   end).

Definition elements (s : Element) (r : list Z) : option (list (list Z)) :=
  match locate r s with
  | Some e => option_map (map (fun c => r ++ [number c])) (children e)
  | None => None
  end.

Definition elementPath (el : Element) : string :=
  if isQualified el then path el else showZ (number el).

Definition kindOf (s : Element) (r : list Z) : Kind :=
  match locate r s with
  | Some e => kind e
  | None => KNode
  end.

Definition isStream (s : Element) (r : list Z) : bool :=
  match locate r s with
  | Some e => stream e
  | None => false
  end.

Definition callbacksOf (s : Element) (r : list Z) : list nat :=
  match locate r s with
  | Some e => callbacks e
  | None => []
  end.

(** Modelled from the spec: the tree model of ember.js, which is not
    under src/: nodes with a number unique among their siblings, a path
    that is the concatenation of the numbers of the ancestors, children in
    insertion order, lookup by number and by path, child insertion, value
    update returning the callbacks registered on the node, and callback
    registration. *)
#[export] Instance model : TreeModel :=
  {|
    Store := Element;
    Ref := list Z;
    tm_newRoot := emptyRoot;
    tm_root := [];
    tm_updateRoot := fun s _ => (s, []);
    tm_update := update;
    tm_getElementByPath := getElementByPath;
    tm_getElementByNumber := getElementByNumber;
    tm_addChild := addChild;
    tm_clear := set_children None;
    tm_cancelCallbacks := fun s => s;
    tm_getPath := fun _ r => showRef r;
    tm_elements := elements;
    tm_elementPath := fun _ el => elementPath el;
    tm_kind := kindOf;
    tm_isStream := isStream;
    tm_addCallback :=
      fun s r cb => modify (fun e => set_callbacks (callbacks e ++ [cb]) e) r s
  |}.

(** A plain node, a qualified node and a parameter, for examples. *)
Definition node (n : Z) (cs : option (list Element)) : Element :=
  MkElement n "" KNode false None [] cs.

Definition qnode (p : string) (n : Z) (cs : option (list Element))
  : Element :=
  MkElement n p KQualifiedNode false None [] cs.

Definition param (n : Z) (v : Z) : Element :=
  MkElement n "" KParameter false (Some v) [] None.

Definition qparam (p : string) (n : Z) (v : Z) : Element :=
  MkElement n p KQualifiedParameter false (Some v) [] None.

End SimpleTree.

(** ** Directory expansion (lines 97-132) *)

Module Expand.
Import Ember.
Local Open Scope list_scope.

(** How a promise settles; [None] is [undefined]. *)
Inductive Settled : Type :=
| Resolves (res : option Decoded)
| Rejects (e : Device.Err).

(** A node as [expand] meets it: how [self.getDirectory(node)] settles for
    it, and what [node.getChildren()] returns once it has. *)
Inductive XNode : Type :=
  MkXNode {
      x_id : nat;
      x_isParameter : bool;
      x_getDirectory : Settled;
      x_children : option (list XNode)
    }.

(** What a run of [expand] does, in order. *)
Inductive XEvent : Type :=
| XGetDirectory (id : nat)
| XSetError (id : nat) (e : Device.Err).

(** [expand] on a node that is not null.  The loop of lines 114-129 chains
    one [then] per child that is not a parameter; [p] is how the chain
    settles so far. *)
Fixpoint expandNode (node : XNode) {struct node} : Settled * list XEvent :=
  let here := [XGetDirectory (x_id node)] in
  if x_isParameter node then (x_getDirectory node, here)
  else
    match x_getDirectory node with
    | Rejects e => (Rejects e, here)
    | Resolves res =>
        match res, x_children node with
        | Some _, Some cs =>
            (fix walk (cs : list XNode) (p : Settled) (evs : list XEvent)
               {struct cs} : Settled * list XEvent :=
               match cs with
               | [] => (p, evs)
               | child :: rest =>
                   if x_isParameter child then walk rest p evs
                   else
                     match p with
                     | Rejects e => walk rest (Rejects e) evs
                     | Resolves _ =>
                         let '(r, l) := expandNode child in
                         match r with
                         | Resolves v => walk rest (Resolves v) (evs ++ l)
                         | Rejects e =>
                             walk rest (Resolves None)
                               (evs ++ l ++ [XSetError (x_id child) e])
                         end
                     end
               end) cs (Resolves None) here
        | _, _ => (Resolves None, here)
        end
    end.

(** The chain of lines 113-130, as a function of its own. *)
Fixpoint walkChildren (cs : list XNode) (p : Settled) (evs : list XEvent)
  : Settled * list XEvent :=
  match cs with
  | [] => (p, evs)
  | child :: rest =>
      if x_isParameter child then walkChildren rest p evs
      else
        match p with
        | Rejects e => walkChildren rest (Rejects e) evs
        | Resolves _ =>
            let '(r, l) := expandNode child in
            match r with
            | Resolves v => walkChildren rest (Resolves v) (evs ++ l)
            | Rejects e =>
                walkChildren rest (Resolves None)
                  (evs ++ l ++ [XSetError (x_id child) e])
            end
        end
  end.

(** [expand] (lines 97-132) *)
Definition expand (node : option XNode) : Settled * list XEvent :=
  match node with
  | None => (Rejects Device.InvalidNullNode, [])
  | Some n => expandNode n
  end.

(** What expanding one child adds to the run of its parent. *)
Definition childRun (child : XNode) : list XEvent :=
  snd (expandNode child)
  ++ match fst (expandNode child) with
     | Rejects e => [XSetError (x_id child) e]
     | Resolves _ => []
     end.

End Expand.

(** ** TreePath (lines 452-467) *)

Module TreePath.
Local Open Scope list_scope.

(** The values a path can hold, as far as the constructor tells them
    apart: [null], integers ([Number.isInteger] is true), and anything
    else, such as an identifier. *)
Inductive JsValue : Type :=
| JsNull
| JsInteger (n : Z)
| JsOther (s : string).

(** [Number.isInteger(v)] *)
Definition isInteger (v : JsValue) : bool :=
  match v with
  | JsInteger _ => true
  | _ => false
  end.

Definition isNull (v : JsValue) : bool :=
  match v with
  | JsNull => true
  | _ => false
  end.

Record t : Type := Mk { identifiers : list JsValue; numbers : list JsValue }.

(** One turn of the loop of lines 457-465. *)
Definition push (tp : t) (x : JsValue) : t :=
  if isInteger x
  then {| identifiers := identifiers tp ++ [JsNull];
          numbers := numbers tp ++ [x] |}
  else {| identifiers := identifiers tp ++ [x];
          numbers := numbers tp ++ [JsNull] |}.

(** [new TreePath(path)]; [None] is an undefined [path]. *)
Definition make (path : option (list JsValue)) : t :=
  match path with
  | None => {| identifiers := []; numbers := [] |}
  | Some l => fold_left push l {| identifiers := []; numbers := [] |}
  end.

(** What the loop pushes on [numbers] and on [identifiers] for [x]. *)
Definition numberOf (x : JsValue) : JsValue :=
  if isInteger x then x else JsNull.

Definition identifierOf (x : JsValue) : JsValue :=
  if isInteger x then JsNull else x.

(** The path read back: at each place the number, or the identifier where
    the number is [null]. *)
Fixpoint merge (ns ids : list JsValue) : list JsValue :=
  match ns, ids with
  | n :: ns', i :: ids' => (if isNull n then i else n) :: merge ns' ids'
  | _, _ => []
  end.

End TreePath.

(** * Properties *)

(** ** Paths *)

Module JsStringFacts.
Import JsString.
Local Open Scope Z_scope.

Lemma lastIndexOf_range (c : ascii) (s : string) :
  -1 <= lastIndexOf c s < length s.
Proof.
  unfold length.
  induction s as [|a r IH]; simpl String.length.
  - simpl. lia.
  - cbn [lastIndexOf].
    destruct (0 <=? lastIndexOf c r) eqn:Hk.
    + apply Z.leb_le in Hk. lia.
    + destruct (Ascii.eqb a c); lia.
Qed.

Lemma lastIndexOf_app (c : ascii) (p r : string) :
  lastIndexOf c (p ++ r) =
    if 0 <=? lastIndexOf c r then length p + lastIndexOf c r
    else lastIndexOf c p.
Proof.
  unfold length.
  induction p as [|a p IH].
  - simpl. destruct (0 <=? lastIndexOf c r) eqn:Hk; [lia|].
    apply Z.leb_gt in Hk. pose proof (lastIndexOf_range c r). lia.
  - change (String a p ++ r)%string with (String a (p ++ r)%string).
    cbn [lastIndexOf]. rewrite IH. simpl String.length.
    destruct (0 <=? lastIndexOf c r) eqn:Hk.
    + apply Z.leb_le in Hk.
      replace (0 <=? Z.of_nat (String.length p) + lastIndexOf c r) with true
        by (symmetry; apply Z.leb_le; lia).
      lia.
    + reflexivity.
Qed.

Lemma lastIndexOf_lacks (c : ascii) (s : string) :
  lastIndexOf c s = -1 <-> lacks c s = true.
Proof.
  induction s as [|a r IH]; cbn [lastIndexOf lacks].
  - tauto.
  - pose proof (lastIndexOf_range c r) as Hr.
    destruct (0 <=? lastIndexOf c r) eqn:Hk.
    + apply Z.leb_le in Hk. split; intro H; [lia|].
      apply andb_true_iff in H. destruct H as [_ H].
      apply IH in H. lia.
    + apply Z.leb_gt in Hk.
      destruct (Ascii.eqb a c); simpl.
      * split; [lia | discriminate].
      * split; intros _; [apply IH; lia | reflexivity].
Qed.

Lemma lastIndexOf_zero (c : ascii) (s : string) :
  lastIndexOf c s = 0 <->
  exists seg, s = String c seg /\ lacks c seg = true.
Proof.
  destruct s as [|a r]; cbn [lastIndexOf].
  - split; [lia | intros (seg & H & _); discriminate].
  - pose proof (lastIndexOf_range c r) as Hr.
    destruct (0 <=? lastIndexOf c r) eqn:Hk.
    + apply Z.leb_le in Hk. split; [lia|].
      intros (seg & H & Hl). injection H as _ ->.
      apply lastIndexOf_lacks in Hl. lia.
    + apply Z.leb_gt in Hk.
      destruct (Ascii.eqb a c) eqn:Ha.
      * apply Ascii.eqb_eq in Ha. subst a. split; [|reflexivity].
        intros _. exists r. split; [reflexivity|].
        apply lastIndexOf_lacks. lia.
      * split; [lia|]. intros (seg & H & _). injection H as -> _.
        rewrite Ascii.eqb_refl in Ha. discriminate.
Qed.

Lemma startsWith_app (s p : string) :
  startsWith s p = true <-> exists r, s = (p ++ r)%string.
Proof.
  unfold startsWith. revert s.
  induction p as [|a p IH]; intros s.
  - split; [intros _; exists s; reflexivity | intros _; now destruct s].
  - destruct s as [|b s]; simpl.
    + split; [discriminate | intros (r & H); discriminate].
    + destruct (ascii_dec a b) as [->|Hab].
      * rewrite IH. split; intros (r & H); exists r.
        -- now subst s.
        -- now injection H.
      * split; [discriminate|]. intros (r & H). injection H as H _.
        congruence.
Qed.

End JsStringFacts.


Lemma isDirectSubPathOf_spec (p parent : string) :
  isDirectSubPathOf p parent = true <->
  exists seg, JsString.lacks "."%char seg = true /\
              p = (parent ++ "." ++ seg)%string.
Proof.
  unfold isDirectSubPathOf. rewrite andb_true_iff, Z.eqb_eq.
  rewrite JsStringFacts.startsWith_app. split.
  - intros [Hidx (r & ->)].
    rewrite JsStringFacts.lastIndexOf_app in Hidx.
    pose proof (JsStringFacts.lastIndexOf_range "."%char parent) as Hp.
    destruct (0 <=? JsString.lastIndexOf "." r)%Z eqn:Hk; [|lia].
    assert (H0 : JsString.lastIndexOf "."%char r = 0%Z) by lia.
    apply JsStringFacts.lastIndexOf_zero in H0.
    destruct H0 as (seg & -> & Hl). exists seg. split; [exact Hl | reflexivity].
  - intros (seg & Hl & ->). split; [|eexists; reflexivity].
    rewrite JsStringFacts.lastIndexOf_app.
    assert (H0 : JsString.lastIndexOf "."%char ("." ++ seg) = 0%Z).
    { apply JsStringFacts.lastIndexOf_zero. exists seg. split; [reflexivity | exact Hl]. }
    rewrite H0. simpl. lia.
Qed.

Lemma elementMatches_spec (parent p : string) :
  elementMatches parent p = true <-> selfOrDirectChild parent p.
Proof.
  unfold elementMatches, selfOrDirectChild.
  rewrite orb_true_iff, String.eqb_eq, isDirectSubPathOf_spec. tauto.
Qed.

(** ** The pipeline: what every move keeps *)

Module PipelineFacts.
Import Ember Device.
Local Open Scope list_scope.
Local Open Scope nat_scope.

Section WithTreeModel.
Context {M : TreeModel}.

Lemma holds_handle (h id : nat) : holds (Some h) id = Nat.eqb h id.
Proof. reflexivity. Qed.

Ltac pcbn :=
  cbn [q_pending q_active q_timeout q_requestID q_timers q_nextPromise
       q_cleared q_fired q_enqueued q_dispatched optList app map
       pipeIdle pipeNewPromise pipeFire].

Ltac bool_arith :=
  repeat match goal with
    | |- context [Nat.ltb ?a ?b] => destruct (Nat.ltb_spec a b)
    | |- context [Nat.leb ?a ?b] => destruct (Nat.leb_spec a b)
    | |- context [Nat.eqb ?a ?b] => destruct (Nat.eqb_spec a b)
    end;
  cbn; try reflexivity; try lia.

Lemma idle_no_timer (q : Pipeline) :
  Relaxed q -> q_timeout q = None -> q_timers q = [].
Proof.
  intros R Ht. destruct (q_timers q) as [|t ts] eqn:E; [reflexivity|].
  assert (H : In t (q_timers q)) by (rewrite E; left; reflexivity).
  apply (rx_timers q R) in H. congruence.
Qed.

Lemma idle_no_handle (q : Pipeline) :
  Relaxed q -> q_active q = None -> q_timeout q = None.
Proof.
  intros R Ha. destruct (q_timeout q) as [h|] eqn:E; [|reflexivity].
  destruct (rx_handle q R h E) as [_ Hn]. contradiction.
Qed.

Lemma relaxed_clearTimeout (q : Pipeline) :
  Relaxed q -> Relaxed (pipeClearTimeout q).
Proof.
  intros R. unfold pipeClearTimeout.
  destruct (q_timeout q) as [h|] eqn:Ht; [|exact R].
  destruct (rx_handle q R h Ht) as [Hid Hact].
  constructor; pcbn.
  - discriminate.
  - intros t Hin. apply in_remove in Hin. destruct Hin as [Hin Hne].
    apply (rx_timers q R) in Hin. congruence.
  - intros id. rewrite count_occ_app, (rx_cleared q R id), Ht, Hid.
    cbn [count_occ holds].
    destruct (Nat.eq_dec h id) as [->|Hne]; bool_arith.
  - exact (rx_fired_nodup q R).
  - intros id Hin. destruct (rx_fired_old q R id Hin) as [Hlt Hnot].
    split; [exact Hlt|]. intros Hr. apply in_remove in Hr. tauto.
  - exact (rx_queue_nodup q R).
  - exact (rx_queue_fresh q R).
  - exact (rx_fifo q R).
  - exact (rx_ids q R).
  - pose proof (rx_count q R) as H. rewrite Ht in H. cbn in H.
    rewrite length_app. cbn. lia.
Qed.

Lemma clearTimeout_handle (q : Pipeline) :
  q_timeout (pipeClearTimeout q) = None.
Proof.
  unfold pipeClearTimeout. destruct (q_timeout q) eqn:E; [reflexivity | exact E].
Qed.

Lemma relaxed_idle (q : Pipeline) :
  Relaxed q -> q_timeout q = None -> Relaxed (pipeIdle q).
Proof.
  intros R Ht. constructor; pcbn.
  - intros h Hh. congruence.
  - exact (rx_timers q R).
  - exact (rx_cleared q R).
  - exact (rx_fired_nodup q R).
  - exact (rx_fired_old q R).
  - pose proof (rx_queue_nodup q R) as H.
    destruct (q_active q); cbn in *; [now inversion H | exact H].
  - intros r Hin. apply (rx_queue_fresh q R).
    destruct (q_active q); cbn; [right|]; exact Hin.
  - exact (rx_fifo q R).
  - exact (rx_ids q R).
  - exact (rx_count q R).
Qed.

Lemma stable_makeRequest_idle (q : Pipeline) :
  Relaxed q -> q_active q = None -> Stable (pipeMakeRequest q).
Proof.
  intros R Ha.
  pose proof (idle_no_handle q R Ha) as Ht.
  pose proof (idle_no_timer q R Ht) as Hts.
  unfold pipeMakeRequest. rewrite Ha.
  destruct (q_pending q) as [|r rest] eqn:Hp.
  - split; [exact R | intros H; contradiction].
  - split; [constructor; pcbn | pcbn; intros _; eexists; split; [reflexivity|]].
    + intros h Hh. injection Hh as <-. split; [reflexivity | discriminate].
    + rewrite Hts. intros t [<-|[]]. reflexivity.
    + intros id. rewrite (rx_cleared q R id), Ht. cbn [holds].
      bool_arith.
    + exact (rx_fired_nodup q R).
    + rewrite Hts. intros id Hin.
      destruct (rx_fired_old q R id Hin) as [Hlt _].
      split; [lia|]. intros [Heq|[]]. lia.
    + pose proof (rx_queue_nodup q R) as H. rewrite Ha, Hp in H. exact H.
    + intros r' Hin. apply (rx_queue_fresh q R). rewrite Ha, Hp. exact Hin.
    + rewrite map_app, <- app_assoc. cbn.
      pose proof (rx_fifo q R) as H. rewrite Hp in H. exact H.
    + rewrite map_app, (rx_ids q R), seq_S. reflexivity.
    + pose proof (rx_count q R) as H. rewrite Ht in H. cbn in H. cbn. lia.
    + rewrite Hts. reflexivity.
Qed.

Lemma stable_makeRequest (q : Pipeline) :
  Stable q -> Stable (pipeMakeRequest q).
Proof.
  intros [R S]. destruct (q_active q) as [a|] eqn:Ha.
  - unfold pipeMakeRequest. rewrite Ha. split; [exact R | rewrite Ha; exact S].
  - apply stable_makeRequest_idle; assumption.
Qed.

Lemma stable_finishRequest (q : Pipeline) :
  Relaxed q -> Stable (pipeFinishRequest q).
Proof.
  intros R. unfold pipeFinishRequest.
  apply stable_makeRequest_idle; [|reflexivity].
  apply relaxed_idle; [apply relaxed_clearTimeout; exact R|].
  apply clearTimeout_handle.
Qed.

Lemma stable_newPromise (q : Pipeline) :
  Stable q -> Stable (pipeNewPromise q).
Proof.
  intros [R S]. split; [|exact S].
  constructor; pcbn; try (now destruct R).
  intros r Hin. pose proof (rx_queue_fresh q R r Hin). lia.
Qed.

Lemma stable_addRequest (wk : Work) (q : Pipeline) :
  Stable q -> Stable (pipeAddRequest wk q).
Proof.
  intros [R S]. unfold pipeAddRequest.
  apply stable_makeRequest. split; [|exact S].
  constructor; pcbn; try (now destruct R).
  - rewrite app_assoc, map_app. cbn.
    apply NoDup_app; [exact (rx_queue_nodup q R) | repeat constructor; intros [] |].
    intros p Hin [<-|[]]. apply in_map_iff in Hin.
    destruct Hin as (r & Hp & Hin).
    pose proof (rx_queue_fresh q R r Hin). lia.
  - intros r Hin. rewrite app_assoc in Hin. apply in_app_or in Hin.
    destruct Hin as [Hin|[<-|[]]]; cbn; [|lia].
    pose proof (rx_queue_fresh q R r Hin). lia.
  - rewrite app_assoc, (rx_fifo q R). reflexivity.
Qed.

Lemma relaxed_fire (id : nat) (q : Pipeline) :
  Stable q -> In id (q_timers q) -> q_active q <> None ->
  Relaxed (pipeFire id q).
Proof.
  intros [R S] Hin Hact. destruct (S Hact) as (h & Ht & Hts).
  rewrite Hts in Hin. destruct Hin as [<-|[]].
  destruct (rx_handle q R h Ht) as [Hid _].
  constructor; pcbn; try (now destruct R).
  - rewrite Hts. cbn. destruct (Nat.eq_dec h h); [intros t []|congruence].
  - apply NoDup_app; [exact (rx_fired_nodup q R) | repeat constructor; intros [] |].
    intros x Hx [Heq|[]]. subst x.
    destruct (rx_fired_old q R h Hx) as [_ Hn].
    apply Hn. rewrite Hts. left; reflexivity.
  - intros x Hx. rewrite Hts. cbn.
    destruct (Nat.eq_dec h h); [|congruence].
    split; [|intros []].
    apply in_app_or in Hx. destruct Hx as [Hx|[Heq|[]]]; [|lia].
    apply (rx_fired_old q R x Hx).
Qed.

Lemma stable_step (q q' : Pipeline) :
  Stable q -> PipeStep q q' -> Stable q'.
Proof.
  intros St Hs. destruct Hs as [| |wk| |id Hin Hact|id Hin Hact].
  - exact St.
  - apply stable_newPromise; exact St.
  - apply stable_addRequest; exact St.
  - apply stable_finishRequest; exact (proj1 St).
  - apply stable_finishRequest. apply relaxed_fire; assumption.
  - destruct St as [R _].
    rewrite (idle_no_timer q R (idle_no_handle q R Hact)) in Hin.
    destruct Hin.
Qed.

End WithTreeModel.
End PipelineFacts.

(** ** Merging: the tree and the trace, nothing else *)

Module MergeFacts.
Import Ember Device.
Local Open Scope list_scope.
Local Open Scope nat_scope.

(** Induction on decoded elements, through the lists of children. *)
Lemma Element_induction (P : Element -> Prop) :
  (forall n p k st v cbs, P (MkElement n p k st v cbs None)) ->
  (forall n p k st v cbs cs,
      Forall P cs -> P (MkElement n p k st v cbs (Some cs))) ->
  forall e, P e.
Proof.
  intros Hleaf Hnode.
  fix IH 1. intros [n p k st v cbs [cs|]].
  - apply Hnode.
    revert cs. fix IHcs 1. intros [|c cs].
    + constructor.
    + constructor; [apply IH | apply IHcs].
  - apply Hleaf.
Qed.

Section WithTreeModel.
Context {M : TreeModel}.

Lemma extend_root (s : Store) (tr : list Event) (w : World) :
  root (extend s tr w) = s.
Proof. reflexivity. Qed.

Lemma extend_trace (s : Store) (tr : list Event) (w : World) :
  trace (extend s tr w) = trace w ++ tr.
Proof. reflexivity. Qed.

Lemma extend_nil (w : World) : extend (root w) [] w = w.
Proof. destruct w. unfold extend. cbn. rewrite app_nil_r. reflexivity. Qed.

Lemma extend_extend (s1 s2 : Store) (t1 t2 : list Event) (w : World) :
  extend s2 t2 (extend s1 t1 w) = extend s2 (t1 ++ t2) w.
Proof. destruct w. unfold extend. cbn. rewrite app_assoc. reflexivity. Qed.

Lemma log_extend (e : Event) (w : World) : log e w = extend (root w) [e] w.
Proof. destruct w. reflexivity. Qed.

Lemma set_root_extend (s : Store) (w : World) : set_root s w = extend s [] w.
Proof. destruct w. unfold extend. cbn. rewrite app_nil_r. reflexivity. Qed.

Section Allowed.
Variable ok : Event -> bool.

Lemma mergesWith_refl (w : World) : mergesWith ok w w.
Proof. exists (root w), []. split; [symmetry; apply extend_nil | reflexivity]. Qed.

Lemma mergesWith_trans (w1 w2 w3 : World) :
  mergesWith ok w1 w2 -> mergesWith ok w2 w3 -> mergesWith ok w1 w3.
Proof.
  intros (s1 & t1 & -> & H1) (s2 & t2 & -> & H2).
  exists s2, (t1 ++ t2). split; [apply extend_extend|].
  rewrite forallb_app, H1, H2. reflexivity.
Qed.

Lemma mergesWith_log (e : Event) (w : World) :
  ok e = true -> mergesWith ok w (log e w).
Proof.
  intros He. exists (root w), [e]. split; [apply log_extend|].
  cbn. rewrite He. reflexivity.
Qed.

Lemma mergesWith_set_root (s : Store) (w : World) :
  mergesWith ok w (set_root s w).
Proof. exists s, []. split; [apply set_root_extend | reflexivity]. Qed.

Lemma mergesWith_step (w1 w2 w3 : World) :
  mergesWith ok w2 w3 -> mergesWith ok w1 w2 -> mergesWith ok w1 w3.
Proof. intros H23 H12. exact (mergesWith_trans _ _ _ H12 H23). Qed.

End Allowed.

Lemma mergesWith_mono (ok ok' : Event -> bool) (w w' : World) :
  (forall e, ok e = true -> ok' e = true) ->
  mergesWith ok w w' -> mergesWith ok' w w'.
Proof.
  intros Hi (s & tr & -> & H). exists s, tr. split; [reflexivity|].
  rewrite forallb_forall in *. intros e He. apply Hi, H, He.
Qed.

Lemma number_merges (w w' : World) : mergesWith numberEvent w w' -> merges w w'.
Proof.
  apply mergesWith_mono. intros e He. unfold numberEvent in He.
  apply andb_true_iff in He. tauto.
Qed.

(** A first event, then more merging. *)
Lemma mergesWith_first (ok : Event -> bool) (e : Event) (w w' : World) :
  mergesWith ok (log e w) w' ->
  exists s tr, w' = extend s (e :: tr) w /\ forallb ok tr = true.
Proof.
  intros (s & tr & -> & H). exists s, tr. split; [|exact H].
  rewrite log_extend. apply extend_extend.
Qed.

(** What merging leaves alone. *)
Lemma merges_fields (w w' : World) :
  merges w w' ->
  pendingRequests w' = pendingRequests w /\
  activeRequest w' = activeRequest w /\
  timeout w' = timeout w /\
  callback w' = callback w /\
  requestID w' = requestID w /\
  timers w' = timers w /\
  nextPromise w' = nextPromise w /\
  settled w' = settled w /\
  clientConnected w' = clientConnected w /\
  treePending w' = treePending w.
Proof. intros (s & tr & -> & _). repeat split; reflexivity. Qed.

Lemma flat_map_none {A B : Type} (f : A -> list B) (l : list A) :
  (forall a, In a l -> f a = []) -> flat_map f l = [].
Proof.
  induction l as [|a l IH]; intros H; [reflexivity|].
  cbn. rewrite (H a (or_introl eq_refl)). apply IH.
  intros b Hb. apply H. right; exact Hb.
Qed.

Lemma merges_pipeline (w w' : World) :
  merges w w' -> pipeline w' = pipeline w.
Proof.
  intros (s & tr & -> & Htr).
  rewrite forallb_forall in Htr.
  unfold pipeline, cleared, fired, enqueued, dispatched.
  rewrite extend_trace, !flat_map_app.
  rewrite !(flat_map_none _ tr), !app_nil_r; [reflexivity|..];
    intros e He; specialize (Htr e He); destruct e; cbn in Htr;
    try discriminate; reflexivity.
Qed.

(** *** The merge engine only merges *)

Ltac merge_steps :=
  repeat first
    [ apply mergesWith_refl
    | apply mergesWith_set_root
    | apply mergesWith_log; reflexivity
    | eapply mergesWith_step; [apply mergesWith_set_root|]
    | eapply mergesWith_step; [apply mergesWith_log; reflexivity|] ].

Lemma resolveNumbered_after_lookup (parent : Ref) (node : Element) (w : World) :
  mergesWith numberEvent
    (treeCall (CallGetElementByNumber parent (number node)) w)
    (snd (resolveNumbered parent node w)).
Proof.
  unfold resolveNumbered, treeCall.
  destruct (tm_getElementByNumber _ parent (number node)) as [n|].
  - destruct (tm_update _ n node) as [s cbs]. cbn [snd]. merge_steps.
  - destruct (tm_addChild _ parent node) as [s n]. cbn [snd]. merge_steps.
Qed.

Lemma resolveNumbered_merges (parent : Ref) (node : Element) (w : World) :
  mergesWith numberEvent w (snd (resolveNumbered parent node w)).
Proof.
  eapply mergesWith_trans; [|apply resolveNumbered_after_lookup].
  apply mergesWith_log. reflexivity.
Qed.

Lemma resolveQualified_after_lookup (parent : Ref) (node : Element) (w : World) :
  merges (treeCall (CallGetElementByPath parent (path node)) w)
         (snd (resolveQualified parent node w)).
Proof.
  unfold merges, resolveQualified, treeCall, emit.
  destruct (tm_getElementByPath _ parent (path node)) as [el|].
  - destruct (tm_update _ el node) as [s cbs]. cbn [snd]. merge_steps.
  - destruct (Nat.eqb _ 1).
    + destruct (tm_addChild _ tm_root node) as [s n]. cbn [snd]. merge_steps.
    + destruct (tm_getElementByPath _ tm_root _) as [p|].
      * destruct (tm_addChild _ p node) as [s n]. cbn [snd]. merge_steps.
      * cbn [snd]. merge_steps.
Qed.

Lemma resolveQualified_merges (parent : Ref) (node : Element) (w : World) :
  merges w (snd (resolveQualified parent node w)).
Proof.
  eapply mergesWith_trans; [|apply resolveQualified_after_lookup].
  apply mergesWith_log. reflexivity.
Qed.

(** [handleNode] and [handleQualifiedNode] written with the loops named. *)
Lemma handleNode_eq (parent : Ref) (node : Element) (w : World) :
  handleNode parent node w =
    let '(n, callbacks, w1) := resolveNumbered parent node w in
    match children node with
    | Some cs => handleNodes n cs callbacks w1
    | None => (callbacks, emit (EmValueChange node) w1)
    end.
Proof.
  destruct node as [nn np nk ns nv ncb [cs|]]; cbn [handleNode children].
  - destruct (resolveNumbered parent _ w) as [[n cbs] w1].
    revert cbs w1. induction cs as [|c cs IH]; intros cbs w1; [reflexivity|].
    cbn [handleNodes]. destruct (handleNode n c w1) as [cbs' w2]. apply IH.
  - reflexivity.
Qed.

Lemma handleQualifiedNode_eq (parent : Ref) (node : Element) (w : World) :
  handleQualifiedNode parent node w =
    match resolveQualified parent node w with
    | (None, w1) => ([], w1)
    | (Some (element, callbacks), w1) =>
        match children node with
        | Some cs => handleChildren element cs callbacks w1
        | None => (callbacks, w1)
        end
    end.
Proof.
  destruct node as [nn np nk ns nv ncb [cs|]];
    cbn [handleQualifiedNode children].
  - destruct (resolveQualified parent _ w) as [[[el cbs]|] w1]; [|reflexivity].
    revert cbs w1. induction cs as [|c cs IH]; intros cbs w1; [reflexivity|].
    cbn [handleChildren].
    destruct (if isQualified c then handleQualifiedNode el c w1
              else handleNode el c w1) as [cbs' w2]. apply IH.
  - reflexivity.
Qed.

(** Below a node handled by number nothing is looked up by path. *)
Lemma handleNode_after_lookup (node : Element) :
  forall parent w,
    mergesWith numberEvent
      (treeCall (CallGetElementByNumber parent (number node)) w)
      (snd (handleNode parent node w)).
Proof.
  induction node as [n p k st v cbs0|n p k st v cbs0 cs IH]
    using Element_induction; intros parent w; rewrite handleNode_eq;
    pose proof (resolveNumbered_after_lookup parent
                  (MkElement n p k st v cbs0
                     ltac:(first [exact (Some cs) | exact None])) w) as H0;
    destruct (resolveNumbered parent _ w) as [[r cbs] w1]; cbn [snd] in H0;
    cbn [children].
  - cbn [snd]. eapply mergesWith_step; [|exact H0].
    apply mergesWith_log. reflexivity.
  - revert H0. cbn [number].
    generalize (treeCall (CallGetElementByNumber parent n) w). intros w0 H0.
    clear -IH H0. revert cbs w1 H0.
    induction IH as [|c cs Hc _ IHcs]; intros cbs w1 H0; [exact H0|].
    cbn [handleNodes]. specialize (Hc r w1).
    destruct (handleNode r c w1) as [cbs' w2]. cbn [snd] in Hc.
    apply IHcs. eapply mergesWith_trans; [exact H0|].
    eapply mergesWith_trans; [|exact Hc].
    apply mergesWith_log. reflexivity.
Qed.

Lemma handleNode_byNumber (node : Element) (parent : Ref) (w : World) :
  mergesWith numberEvent w (snd (handleNode parent node w)).
Proof.
  eapply mergesWith_trans; [|apply handleNode_after_lookup].
  apply mergesWith_log. reflexivity.
Qed.

Lemma handleNode_merges (node : Element) (parent : Ref) (w : World) :
  merges w (snd (handleNode parent node w)).
Proof. apply number_merges, handleNode_byNumber. Qed.

Lemma handleNodes_byNumber (n : Ref) (cs : list Element) :
  forall cbs w, mergesWith numberEvent w (snd (handleNodes n cs cbs w)).
Proof.
  induction cs as [|c cs IH]; intros cbs w; [apply mergesWith_refl|].
  cbn [handleNodes]. pose proof (handleNode_byNumber c n w) as Hc.
  destruct (handleNode n c w) as [cbs' w2]. cbn [snd] in Hc.
  exact (mergesWith_trans _ _ _ _ Hc (IH _ _)).
Qed.

Lemma handleQualifiedNode_after_lookup (node : Element) :
  forall parent w,
    merges (treeCall (CallGetElementByPath parent (path node)) w)
           (snd (handleQualifiedNode parent node w)).
Proof.
  induction node as [n p k st v cbs0|n p k st v cbs0 cs IH]
    using Element_induction; intros parent w; rewrite handleQualifiedNode_eq;
    pose proof (resolveQualified_after_lookup parent
                  (MkElement n p k st v cbs0
                     ltac:(first [exact (Some cs) | exact None])) w) as H0;
    destruct (resolveQualified parent _ w) as [[[r cbs]|] w1]; cbn [snd] in H0;
    cbn [children]; try exact H0.
  revert H0. cbn [path].
  generalize (treeCall (CallGetElementByPath parent p) w). intros w0 H0.
  clear -IH H0. revert cbs w1 H0.
  induction IH as [|c cs Hc _ IHcs]; intros cbs w1 H0; [exact H0|].
  cbn [handleChildren].
  assert (Hstep : merges w1 (snd (if isQualified c
                                  then handleQualifiedNode r c w1
                                  else handleNode r c w1))).
  { destruct (isQualified c); [|apply handleNode_merges].
    eapply mergesWith_trans; [|apply Hc]. apply mergesWith_log. reflexivity. }
  destruct (if isQualified c then handleQualifiedNode r c w1
            else handleNode r c w1) as [cbs' w2]. cbn [snd] in Hstep.
  apply IHcs. exact (mergesWith_trans _ _ _ _ H0 Hstep).
Qed.

Lemma handleQualifiedNode_merges (node : Element) (parent : Ref) (w : World) :
  merges w (snd (handleQualifiedNode parent node w)).
Proof.
  eapply mergesWith_trans; [|apply handleQualifiedNode_after_lookup].
  apply mergesWith_log. reflexivity.
Qed.

(** Each child is first looked up under [element], by path or by number. *)
Lemma handleChild_after_lookup (element : Ref) (c : Element) (w : World) :
  merges (treeCall (childLookup element c) w)
         (snd (if isQualified c then handleQualifiedNode element c w
               else handleNode element c w)).
Proof.
  unfold childLookup. destruct (isQualified c).
  - apply handleQualifiedNode_after_lookup.
  - apply number_merges, handleNode_after_lookup.
Qed.

Lemma handleChild_merges (element : Ref) (c : Element) (w : World) :
  merges w (snd (if isQualified c then handleQualifiedNode element c w
                 else handleNode element c w)).
Proof.
  destruct (isQualified c);
    [apply handleQualifiedNode_merges | apply handleNode_merges].
Qed.

Lemma handleChildren_merges (element : Ref) (cs : list Element) :
  forall cbs w, merges w (snd (handleChildren element cs cbs w)).
Proof.
  induction cs as [|c cs IH]; intros cbs w; [apply mergesWith_refl|].
  cbn [handleChildren]. pose proof (handleChild_merges element c w) as Hc.
  destruct (if isQualified c then handleQualifiedNode element c w
            else handleNode element c w) as [cbs' w2]. cbn [snd] in Hc.
  exact (mergesWith_trans _ _ _ _ Hc (IH _ _)).
Qed.

Lemma fireCallbacks_merges (cbs : list nat) :
  forall w, merges w (fireCallbacks cbs w).
Proof.
  unfold fireCallbacks.
  induction cbs as [|cb cbs IH]; intros w; [apply mergesWith_refl|].
  cbn [fold_left]. eapply mergesWith_trans; [|apply IH].
  apply mergesWith_log. reflexivity.
Qed.

Lemma handleRoot_merges (d : Decoded) (w : World) : merges w (handleRoot d w).
Proof.
  unfold handleRoot. destruct (tm_updateRoot (root w) d) as [s cbs].
  destruct (decoded_elements d) as [els|]; [|apply mergesWith_set_root].
  pose proof (handleChildren_merges tm_root els cbs (set_root s w)) as H.
  destruct (handleChildren tm_root els cbs (set_root s w)) as [cbs' w1].
  cbn [snd] in H.
  eapply mergesWith_trans; [apply mergesWith_set_root|].
  eapply mergesWith_trans; [exact H | apply fireCallbacks_merges].
Qed.

(** An event in the trace added by a later part of a merge. *)
Lemma added_later (e : Event) (w1 w2 w3 : World) :
  merges w1 w2 ->
  (exists s tr, w3 = extend s tr w2 /\ In e tr) ->
  exists s tr, w3 = extend s tr w1 /\ In e tr.
Proof.
  intros (s1 & t1 & -> & _) (s2 & t2 & -> & Hin).
  exists s2, (t1 ++ t2). split; [apply extend_extend|].
  apply in_or_app. right; exact Hin.
Qed.

Lemma added_earlier (e : Event) (w1 w2 w3 : World) :
  (exists s tr, w2 = extend s tr w1 /\ In e tr) ->
  merges w2 w3 ->
  exists s tr, w3 = extend s tr w1 /\ In e tr.
Proof.
  intros (s1 & t1 & -> & Hin) (s2 & t2 & -> & _).
  exists s2, (t1 ++ t2). split; [apply extend_extend|].
  apply in_or_app. left; exact Hin.
Qed.

Lemma added_first (e : Event) (w w' : World) :
  merges (log e w) w' -> exists s tr, w' = extend s tr w /\ In e tr.
Proof.
  intros H. apply mergesWith_first in H. destruct H as (s & tr & -> & _).
  exists s, (e :: tr). split; [reflexivity | left; reflexivity].
Qed.

(** Every child of the loop is looked up under [element]. *)
Lemma handleChildren_lookup (element : Ref) (cs : list Element) (c : Element) :
  In c cs ->
  forall cbs w,
  exists s tr,
    snd (handleChildren element cs cbs w) = extend s tr w /\
    In (EvTree (childLookup element c)) tr.
Proof.
  induction cs as [|c0 cs IH]; intros Hin cbs w; [destruct Hin|].
  cbn [handleChildren].
  pose proof (handleChild_after_lookup element c0 w) as Hfirst.
  pose proof (handleChild_merges element c0 w) as Hm.
  destruct (if isQualified c0 then handleQualifiedNode element c0 w
            else handleNode element c0 w) as [cbs' w2].
  cbn [snd] in Hfirst, Hm.
  destruct Hin as [->|Hin].
  - eapply added_earlier; [|apply handleChildren_merges].
    apply added_first. exact Hfirst.
  - eapply added_later; [exact Hm|]. apply IH. exact Hin.
Qed.

(** Every child of a node handled by number is looked up by number. *)
Lemma handleNodes_lookup (n : Ref) (cs : list Element) (c : Element) :
  In c cs ->
  forall cbs w,
  exists s tr,
    snd (handleNodes n cs cbs w) = extend s tr w /\
    In (EvTree (CallGetElementByNumber n (number c))) tr.
Proof.
  induction cs as [|c0 cs IH]; intros Hin cbs w; [destruct Hin|].
  cbn [handleNodes].
  pose proof (number_merges _ _ (handleNode_after_lookup c0 n w)) as Hfirst.
  pose proof (handleNode_merges c0 n w) as Hm.
  destruct (handleNode n c0 w) as [cbs' w2].
  cbn [snd] in Hfirst, Hm.
  destruct Hin as [->|Hin].
  - eapply added_earlier;
      [|apply number_merges, handleNodes_byNumber].
    apply added_first. exact Hfirst.
  - eapply added_later; [exact Hm|]. apply IH. exact Hin.
Qed.

End WithTreeModel.
End MergeFacts.

(** ** Every method moves the pipeline by one of its moves *)

Module DeviceFacts.
Import Ember Device.
Local Open Scope list_scope.
Local Open Scope nat_scope.

Section WithTreeModel.
Context {M : TreeModel}.

Ltac trace_crush :=
  unfold pipeline, cleared, fired, enqueued, dispatched, log;
  cbn; rewrite ?flat_map_app; cbn; rewrite ?app_nil_r; try reflexivity.

Lemma pipeline_settle (p : nat) (o : Outcome) (w : World) :
  pipeline (settle p o w) = pipeline w.
Proof. unfold settle. destruct (outcome w p); reflexivity. Qed.

Lemma pipeline_clientCall (c : ClientCall) (w : World) :
  pipeline (clientCall c w) = pipeline w.
Proof. unfold clientCall. trace_crush. Qed.

Lemma pipeline_emit (e : Emitted) (w : World) :
  pipeline (emit e w) = pipeline w.
Proof. unfold emit. trace_crush. Qed.

Lemma pipeline_treeCall (c : TreeCall) (w : World) :
  pipeline (treeCall c w) = pipeline w.
Proof. unfold treeCall. trace_crush. Qed.

Lemma pipeline_startWork (r : Request) (w : World) :
  pipeline (startWork r w) = pipeline w.
Proof.
  unfold startWork.
  destruct (work r); rewrite ?pipeline_clientCall; try reflexivity.
  change (pipeline (treeCall (CallRootGetNodeByPath segments) w) = pipeline w).
  apply pipeline_treeCall.
Qed.

Lemma pipeline_makeRequest (w : World) :
  pipeline (makeRequest w) = pipeMakeRequest (pipeline w).
Proof.
  unfold makeRequest, pipeMakeRequest. cbn [pipeline q_active q_pending].
  destruct (activeRequest w) as [a|]; [reflexivity|].
  destruct (pendingRequests w) as [|r rest]; [reflexivity|].
  rewrite pipeline_startWork. trace_crush.
Qed.

Lemma pipeline_clearTimeout (w : World) :
  pipeline (clearTimeout w) = pipeClearTimeout (pipeline w).
Proof.
  unfold clearTimeout, pipeClearTimeout. cbn [pipeline q_timeout].
  destruct (timeout w) as [h|]; [|reflexivity]. trace_crush.
Qed.

Lemma pipeline_finishRequest (w : World) :
  pipeline (finishRequest w) = pipeFinishRequest (pipeline w).
Proof.
  unfold finishRequest, pipeFinishRequest.
  rewrite pipeline_makeRequest.
  change (pipeline (set_activeRequest None (clearTimeout (set_callback None w))))
    with (pipeIdle (pipeline (clearTimeout (set_callback None w)))).
  rewrite pipeline_clearTimeout. reflexivity.
Qed.

Lemma pipeClearTimeout_twice (q : Pipeline) :
  pipeClearTimeout (pipeClearTimeout q) = pipeClearTimeout q.
Proof.
  unfold pipeClearTimeout at 1.
  rewrite PipelineFacts.clearTimeout_handle. reflexivity.
Qed.

Lemma pipeFinish_after_clear (q : Pipeline) :
  pipeFinishRequest (pipeClearTimeout q) = pipeFinishRequest q.
Proof. unfold pipeFinishRequest. rewrite pipeClearTimeout_twice. reflexivity. Qed.

Lemma pipeline_failWork (r : Request) (e : Err) (w : World) :
  pipeline (failWork r e w) = pipeFinishRequest (pipeline w).
Proof.
  unfold failWork, reject.
  destruct (work r);
    rewrite ?pipeline_settle, pipeline_finishRequest, ?pipeline_settle;
    reflexivity.
Qed.

Lemma pipeline_addRequest (wk : Work) (w : World) :
  pipeline (addRequest (MkRequest wk (nextPromise w)) (snd (newPromise w)))
  = pipeAddRequest wk (pipeline w).
Proof.
  unfold addRequest, pipeAddRequest. rewrite pipeline_makeRequest.
  f_equal. trace_crush.
Qed.

Lemma pipeline_getDirectoryCallback (p : nat) (q : Ref)
  (error : option Err) (node : option Decoded) (w : World) :
  pipeline (getDirectoryCallback p q error node w) = pipeline w \/
  pipeline (getDirectoryCallback p q error node w)
  = pipeFinishRequest (pipeline w).
Proof.
  unfold getDirectoryCallback, reject, resolve.
  destruct node as [d|]; [|left; reflexivity].
  destruct error as [e|].
  - right. rewrite pipeline_settle, pipeline_finishRequest,
      pipeline_clearTimeout. apply pipeFinish_after_clear.
  - destruct (requestedPathOf q w) as [rp|]; [|left; reflexivity].
    destruct (directoryComplete rp (elementPaths w d)); [|left; reflexivity].
    right. rewrite pipeline_settle, pipeline_finishRequest,
      pipeline_clearTimeout. apply pipeFinish_after_clear.
Qed.

Lemma pipeline_invokeCallback (cb : Callback) (error : option Err)
  (node : option Decoded) (w : World) :
  pipeline (invokeCallback cb error node w) = pipeline w \/
  pipeline (invokeCallback cb error node w) = pipeFinishRequest (pipeline w).
Proof.
  destruct cb as [p|p q|p|p]; cbn [invokeCallback].
  - left. unfold resolve, reject.
    destruct error; rewrite pipeline_settle; reflexivity.
  - apply pipeline_getDirectoryCallback.
  - right. rewrite pipeline_finishRequest. unfold resolve, reject.
    destruct error; rewrite pipeline_settle, pipeline_clearTimeout;
      apply pipeFinish_after_clear.
  - right. unfold resolve, reject.
    destruct error; rewrite pipeline_settle; apply pipeline_finishRequest.
Qed.

Lemma pipeStep_invokeCallback (cb : Callback) (error : option Err)
  (node : option Decoded) (w : World) :
  PipeStep (pipeline w) (pipeline (invokeCallback cb error node w)).
Proof.
  destruct (pipeline_invokeCallback cb error node w) as [-> | ->];
    constructor.
Qed.

Lemma pipeline_onTimer (id : nat) (w : World) :
  PipeStep (pipeline w) (pipeline (onTimer id w)).
Proof.
  unfold onTimer. destruct (existsb (Nat.eqb id) (timers w)) eqn:Hex;
    [|constructor].
  assert (Hin : In id (q_timers (pipeline w))).
  { apply existsb_exists in Hex. destruct Hex as (x & Hx & Heq).
    apply Nat.eqb_eq in Heq. subst x. exact Hx. }
  unfold timeoutRequest.
  match goal with |- PipeStep _ (pipeline (match activeRequest ?w1 with _ => _ end)) =>
    assert (Hq : pipeline w1 = pipeFire id (pipeline w)) by trace_crush;
    assert (Ha : activeRequest w1 = activeRequest w) by reflexivity;
    destruct (activeRequest w1) as [r|] eqn:Hact
  end.
  - cbn [callRequest]. rewrite pipeline_failWork, Hq.
    apply PipeTimeout; [exact Hin|]. cbn. rewrite <- Ha. discriminate.
  - rewrite Hq. apply PipeStray; [exact Hin|]. cbn. symmetry. exact Ha.
Qed.

Lemma pipeline_step (w : World) (i : Input) :
  PipeStep (pipeline w) (pipeline (step w i)).
Proof.
  destruct i; cbn [step].
  - (* connect *)
    unfold connect. cbn [newPromise snd].
    destruct (clientConnected _); cbn [snd];
      rewrite ?pipeline_clientCall; apply PipeNew.
  - unfold disconnect. rewrite pipeline_clientCall. constructor.
  - (* getDirectory *)
    unfold getDirectory.
    destruct qnode as [q|]; cbn [newPromise snd].
    + apply (eq_ind _ (PipeStep (pipeline w))
               (PipeAdd (pipeline w) (WGetDirectory q))).
      symmetry. apply pipeline_addRequest.
    + apply (eq_ind _ (PipeStep (pipeline w))
               (PipeAdd (pipeline w) (WGetDirectory tm_root))).
      symmetry.
      apply (pipeline_addRequest (WGetDirectory tm_root)
               (set_root (tm_clear (root w)) w)).
  - unfold invokeFunction. cbn [newPromise snd].
    apply (eq_ind _ (PipeStep (pipeline w))
             (PipeAdd (pipeline w) (WInvokeFunction fnNode params))).
    symmetry. apply pipeline_addRequest.
  - unfold getNodeByPath. cbn [newPromise snd].
    match goal with |- context [MkRequest ?wk _] =>
      apply (eq_ind _ (PipeStep (pipeline w)) (PipeAdd (pipeline w) wk))
    end.
    symmetry. apply pipeline_addRequest.
  - (* setValue *)
    unfold setValue. cbn [newPromise].
    match goal with |- context [if ?b then _ else _] => destruct b end;
      cbn [snd].
    + unfold reject. rewrite pipeline_settle. apply PipeNew.
    + apply (eq_ind _ (PipeStep (pipeline w))
               (PipeAdd (pipeline w) (WSetValue node v))).
      symmetry. apply pipeline_addRequest.
  - unfold subscribe.
    match goal with |- context [if ?b then _ else _] => destruct b end;
      constructor.
  - unfold unsubscribe.
    match goal with |- context [if ?b then _ else _] => destruct b end;
      constructor.
  - unfold onConnecting. rewrite pipeline_emit. constructor.
  - unfold onConnected.
    match goal with |- context [callback ?w1] =>
      change (pipeline w) with (pipeline (set_clientConnected true w));
      rewrite <- (pipeline_emit EmConnected (set_clientConnected true w));
      destruct (callback w1)
    end; [apply pipeStep_invokeCallback | constructor].
  - unfold onDisconnected. rewrite pipeline_emit. constructor.
  - unfold onError. rewrite pipeline_emit.
    destruct (callback w); [apply pipeStep_invokeCallback | constructor].
  - (* emberTree *)
    unfold onEmberTree.
    match goal with |- context [callback ?w1] =>
      assert (Hq : pipeline w1 = pipeline w);
      [|rewrite <- Hq; destruct (callback w1);
        [apply pipeStep_invokeCallback | constructor]]
    end.
    destruct d; [|apply pipeline_emit].
    apply MergeFacts.merges_pipeline, MergeFacts.handleRoot_merges.
  - apply pipeline_onTimer.
  - (* the continuation of getNodeByPath *)
    unfold onNodeByPath. destruct (treePending w) as [p|]; [|constructor].
    rewrite pipeline_finishRequest. unfold resolve, reject.
    destruct error; rewrite pipeline_settle; apply PipeFinish.
Qed.

Lemma stable_init : Stable (pipeline init).
Proof.
  split; [constructor; cbn; try discriminate; try tauto | cbn; tauto].
  - constructor.
  - constructor.
Qed.

Lemma stable_fold (inputs : list Input) :
  forall w, Stable (pipeline w) -> Stable (pipeline (fold_left step inputs w)).
Proof.
  induction inputs as [|i inputs IH]; intros w Hw; [exact Hw|].
  cbn [fold_left]. apply IH.
  exact (PipelineFacts.stable_step _ _ Hw (pipeline_step w i)).
Qed.

Lemma stable_run (inputs : list Input) : Stable (pipeline (run inputs)).
Proof. apply stable_fold, stable_init. Qed.

End WithTreeModel.
End DeviceFacts.

(** ** Promises in use were made before: kept by every method *)

Module PromiseFacts.
Import Ember Device.
Local Open Scope list_scope.
Local Open Scope nat_scope.

Section WithTreeModel.
Context {M : TreeModel}.

Lemma made_weaken (w w' : World) :
  nextPromise w <= nextPromise w' ->
  incl (map fst (settled w')) (map fst (settled w)) ->
  (forall cb, callback w' = Some cb -> callback w = Some cb) ->
  (forall p, treePending w' = Some p -> treePending w = Some p) ->
  incl (activeList w' ++ pendingRequests w')
       (activeList w ++ pendingRequests w) ->
  Made w -> Made w'.
Proof.
  intros Hn Hs Hc Hp Hq [Ms Mc Mp Mq]. constructor.
  - intros p Hin. specialize (Ms p (Hs p Hin)). lia.
  - intros cb Hcb. specialize (Mc cb (Hc cb Hcb)). lia.
  - intros p Hin. specialize (Mp p (Hp p Hin)). lia.
  - intros r Hin. specialize (Mq r (Hq r Hin)). lia.
Qed.

Ltac same_made :=
  match goal with
  | H : Made ?w |- Made _ =>
      apply (made_weaken w); [ | | | | | exact H];
      cbn; try apply incl_refl; auto
  end.

Lemma made_log (e : Event) (w : World) : Made w -> Made (log e w).
Proof. intros H. same_made. Qed.

Lemma made_merges (w w' : World) : merges w w' -> Made w -> Made w'.
Proof.
  intros (s & tr & -> & _) H. same_made.
Qed.

Lemma made_settle (p : nat) (o : Outcome) (w : World) :
  Made w -> p < nextPromise w -> Made (settle p o w).
Proof.
  intros H Hp. unfold settle. destruct (outcome w p); [exact H|].
  destruct H as [Ms Mc Mp Mq]. constructor; cbn; auto.
  intros x Hin. rewrite map_app in Hin. apply in_app_or in Hin.
  destruct Hin as [Hin|[<-|[]]]; [apply Ms; exact Hin | exact Hp].
Qed.

Lemma made_clearTimeout (w : World) : Made w -> Made (clearTimeout w).
Proof.
  intros H. unfold clearTimeout. destruct (timeout w); [same_made | exact H].
Qed.

Lemma made_startWork (r : Request) (w : World) :
  Made w -> promise r < nextPromise w -> Made (startWork r w).
Proof.
  intros [Ms Mc Mp Mq] Hr. unfold startWork.
  destruct (work r); constructor; cbn; auto;
    intros x Hx; injection Hx as <-; exact Hr.
Qed.

Lemma made_makeRequest (w : World) : Made w -> Made (makeRequest w).
Proof.
  intros H. unfold makeRequest.
  destruct (activeRequest w) as [a|] eqn:Ha; [exact H|].
  destruct (pendingRequests w) as [|r rest] eqn:Hp; [exact H|].
  assert (Hr : promise r < nextPromise w).
  { apply (made_queue w H). unfold activeList. rewrite Ha, Hp. left; reflexivity. }
  apply made_startWork; [|exact Hr].
  apply (made_weaken w); [ | | | | | exact H]; cbn; auto;
    try apply incl_refl.
  unfold activeList. rewrite Ha, Hp. apply incl_refl.
Qed.

Lemma made_finishRequest (w : World) : Made w -> Made (finishRequest w).
Proof.
  intros H. unfold finishRequest. apply made_makeRequest.
  assert (H1 : Made (clearTimeout (set_callback None w))).
  { apply made_clearTimeout. same_made. discriminate. }
  revert H1. generalize (clearTimeout (set_callback None w)). intros w1 H1.
  apply (made_weaken w1); [ | | | | | exact H1]; cbn; auto;
    try apply incl_refl.
  unfold activeList. destruct (activeRequest w1); cbn;
    [apply incl_tl|]; apply incl_refl.
Qed.

Lemma pipeFinish_nextPromise (q : Pipeline) :
  q_nextPromise (pipeFinishRequest q) = q_nextPromise q.
Proof.
  unfold pipeFinishRequest, pipeMakeRequest, pipeIdle, pipeClearTimeout.
  destruct (q_timeout q); cbn; destruct (q_pending q); reflexivity.
Qed.

Lemma nextPromise_finishRequest (w : World) :
  nextPromise (finishRequest w) = nextPromise w.
Proof.
  pose proof (DeviceFacts.pipeline_finishRequest w) as E.
  apply (f_equal q_nextPromise) in E.
  rewrite pipeFinish_nextPromise in E. exact E.
Qed.

Lemma made_failWork (r : Request) (e : Err) (w : World) :
  Made w -> promise r < nextPromise w -> Made (failWork r e w).
Proof.
  intros H Hr.
  pose proof nextPromise_finishRequest as Hf.
  unfold failWork, reject. destruct (work r).
  - apply made_settle; [apply made_finishRequest; exact H | rewrite Hf; exact Hr].
  - apply made_finishRequest, made_settle; assumption.
  - apply made_finishRequest, made_settle; assumption.
  - apply made_settle; [apply made_finishRequest; exact H | rewrite Hf; exact Hr].
Qed.

Lemma nextPromise_clearTimeout (w : World) :
  nextPromise (clearTimeout w) = nextPromise w.
Proof. unfold clearTimeout. destruct (timeout w); reflexivity. Qed.

Lemma nextPromise_settle (p : nat) (o : Outcome) (w : World) :
  nextPromise (settle p o w) = nextPromise w.
Proof. unfold settle. destruct (outcome w p); reflexivity. Qed.

Lemma made_invokeCallback (cb : Callback) (error : option Err)
  (node : option Decoded) (w : World) :
  Made w -> callbackPromise cb < nextPromise w ->
  Made (invokeCallback cb error node w).
Proof.
  intros H Hp. destruct cb as [p|p q|p|p]; cbn [invokeCallback] in *;
    cbn [callbackPromise] in Hp; unfold resolve, reject.
  - destruct error; apply made_settle; try exact Hp; same_made; discriminate.
  - unfold getDirectoryCallback, resolve, reject.
    destruct node; [|exact H]. destruct error.
    + apply made_settle;
        [apply made_finishRequest, made_clearTimeout; exact H|].
      rewrite nextPromise_finishRequest, nextPromise_clearTimeout. exact Hp.
    + destruct (requestedPathOf q w); [|exact H].
      destruct (directoryComplete _ _); [|exact H].
      apply made_settle;
        [apply made_finishRequest, made_clearTimeout; exact H|].
      rewrite nextPromise_finishRequest, nextPromise_clearTimeout. exact Hp.
  - apply made_finishRequest.
    destruct error; apply made_settle;
      try (rewrite nextPromise_clearTimeout; exact Hp);
      apply made_clearTimeout; exact H.
  - destruct error; apply made_settle;
      try (rewrite nextPromise_finishRequest; exact Hp);
      apply made_finishRequest; exact H.
Qed.

Lemma made_callSlot (error : option Err) (node : option Decoded) (w : World) :
  Made w ->
  Made (match callback w with
        | Some cb => invokeCallback cb error node w
        | None => w
        end).
Proof.
  intros H. destruct (callback w) as [cb|] eqn:Hcb; [|exact H].
  apply made_invokeCallback; [exact H | apply (made_callback w H cb Hcb)].
Qed.

Lemma made_addRequest (wk : Work) (w : World) :
  Made w ->
  Made (addRequest (MkRequest wk (nextPromise w)) (snd (newPromise w))).
Proof.
  intros [Ms Mc Mp Mq]. unfold addRequest. apply made_makeRequest.
  constructor; cbn.
  - intros p Hp. specialize (Ms p Hp). lia.
  - intros cb Hcb. specialize (Mc cb Hcb). lia.
  - intros p Hp. specialize (Mp p Hp). lia.
  - intros r Hin.
    change (In r (activeList w ++ pendingRequests w
                  ++ [MkRequest wk (nextPromise w)])) in Hin.
    rewrite app_assoc in Hin. apply in_app_or in Hin.
    destruct Hin as [Hin|[<-|[]]]; [|cbn; lia].
    specialize (Mq r Hin). lia.
Qed.

Lemma made_step (w : World) (i : Input) : Made w -> Made (step w i).
Proof.
  intros H. destruct i; cbn [step].
  - unfold connect. cbn [newPromise].
    destruct H as [Ms Mc Mp Mq].
    destruct (clientConnected _); cbn [snd]; constructor; cbn;
      try (intros x Hx; injection Hx as <-; cbn; lia);
      intros x Hx;
      first [specialize (Ms x Hx) | specialize (Mp x Hx) | specialize (Mq x Hx)];
      lia.
  - unfold disconnect, clientCall. apply made_log; exact H.
  - unfold getDirectory. destruct qnode; cbn [newPromise snd].
    + apply made_addRequest; exact H.
    + apply (made_addRequest _ (set_root (tm_clear (root w)) w)). same_made.
  - unfold invokeFunction. cbn [newPromise snd]. apply made_addRequest; exact H.
  - unfold getNodeByPath. cbn [newPromise snd]. apply made_addRequest; exact H.
  - unfold setValue. cbn [newPromise].
    match goal with |- context [if ?b then _ else _] => destruct b end;
      cbn [snd]; [|apply made_addRequest; exact H].
    unfold reject. apply made_settle; [|cbn; lia].
    apply (made_weaken w); [ | | | | | exact H]; cbn; auto;
      apply incl_refl.
  - unfold subscribe.
    match goal with |- context [if ?b then _ else _] => destruct b end;
      [exact H | same_made].
  - unfold unsubscribe.
    match goal with |- context [if ?b then _ else _] => destruct b end;
      [exact H | same_made].
  - unfold onConnecting, emit. apply made_log; exact H.
  - unfold onConnected. apply made_callSlot. unfold emit. apply made_log.
    same_made.
  - unfold onDisconnected, emit. apply made_log. same_made.
  - unfold onError, emit. apply made_log. apply made_callSlot. exact H.
  - unfold onEmberTree. apply made_callSlot.
    destruct d; [|unfold emit; apply made_log; exact H].
    exact (made_merges _ _ (MergeFacts.handleRoot_merges _ w) H).
  - unfold onTimer. destruct (existsb _ _); [|exact H].
    unfold timeoutRequest.
    match goal with |- Made (match activeRequest ?w1 with _ => _ end) =>
      assert (H1 : Made w1) by (same_made; discriminate);
      destruct (activeRequest w1) as [r|] eqn:Hact; [|exact H1]
    end.
    cbn [callRequest]. apply made_failWork; [exact H1|].
    apply (made_queue _ H1). unfold activeList. rewrite Hact. left; reflexivity.
  - unfold onNodeByPath. destruct (treePending w) as [p|] eqn:Hp; [|exact H].
    apply made_finishRequest. unfold resolve, reject.
    destruct error; apply made_settle;
      try (cbn; apply (made_pending w H p Hp)); same_made; discriminate.
Qed.

Lemma made_init : Made init.
Proof. constructor; cbn; try discriminate; intros x []. Qed.

Lemma made_fold (inputs : list Input) :
  forall w, Made w -> Made (fold_left step inputs w).
Proof.
  induction inputs as [|i inputs IH]; intros w Hw; [exact Hw|].
  cbn [fold_left]. apply IH, made_step, Hw.
Qed.

Lemma made_run (inputs : list Input) : Made (run inputs).
Proof. apply made_fold, made_init. Qed.

(** A promise just made is not settled. *)
Lemma fresh_unsettled (w : World) : Made w -> outcome w (nextPromise w) = None.
Proof.
  intros H. unfold outcome.
  destruct (find _ (settled w)) as [[p o]|] eqn:Hf; [|reflexivity].
  apply find_some in Hf. destruct Hf as [Hin Heq]. cbn in Heq.
  apply Nat.eqb_eq in Heq. subst p.
  assert (Hlt : nextPromise w < nextPromise w).
  { apply (made_settled w H). apply in_map_iff. exists (nextPromise w, o).
    split; [reflexivity | exact Hin]. }
  lia.
Qed.

Lemma find_app_first {A : Type} (f : A -> bool) (l l' : list A) :
  find f (l ++ l') =
    match find f l with
    | Some x => Some x
    | None => find f l'
    end.
Proof.
  induction l as [|a l IH]; [reflexivity|].
  cbn. destruct (f a); [reflexivity | exact IH].
Qed.

Lemma outcome_settle_fresh (p : nat) (o : Outcome) (w : World) :
  outcome w p = None -> outcome (settle p o w) p = Some o.
Proof.
  intros Hn. unfold settle. rewrite Hn. unfold outcome in *. cbn.
  destruct (find _ (settled w)) eqn:Hf; [discriminate|].
  rewrite find_app_first, Hf. cbn. rewrite Nat.eqb_refl. reflexivity.
Qed.

Lemma outcome_settle_settled (p p' : nat) (o o' : Outcome) (w : World) :
  outcome w p = Some o -> outcome (settle p' o' w) p = Some o.
Proof.
  intros Hs. unfold settle. destruct (outcome w p') eqn:Hp'; [exact Hs|].
  unfold outcome in *. cbn.
  destruct (find _ (settled w)) as [e|] eqn:Hf; [|discriminate].
  rewrite find_app_first, Hf. exact Hs.
Qed.

End WithTreeModel.
End PromiseFacts.

(** * The claims *)

Import Ember Device.
Local Open Scope list_scope.
Local Open Scope nat_scope.

(** ** Completion of a directory request *)

Lemma directoryComplete_spec (P : string) (ps : list string) :
  directoryComplete P (Some ps) = true <-> Forall (selfOrDirectChild P) ps.
Proof.
  cbn [directoryComplete]. rewrite forallb_forall, Forall_forall.
  split; intros H p Hp; apply elementMatches_spec, H, Hp.
Qed.

Lemma getDirectoryCallback_answer {M : TreeModel} (p : nat) (q : Ref)
  (d : Decoded) (w : World) :
  getDirectoryCallback p q None (Some d) w =
    match requestedPathOf q w with
    | Some P =>
        if directoryComplete P (elementPaths w d)
        then resolve p (VDecoded d) (finishRequest (clearTimeout w))
        else w
    | None => w
    end.
Proof. reflexivity. Qed.

(** C1, as amended.  A fragment delivered for a directory request on path
    [P] is judged complete exactly when it has a list of elements and the
    path of every element is [P] or lies one dot-separated segment below
    [P]; a complete answer clears the timer, finishes the request and
    resolves the promise, any other leaves the world as it is.  For
    [P = "1.2"]: the paths 1.2, 1.2.1, 1.2.2 are complete; with the
    grandchild 1.2.1.1 added the fragment is incomplete; 1.2.1 alone is
    complete; 1.3 is incomplete. *)
Theorem C1_directory_completion :
  (forall P ps,
      directoryComplete P (Some ps) = true <->
      Forall (selfOrDirectChild P) ps)
  /\ (forall P, directoryComplete P None = false)
  /\ directoryComplete "1.2" (Some ["1.2"; "1.2.1"; "1.2.2"]%string) = true
  /\ directoryComplete "1.2"
       (Some ["1.2"; "1.2.1"; "1.2.2"; "1.2.1.1"]%string) = false
  /\ directoryComplete "1.2" (Some ["1.2.1"]%string) = true
  /\ directoryComplete "1.2" (Some ["1.3"]%string) = false
  /\ (forall (M : TreeModel) (p : nat) (q : Ref) (d : Decoded) (w : World),
         getDirectoryCallback p q None (Some d) w =
           match requestedPathOf q w with
           | Some P =>
               if directoryComplete P (elementPaths w d)
               then resolve p (VDecoded d) (finishRequest (clearTimeout w))
               else w
           | None => w
           end).
Proof.
  split; [exact directoryComplete_spec|].
  split; [reflexivity|].
  repeat (split; [vm_compute; reflexivity|]).
  intros M p q d w. apply getDirectoryCallback_answer.
Qed.

(** C1, as stated, fails: for a request on 1.2, a fragment with the
    elements 1.2, 1.2.1, 1.2.2 and the grandchild 1.2.1.1 is judged
    incomplete; the promise stays unsettled and the request in service. *)
Lemma C1_grandchild_blocks_completion :
  let fragment :=
    DRoot (Some [SimpleTree.qnode "1.2" 2 None;
                 SimpleTree.qnode "1.2.1" 1 None;
                 SimpleTree.qnode "1.2.2" 2 None;
                 SimpleTree.qnode "1.2.1.1" 1 None]) in
  let w0 := run [CallGetDirectory (M := SimpleTree.model)
                   (Some [1; 2]%Z)] in
  let w := step w0 (ClientEmberTree fragment) in
  requestedPathOf (M := SimpleTree.model) [1; 2]%Z w0 = Some "1.2"%string
  /\ elementPaths w fragment
     = Some ["1.2"; "1.2.1"; "1.2.2"; "1.2.1.1"]%string
  /\ directoryComplete "1.2"
       (Some ["1.2"; "1.2.1"; "1.2.2"; "1.2.1.1"]%string) = false
  /\ outcome w 0 = None
  /\ activeRequest w
     = Some (MkRequest (WGetDirectory (M := SimpleTree.model) [1; 2]%Z) 0)
  /\ timeout w = Some 0.
Proof. vm_compute. repeat split. Qed.

(** ** One request at a time, in the order of the calls *)

Lemma makeRequest_guard {M : TreeModel} (w0 : World) :
  match activeRequest w0, pendingRequests w0 with
  | None, r :: rest =>
      activeRequest (makeRequest w0) = Some r
      /\ pendingRequests (makeRequest w0) = rest
      /\ requestID (makeRequest w0) = S (requestID w0)
      /\ timeout (makeRequest w0) = Some (requestID w0)
      /\ timers (makeRequest w0) = requestID w0 :: timers w0
      /\ dispatched (makeRequest w0)
         = dispatched w0 ++ [(requestID w0, r)]
      /\ sent (makeRequest w0)
         = sent w0 ++ match work r with
                      | WGetDirectory q => [GetDirectoryCmd q]
                      | WInvokeFunction f ps => [InvokeCmd f ps]
                      | WGetNodeByPath _ => []
                      | WSetValue n v => [SetValueCmd n v]
                      end
  | _, _ => makeRequest w0 = w0
  end.
Proof.
  unfold makeRequest.
  destruct (activeRequest w0) as [a|]; [reflexivity|].
  destruct (pendingRequests w0) as [|r rest]; [reflexivity|].
  unfold startWork.
  destruct (work r); cbn; repeat split;
    unfold dispatched, sent, log, clientCall, treeCall, log; cbn;
    rewrite ?flat_map_app; cbn; rewrite ?app_nil_r; reflexivity.
Qed.

(** C2.  In every world a DeviceTree can reach: the closures in the queue
    and the one in service are all different, so the queue never holds the
    request in service; the closures dispatched so far, followed by the
    queue, are the closures enqueued, in the order of enqueueing; the ids
    given at dispatch are 0, 1, 2, ...; all dispatched requests but the one
    in service have had their timer cleared.  [makeRequest] does nothing
    unless no request is in service and the queue is not empty; then it
    takes the head of the queue, makes it the request in service, gives it
    the id [requestID++], arms its timer and calls it. *)
Theorem C2_one_request_at_a_time_fifo {M : TreeModel} (inputs : list Input) :
  let w := run inputs in
  NoDup (map promise (activeList w ++ pendingRequests w))
  /\ (forall r, activeRequest w = Some r -> ~ In r (pendingRequests w))
  /\ map snd (dispatched w) ++ pendingRequests w = enqueued w
  /\ map fst (dispatched w) = seq 0 (requestID w)
  /\ List.length (dispatched w)
     = List.length (cleared w) + List.length (activeList w)
  /\ (forall w0 : World,
         match activeRequest w0, pendingRequests w0 with
         | None, r :: rest =>
             activeRequest (makeRequest w0) = Some r
             /\ pendingRequests (makeRequest w0) = rest
             /\ requestID (makeRequest w0) = S (requestID w0)
             /\ timeout (makeRequest w0) = Some (requestID w0)
             /\ timers (makeRequest w0) = requestID w0 :: timers w0
             /\ dispatched (makeRequest w0)
                = dispatched w0 ++ [(requestID w0, r)]
             /\ sent (makeRequest w0)
                = sent w0 ++ match work r with
                             | WGetDirectory q => [GetDirectoryCmd q]
                             | WInvokeFunction f ps => [InvokeCmd f ps]
                             | WGetNodeByPath _ => []
                             | WSetValue n v => [SetValueCmd n v]
                             end
         | _, _ => makeRequest w0 = w0
         end).
Proof.
  intros w. destruct (DeviceFacts.stable_run inputs) as [R S].
  fold w in R, S.
  pose proof (rx_queue_nodup _ R) as Hnd.
  change (NoDup (map promise (activeList w ++ pendingRequests w))) in Hnd.
  split; [exact Hnd|].
  split.
  { intros r Hr Hin. unfold activeList in Hnd. rewrite Hr in Hnd.
    cbn in Hnd. inversion Hnd as [|x l Hnot _]. subst.
    apply Hnot, in_map, Hin. }
  split; [exact (rx_fifo _ R)|].
  split; [exact (rx_ids _ R)|].
  split; [|exact makeRequest_guard].
  pose proof (rx_ids _ R) as Hids. pose proof (rx_count _ R) as Hc.
  apply (f_equal (@List.length nat)) in Hids.
  rewrite length_map, length_seq in Hids.
  cbn [pipeline q_dispatched q_requestID q_cleared q_timeout] in Hids, Hc.
  rewrite Hids, <- Hc. f_equal.
  unfold activeList. destruct (activeRequest w) as [a|] eqn:Ha.
  - destruct S as (h & Ht & _); [cbn; rewrite Ha; discriminate|].
    cbn in Ht. rewrite Ht. reflexivity.
  - pose proof (PipelineFacts.idle_no_handle _ R Ha) as Hn.
    cbn in Hn. rewrite Hn. reflexivity.
Qed.

(** A run for C2: three calls, one answer; the second request is in
    service, the third waits. *)
Lemma C2_one_request_at_a_time_fifo_witness :
  let second :=
    MkRequest (WInvokeFunction (M := SimpleTree.model) [1]%Z []) 1 in
  let w := run [CallGetDirectory None;
                CallInvokeFunction (M := SimpleTree.model) [1]%Z [];
                CallGetNodeByPath (inl "a/b"%string);
                ClientEmberTree (DRoot (Some [SimpleTree.node 1 None]))] in
  activeRequest w = Some second
  /\ ~ In second (pendingRequests w)
  /\ map snd (dispatched w) ++ pendingRequests w = enqueued w.
Proof.
  pose proof (C2_one_request_at_a_time_fifo
                [CallGetDirectory None;
                 CallInvokeFunction (M := SimpleTree.model) [1]%Z [];
                 CallGetNodeByPath (inl "a/b"%string);
                 ClientEmberTree (DRoot (Some [SimpleTree.node 1 None]))])
    as (_ & Hnot & Hfifo & _).
  split; [reflexivity|].
  split; [apply Hnot; reflexivity | exact Hfifo].
Defined.

(** ** A qualified node that arrives before its parent *)

(** C3.  When [handleQualifiedNode] is given a node whose path the lookup
    does not find, whose path has more than one component, and whose parent
    path (the path without its last component) is not found under the root
    either, it returns normally with no callbacks; the tree is the one it
    started with, no child is attached and nothing is emitted: the world
    differs from the one before by the two lookups in the trace. *)
Theorem C3_unknown_parent_dropped {M : TreeModel}
  (parent : Ref) (node : Element) (w : World) :
  tm_getElementByPath (root w) parent (path node) = None ->
  List.length (JsString.split "."%char (path node)) <> 1 ->
  tm_getElementByPath (root w) tm_root
    (JsString.join "." (removelast (JsString.split "."%char (path node))))
  = None ->
  fst (handleQualifiedNode parent node w) = []
  /\ root (snd (handleQualifiedNode parent node w)) = root w
  /\ emittedEvents (snd (handleQualifiedNode parent node w))
     = emittedEvents w
  /\ snd (handleQualifiedNode parent node w)
     = extend (root w)
         [EvTree (CallGetElementByPath parent (path node));
          EvTree (CallGetElementByPath tm_root
                    (JsString.join "."
                       (removelast (JsString.split "."%char (path node)))))]
         w.
Proof.
  intros Hpath Hlen Hparent.
  assert (E : handleQualifiedNode parent node w =
              ([], extend (root w)
                     [EvTree (CallGetElementByPath parent (path node));
                      EvTree (CallGetElementByPath tm_root
                                (JsString.join "."
                                   (removelast
                                      (JsString.split "."%char (path node)))))]
                     w)).
  { rewrite MergeFacts.handleQualifiedNode_eq. unfold resolveQualified.
    change (root (treeCall (CallGetElementByPath parent (path node)) w))
      with (root w).
    rewrite Hpath.
    apply Nat.eqb_neq in Hlen. rewrite Hlen.
    match goal with
    | |- context [tm_getElementByPath (root ?w1) tm_root ?p] =>
        change (root w1) with (root w)
    end.
    rewrite Hparent. f_equal.
    destruct w. unfold extend, treeCall, log. cbn.
    rewrite <- app_assoc. reflexivity. }
  rewrite E. cbn [fst snd]. repeat split.
  unfold emittedEvents, extend. cbn.
  rewrite flat_map_app. cbn. apply app_nil_r.
Qed.

(** C3 on an empty tree: the qualified parameter 3.4 is dropped. *)
Lemma C3_unknown_parent_dropped_witness :
  let node := SimpleTree.qparam "3.4" 4 9 in
  let w := init (M := SimpleTree.model) in
  SimpleTree.getElementByPath (root w) [] "3.4" = None
  /\ List.length (JsString.split "."%char "3.4") <> 1
  /\ SimpleTree.getElementByPath (root w) [] "3" = None
  /\ fst (handleQualifiedNode (M := SimpleTree.model) [] node w) = []
  /\ root (snd (handleQualifiedNode (M := SimpleTree.model) [] node w))
     = root w.
Proof.
  split; [reflexivity|].
  split; [cbn; lia|].
  split; [reflexivity|].
  destruct (C3_unknown_parent_dropped (M := SimpleTree.model) []
              (SimpleTree.qparam "3.4" 4 9) init)
    as (H1 & H2 & _); [reflexivity | cbn; lia | reflexivity |].
  split; [exact H1 | exact H2].
Defined.

(** ** Subscriptions *)

(** C4: the code at the failing input.  [unsubscribe] is [subscribe], for
    every tree model: both call [addCallback].  On a parameter that is not
    a stream, subscribing callback 5 and then unsubscribing it leaves the
    callback registered. *)
Theorem C4_unsubscribe_registers_again :
  (forall (M : TreeModel) (node : Ref) (cb : nat) (w : World),
      unsubscribe node cb w = subscribe node cb w)
  /\ (forall (M : TreeModel) (node : Ref) (cb : nat) (w : World),
         root (unsubscribe node cb w)
         = if instanceofParameter (tm_kind (root w) node)
              && tm_isStream (root w) node
           then root w
           else tm_addCallback (root w) node cb)
  /\ (let w0 := run (M := SimpleTree.model)
                  [ClientEmberTree (DRoot (Some [SimpleTree.param 1 7]))] in
      let w := unsubscribe (M := SimpleTree.model) [1]%Z 5
                 (subscribe (M := SimpleTree.model) [1]%Z 5 w0) in
      SimpleTree.callbacksOf (root w0) [1]%Z = []
      /\ In 5 (SimpleTree.callbacksOf (root w) [1]%Z)).
Proof.
  split; [reflexivity|]. split.
  - intros M node cb w. unfold unsubscribe.
    destruct (instanceofParameter _ && tm_isStream _ _); reflexivity.
  - vm_compute. split; [reflexivity | left; reflexivity].
Qed.

(** ** setValue on something that is not a parameter *)

(** C5.  In every world a DeviceTree can reach, [setValue] on a node that
    is neither a Parameter nor a QualifiedParameter rejects the promise it
    returns with an EmberAccessError, at once; nothing is pushed on the
    queue, no request is started and nothing is sent: the trace is the one
    before the call. *)
Theorem C5_setValue_rejects_non_parameter {M : TreeModel}
  (inputs : list Input) (node : Ref) (v : Z) :
  let w := run inputs in
  instanceofParameter (tm_kind (root w) node) = false ->
  instanceofQualifiedParameter (tm_kind (root w) node) = false ->
  outcome w (fst (setValue node v w)) = None
  /\ outcome (snd (setValue node v w)) (fst (setValue node v w))
     = Some (Rejected (EmberAccessError "not a property"))
  /\ pendingRequests (snd (setValue node v w)) = pendingRequests w
  /\ activeRequest (snd (setValue node v w)) = activeRequest w
  /\ enqueued (snd (setValue node v w)) = enqueued w
  /\ sent (snd (setValue node v w)) = sent w
  /\ trace (snd (setValue node v w)) = trace w.
Proof.
  intros w Hp Hq.
  pose proof (PromiseFacts.fresh_unsettled w (PromiseFacts.made_run inputs))
    as Hfresh.
  unfold setValue. cbn [newPromise].
  change (root (set_nextPromise (S (nextPromise w)) w)) with (root w).
  rewrite Hp, Hq. cbn [negb andb fst snd].
  split; [exact Hfresh|].
  split.
  { unfold reject. apply PromiseFacts.outcome_settle_fresh. exact Hfresh. }
  unfold reject, settle.
  change (outcome (set_nextPromise (S (nextPromise w)) w) (nextPromise w))
    with (outcome w (nextPromise w)).
  rewrite Hfresh. repeat split.
Qed.

(** C5 on a new DeviceTree: the root is not a parameter. *)
Lemma C5_setValue_rejects_non_parameter_witness :
  let w := run (M := SimpleTree.model) [] in
  instanceofParameter (SimpleTree.kindOf (root w) []) = false
  /\ instanceofQualifiedParameter (SimpleTree.kindOf (root w) []) = false
  /\ outcome (snd (setValue (M := SimpleTree.model) [] 3 w)) 0
     = Some (Rejected (EmberAccessError "not a property"))
  /\ sent (snd (setValue (M := SimpleTree.model) [] 3 w)) = sent w.
Proof.
  split; [reflexivity|]. split; [reflexivity|].
  destruct (C5_setValue_rejects_non_parameter (M := SimpleTree.model)
              [] [] 3%Z) as (_ & H2 & _ & _ & _ & H6 & _);
    [reflexivity | reflexivity |].
  split; [exact H2 | exact H6].
Defined.

(** ** Where the children of a fragment are looked up *)

Module ShapeFacts.
Import Ember Device.
Local Open Scope list_scope.
Local Open Scope nat_scope.

Section WithTreeModel.
Context {M : TreeModel}.

(** Lines 305-329 in terms of the calls made on the tree. *)
Lemma resolveQualified_eq (parent : Ref) (node : Element) (w : World) :
  resolveQualified parent node w =
    match tm_getElementByPath (root w) parent (path node) with
    | Some element =>
        (Some (element, snd (tm_update (root w) element node)),
         extend (fst (tm_update (root w) element node))
           [EvTree (CallGetElementByPath parent (path node));
            EvEmit (EmValueChange node);
            EvTree (CallUpdate element node)] w)
    | None =>
        if Nat.eqb (List.length (JsString.split "."%char (path node))) 1
        then
          (Some (snd (tm_addChild (root w) tm_root node), []),
           extend (fst (tm_addChild (root w) tm_root node))
             [EvTree (CallGetElementByPath parent (path node));
              EvTree (CallAddChild tm_root node)] w)
        else
          match tm_getElementByPath (root w) tm_root
                  (parentPath (path node)) with
          | Some p =>
              (Some (snd (tm_addChild (root w) p node), []),
               extend (fst (tm_addChild (root w) p node))
                 [EvTree (CallGetElementByPath parent (path node));
                  EvTree (CallGetElementByPath tm_root
                            (parentPath (path node)));
                  EvTree (CallAddChild p node)] w)
          | None =>
              (None,
               extend (root w)
                 [EvTree (CallGetElementByPath parent (path node));
                  EvTree (CallGetElementByPath tm_root
                            (parentPath (path node)))] w)
          end
    end.
Proof.
  unfold resolveQualified, parentPath. cbv zeta.
  change (root (treeCall (CallGetElementByPath parent (path node)) w))
    with (root w).
  destruct (tm_getElementByPath (root w) parent (path node)) as [element|].
  - change (root (emit (EmValueChange node)
                    (treeCall (CallGetElementByPath parent (path node)) w)))
      with (root w).
    destruct (tm_update (root w) element node) as [s cbs]. cbn [fst snd].
    f_equal. destruct w. unfold extend, treeCall, emit, log. cbn.
    rewrite <- !app_assoc. reflexivity.
  - destruct (Nat.eqb _ 1).
    + destruct (tm_addChild (root w) tm_root node) as [s n]. cbn [fst snd].
      f_equal. destruct w. unfold extend, treeCall, log. cbn.
      rewrite <- !app_assoc. reflexivity.
    + match goal with
      | |- context [tm_getElementByPath (root ?w1) tm_root ?p] =>
          change (root w1) with (root w)
      end.
      destruct (tm_getElementByPath (root w) tm_root _) as [p|].
      * destruct (tm_addChild (root w) p node) as [s n]. cbn [fst snd].
        f_equal. destruct w. unfold extend, treeCall, log. cbn.
        rewrite <- !app_assoc. reflexivity.
      * f_equal. destruct w. unfold extend, treeCall, log. cbn.
        rewrite <- !app_assoc. reflexivity.
Qed.

(** Lines 352-358 in terms of the calls made on the tree. *)
Lemma resolveNumbered_eq (parent : Ref) (node : Element) (w : World) :
  resolveNumbered parent node w =
    match tm_getElementByNumber (root w) parent (number node) with
    | Some n =>
        (n, snd (tm_update (root w) n node),
         extend (fst (tm_update (root w) n node))
           [EvTree (CallGetElementByNumber parent (number node));
            EvTree (CallUpdate n node)] w)
    | None =>
        (snd (tm_addChild (root w) parent node), [],
         extend (fst (tm_addChild (root w) parent node))
           [EvTree (CallGetElementByNumber parent (number node));
            EvTree (CallAddChild parent node)] w)
    end.
Proof.
  unfold resolveNumbered. cbv zeta.
  change (root (treeCall (CallGetElementByNumber parent (number node)) w))
    with (root w).
  destruct (tm_getElementByNumber (root w) parent (number node)) as [n|].
  - destruct (tm_update (root w) n node) as [s cbs]. cbn [fst snd].
    f_equal. destruct w. unfold extend, treeCall, log. cbn.
    rewrite <- !app_assoc. reflexivity.
  - destruct (tm_addChild (root w) parent node) as [s n]. cbn [fst snd].
    f_equal. destruct w. unfold extend, treeCall, log. cbn.
    rewrite <- !app_assoc. reflexivity.
Qed.

(** The loops of lines 286-293 and 333-340: one child after the other, in
    the world the child before left, collecting the callbacks in order. *)
Lemma handleChildren_fold (element : Ref) (cs : list Element) :
  forall cbs w,
    handleChildren element cs cbs w =
      fold_left
        (fun (acc : list nat * World) (c : Element) =>
           let r := if isQualified c
                    then handleQualifiedNode element c (snd acc)
                    else handleNode element c (snd acc) in
           (fst acc ++ fst r, snd r))
        cs (cbs, w).
Proof.
  induction cs as [|c cs IH]; intros cbs w; [reflexivity|].
  cbn [handleChildren fold_left fst snd].
  destruct (if isQualified c then handleQualifiedNode element c w
            else handleNode element c w) as [cbs' w2].
  cbn [fst snd]. apply IH.
Qed.

(** The loop of lines 362-364. *)
Lemma handleNodes_fold (n : Ref) (cs : list Element) :
  forall cbs w,
    handleNodes n cs cbs w =
      fold_left
        (fun (acc : list nat * World) (c : Element) =>
           (fst acc ++ fst (handleNode n c (snd acc)),
            snd (handleNode n c (snd acc))))
        cs (cbs, w).
Proof.
  induction cs as [|c cs IH]; intros cbs w; [reflexivity|].
  cbn [handleNodes fold_left fst snd].
  destruct (handleNode n c w) as [cbs' w2]. cbn [fst snd]. apply IH.
Qed.

End WithTreeModel.
End ShapeFacts.


(** C7, as amended.  The elements of a root fragment are handled against
    the root, a qualified one by its full path and the others by number.
    A qualified node is resolved by [getElementByPath] called with its full
    path on the element its enclosing node resolved to (the root for the
    elements of a fragment); the root is used only when that lookup finds
    nothing: a path of one component is attached to the root, for a longer
    one the parent path is looked up on the root and the node attached
    there, or dropped if the parent is unknown.  The children of a
    qualified node are then handled one after the other against the element
    it resolved to, a qualified child by its full path and the others by
    number.  A node handled by number is looked up by its number under the
    element its parent resolved to and attached or updated there; every
    child of it, qualified or not, is handled by number against the element
    it resolved to, and no lookup by path is made below it. *)
Theorem C7_children_lookup {M : TreeModel} :
  (forall (d : Decoded) (els : list Element) (c : Element) (w : World),
      decoded_elements d = Some els -> In c els ->
      exists s tr,
        handleRoot d w = extend s tr w /\
        In (EvTree (childLookup tm_root c)) tr)
  /\ (forall (parent : Ref) (node : Element) (w w1 : World)
             (element : Ref) (cbs : list nat) (cs : list Element)
             (c : Element),
         resolveQualified parent node w = (Some (element, cbs), w1) ->
         children node = Some cs -> In c cs ->
         exists s tr,
           snd (handleQualifiedNode parent node w) = extend s tr w /\
           In (EvTree (childLookup element c)) tr)
  /\ (forall (parent : Ref) (node : Element) (w w1 : World)
             (n : Ref) (cbs : list nat) (cs : list Element) (c : Element),
         resolveNumbered parent node w = (n, cbs, w1) ->
         children node = Some cs -> In c cs ->
         exists s tr,
           snd (handleNode parent node w) = extend s tr w /\
           In (EvTree (CallGetElementByNumber n (number c))) tr)
  /\ (forall (parent : Ref) (node : Element) (w : World),
         exists s tr,
           snd (handleNode parent node w) = extend s tr w /\
           existsb isPathLookup tr = false)
  /\ (forall (parent : Ref) (node : Element) (w : World),
         resolveQualified parent node w =
           match tm_getElementByPath (root w) parent (path node) with
           | Some element =>
               (Some (element, snd (tm_update (root w) element node)),
                extend (fst (tm_update (root w) element node))
                  [EvTree (CallGetElementByPath parent (path node));
                   EvEmit (EmValueChange node);
                   EvTree (CallUpdate element node)] w)
           | None =>
               if Nat.eqb
                    (List.length (JsString.split "."%char (path node))) 1
               then
                 (Some (snd (tm_addChild (root w) tm_root node), []),
                  extend (fst (tm_addChild (root w) tm_root node))
                    [EvTree (CallGetElementByPath parent (path node));
                     EvTree (CallAddChild tm_root node)] w)
               else
                 match tm_getElementByPath (root w) tm_root
                         (parentPath (path node)) with
                 | Some p =>
                     (Some (snd (tm_addChild (root w) p node), []),
                      extend (fst (tm_addChild (root w) p node))
                        [EvTree (CallGetElementByPath parent (path node));
                         EvTree (CallGetElementByPath tm_root
                                   (parentPath (path node)));
                         EvTree (CallAddChild p node)] w)
                 | None =>
                     (None,
                      extend (root w)
                        [EvTree (CallGetElementByPath parent (path node));
                         EvTree (CallGetElementByPath tm_root
                                   (parentPath (path node)))] w)
                 end
           end)
  /\ (forall (parent : Ref) (node : Element) (w : World),
         handleQualifiedNode parent node w =
           match resolveQualified parent node w with
           | (None, w1) => ([], w1)
           | (Some (element, cbs), w1) =>
               match children node with
               | None => (cbs, w1)
               | Some cs =>
                   fold_left
                     (fun (acc : list nat * World) (c : Element) =>
                        let r := if isQualified c
                                 then handleQualifiedNode element c (snd acc)
                                 else handleNode element c (snd acc) in
                        (fst acc ++ fst r, snd r))
                     cs (cbs, w1)
               end
           end)
  /\ (forall (parent : Ref) (node : Element) (w : World),
         resolveNumbered parent node w =
           match tm_getElementByNumber (root w) parent (number node) with
           | Some n =>
               (n, snd (tm_update (root w) n node),
                extend (fst (tm_update (root w) n node))
                  [EvTree (CallGetElementByNumber parent (number node));
                   EvTree (CallUpdate n node)] w)
           | None =>
               (snd (tm_addChild (root w) parent node), [],
                extend (fst (tm_addChild (root w) parent node))
                  [EvTree (CallGetElementByNumber parent (number node));
                   EvTree (CallAddChild parent node)] w)
           end)
  /\ (forall (parent : Ref) (node : Element) (w : World),
         handleNode parent node w =
           let '(n, cbs, w1) := resolveNumbered parent node w in
           match children node with
           | None => (cbs, emit (EmValueChange node) w1)
           | Some cs =>
               fold_left
                 (fun (acc : list nat * World) (c : Element) =>
                    (fst acc ++ fst (handleNode n c (snd acc)),
                     snd (handleNode n c (snd acc))))
                 cs (cbs, w1)
           end)
  /\ (forall (d : Decoded) (w : World),
         handleRoot d w =
           let updated := tm_updateRoot (root w) d in
           match decoded_elements d with
           | None => set_root (fst updated) w
           | Some els =>
               let merged :=
                 fold_left
                   (fun (acc : list nat * World) (c : Element) =>
                      let r := if isQualified c
                               then handleQualifiedNode tm_root c (snd acc)
                               else handleNode tm_root c (snd acc) in
                      (fst acc ++ fst r, snd r))
                   els (snd updated, set_root (fst updated) w) in
               fold_left (fun w cb => log (EvFire cb) w)
                 (fst merged) (snd merged)
           end).
Proof.
  split; [|split; [|split; [|split; [|split; [|split; [|split; [|split]]]]]]].
  - intros d els c w Hels Hin. unfold handleRoot.
    destruct (tm_updateRoot (root w) d) as [s0 cbs0]. rewrite Hels.
    pose proof (MergeFacts.handleChildren_lookup tm_root els c Hin cbs0
                  (set_root s0 w)) as H.
    destruct (handleChildren tm_root els cbs0 (set_root s0 w)) as [cbs1 w1].
    cbn [snd] in H.
    eapply MergeFacts.added_later; [apply MergeFacts.mergesWith_set_root|].
    eapply MergeFacts.added_earlier;
      [exact H | apply MergeFacts.fireCallbacks_merges].
  - intros parent node w w1 element cbs cs c Hres Hcs Hin.
    rewrite MergeFacts.handleQualifiedNode_eq, Hres, Hcs.
    pose proof (MergeFacts.resolveQualified_merges parent node w) as Hm.
    rewrite Hres in Hm. cbn [snd] in Hm.
    eapply MergeFacts.added_later; [exact Hm|].
    apply MergeFacts.handleChildren_lookup. exact Hin.
  - intros parent node w w1 n cbs cs c Hres Hcs Hin.
    rewrite MergeFacts.handleNode_eq, Hres, Hcs.
    pose proof (MergeFacts.resolveNumbered_merges parent node w) as Hm.
    rewrite Hres in Hm. cbn [snd] in Hm.
    eapply MergeFacts.added_later;
      [apply MergeFacts.number_merges; exact Hm|].
    apply MergeFacts.handleNodes_lookup. exact Hin.
  - intros parent node w.
    destruct (MergeFacts.handleNode_byNumber node parent w)
      as (s & tr & E & Htr).
    exists s, tr. split; [exact E|].
    destruct (existsb isPathLookup tr) eqn:Hex; [|reflexivity].
    apply existsb_exists in Hex. destruct Hex as (e & He & Hp).
    rewrite forallb_forall in Htr. specialize (Htr e He).
    unfold numberEvent in Htr. rewrite Hp in Htr.
    rewrite andb_false_r in Htr. discriminate.
  - apply ShapeFacts.resolveQualified_eq.
  - intros parent node w. rewrite MergeFacts.handleQualifiedNode_eq.
    destruct (resolveQualified parent node w) as [[[element cbs]|] w1];
      [|reflexivity].
    destruct (children node) as [cs|]; [|reflexivity].
    apply ShapeFacts.handleChildren_fold.
  - apply ShapeFacts.resolveNumbered_eq.
  - intros parent node w. rewrite MergeFacts.handleNode_eq.
    destruct (resolveNumbered parent node w) as [[n cbs] w1].
    destruct (children node) as [cs|]; [|reflexivity].
    apply ShapeFacts.handleNodes_fold.
  - intros d w. unfold handleRoot. cbv zeta.
    destruct (tm_updateRoot (root w) d) as [s0 cbs0]. cbn [fst snd].
    destruct (decoded_elements d) as [els|]; [|reflexivity].
    rewrite ShapeFacts.handleChildren_fold.
    destruct (fold_left _ els (cbs0, set_root s0 w)) as [cbs1 w1].
    reflexivity.
Qed.

(** C7 on a tree with the node 1: the children of the qualified node 1 are
    looked up under the element [1] that it resolved to. *)
Lemma C7_children_lookup_witness :
  let w := run (M := SimpleTree.model)
             [ClientEmberTree (DRoot (Some [SimpleTree.node 1 None]))] in
  let child := SimpleTree.qparam "1.2" 2 9 in
  let node := SimpleTree.qnode "1" 1 (Some [child]) in
  let plain := SimpleTree.node 5 (Some [child]) in
  fst (resolveQualified (M := SimpleTree.model) [] node w) = Some ([1]%Z, [])
  /\ fst (resolveNumbered (M := SimpleTree.model) [] plain w) = ([5]%Z, [])
  /\ children node = Some [child]
  /\ In child [child]
  /\ (exists s tr,
         handleRoot (M := SimpleTree.model) (DRoot (Some [node])) w
         = extend s tr w /\
         In (EvTree (CallGetElementByPath (M := SimpleTree.model) [] "1")) tr)
  /\ (exists s tr,
         snd (handleQualifiedNode (M := SimpleTree.model) [] node w)
         = extend s tr w /\
         In (EvTree
               (CallGetElementByPath (M := SimpleTree.model) [1]%Z "1.2"))
            tr)
  /\ (exists s tr,
         snd (handleNode (M := SimpleTree.model) [] plain w)
         = extend s tr w /\
         In (EvTree (CallGetElementByNumber (M := SimpleTree.model) [5]%Z 2))
            tr).
Proof.
  split; [reflexivity|]. split; [reflexivity|]. split; [reflexivity|].
  split; [left; reflexivity|].
  destruct (C7_children_lookup (M := SimpleTree.model)) as (HA & HB & HC & _).
  split; [|split].
  - apply (HA (DRoot (Some [SimpleTree.qnode "1" 1
                              (Some [SimpleTree.qparam "1.2" 2 9])]))
              [SimpleTree.qnode "1" 1 (Some [SimpleTree.qparam "1.2" 2 9])]
              (SimpleTree.qnode "1" 1 (Some [SimpleTree.qparam "1.2" 2 9])));
      [reflexivity | left; reflexivity].
  - eapply (HB [] (SimpleTree.qnode "1" 1
                     (Some [SimpleTree.qparam "1.2" 2 9]))
              _ _ [1]%Z [] _ (SimpleTree.qparam "1.2" 2 9)).
    + vm_compute. reflexivity.
    + reflexivity.
    + left; reflexivity.
  - eapply (HC [] (SimpleTree.node 5 (Some [SimpleTree.qparam "1.2" 2 9]))
              _ _ [5]%Z [] _ (SimpleTree.qparam "1.2" 2 9)).
    + vm_compute. reflexivity.
    + reflexivity.
    + left; reflexivity.
Defined.

(** C7, as stated, fails twice.  The tree holds the parameter 1.2 with
    value 7.  (a) A fragment brings the plain node 5 with the qualified
    child 1.2: the child is looked up by its number under node 5, no lookup
    by path is made and the parameter 1.2 of the tree keeps its value.
    (b) A fragment brings the qualified node 1 with the qualified child
    1.2: the child is looked up by path under the element [1], not under
    the root. *)
Lemma C7_qualified_child_not_looked_up_under_root :
  let w0 := run (M := SimpleTree.model)
              [ClientEmberTree
                 (DRoot (Some [SimpleTree.node 1
                                 (Some [SimpleTree.param 2 7])]))] in
  let child := SimpleTree.qparam "1.2" 2 9 in
  let wa := handleRoot (DRoot (Some [SimpleTree.node 5 (Some [child])])) w0 in
  let wb := handleRoot (DRoot (Some [SimpleTree.qnode "1" 1 (Some [child])]))
              w0 in
  isQualified child = true
  /\ SimpleTree.getElementByPath (root w0) [] "1.2" = Some [1; 2]%Z
  /\ existsb isPathLookup (trace wa) = false
  /\ In (CallGetElementByNumber (M := SimpleTree.model) [5]%Z 2)
        (treeCalls wa)
  /\ option_map value (SimpleTree.locate [1; 2]%Z (root wa)) = Some (Some 7%Z)
  /\ filter isPathLookup (trace wb)
     = [EvTree (CallGetElementByPath (M := SimpleTree.model) [] "1");
        EvTree (CallGetElementByPath (M := SimpleTree.model) [1]%Z "1.2")]
  /\ ~ In (CallGetElementByPath (M := SimpleTree.model) [] "1.2")
          (treeCalls wb).
Proof.
  vm_compute.
  repeat (split; [first [reflexivity | now (right; left) | tauto]|]).
  intros H.
  repeat (destruct H as [H|H]; [discriminate H|]). exact H.
Qed.

(** ** Answers that say nothing *)

(** C8, as amended.  A delivery without a node is ignored by the handler
    of [getDirectory], with or without an error; so is a fragment without
    a list of elements, and so is any fragment while the requested path is
    not known (a request on the root while the root has no elements): the
    world stays as it is, so the promise, the request in service and the
    timer do.  A fragment whose list of elements is empty is a complete
    answer whenever the requested path is known: the timer is cleared, the
    request finished and the promise resolved with the fragment. *)
Theorem C8_answers_without_content {M : TreeModel} :
  (forall (p : nat) (q : Ref) (error : option Err) (w : World),
      getDirectoryCallback p q error None w = w)
  /\ (forall (p : nat) (q : Ref) (d : Decoded) (w : World),
         decoded_elements d = None ->
         getDirectoryCallback p q None (Some d) w = w)
  /\ (forall (p : nat) (q : Ref) (d : Decoded) (w : World),
         requestedPathOf q w = None ->
         getDirectoryCallback p q None (Some d) w = w)
  /\ (forall (p : nat) (q : Ref) (w : World) (P : string),
         requestedPathOf q w = Some P ->
         getDirectoryCallback p q None (Some (DRoot (Some []))) w
         = resolve p (VDecoded (DRoot (Some [])))
             (finishRequest (clearTimeout w))).
Proof.
  split; [reflexivity|]. split; [|split].
  - intros p q d w Hd. rewrite getDirectoryCallback_answer.
    unfold elementPaths. rewrite Hd. cbn.
    destruct (requestedPathOf q w); reflexivity.
  - intros p q d w HP. rewrite getDirectoryCallback_answer, HP. reflexivity.
  - intros p q w P HP. rewrite getDirectoryCallback_answer, HP. reflexivity.
Qed.

(** C8 on a request for the directory of node 1, and on a request for
    the directory of the root of an empty tree. *)
Lemma C8_answers_without_content_witness :
  let w := run [CallGetDirectory (M := SimpleTree.model) (Some [1]%Z)] in
  let w' := run [CallGetDirectory (M := SimpleTree.model) None] in
  decoded_elements (DRoot None) = None
  /\ requestedPathOf (M := SimpleTree.model) [1]%Z w = Some "1"%string
  /\ requestedPathOf (M := SimpleTree.model) [] w' = None
  /\ getDirectoryCallback (M := SimpleTree.model) 0 [1]%Z None
       (Some (DRoot None)) w = w
  /\ getDirectoryCallback (M := SimpleTree.model) 0 [] None
       (Some (DRoot (Some []))) w' = w'
  /\ getDirectoryCallback (M := SimpleTree.model) 0 [1]%Z None
       (Some (DRoot (Some []))) w
     = resolve 0 (VDecoded (DRoot (Some [])))
         (finishRequest (clearTimeout w)).
Proof.
  split; [reflexivity|]. split; [reflexivity|]. split; [reflexivity|].
  destruct (C8_answers_without_content (M := SimpleTree.model))
    as (_ & H2 & H3 & H4).
  split; [|split].
  - apply H2. reflexivity.
  - apply H3. reflexivity.
  - apply (H4 0 [1]%Z _ "1"%string). reflexivity.
Defined.

(** C8, as stated, fails: a fragment with an empty list of elements
    resolves the promise, ends the request in service and clears its
    timer. *)
Lemma C8_empty_list_completes :
  let w0 := run [CallGetDirectory (M := SimpleTree.model) (Some [1]%Z)] in
  let w := step w0 (ClientEmberTree (DRoot (Some []))) in
  outcome w0 0 = None
  /\ activeRequest w0
     = Some (MkRequest (WGetDirectory (M := SimpleTree.model) [1]%Z) 0)
  /\ timeout w0 = Some 0
  /\ outcome w 0 = Some (Resolved (VDecoded (DRoot (Some []))))
  /\ activeRequest w = None
  /\ timeout w = None
  /\ cleared w = [0].
Proof. vm_compute. repeat split. Qed.

(** ** The timer of a request *)

Lemma clearTimeout_twice {M : TreeModel} (w : World) :
  clearTimeout (clearTimeout w) = clearTimeout w.
Proof.
  unfold clearTimeout at 1.
  replace (timeout (clearTimeout w)) with (@None nat); [reflexivity|].
  unfold clearTimeout. destruct (timeout w) eqn:E; [reflexivity|].
  symmetry. exact E.
Qed.

Lemma inService_holds {M : TreeModel} (w : World) (id : nat) :
  Stable (pipeline w) -> holds (timeout w) id = inService w id.
Proof.
  intros [R S]. unfold inService. destruct (activeRequest w) as [a|] eqn:Ha.
  - destruct S as (h & Ht & _); [cbn; rewrite Ha; discriminate|].
    destruct (rx_handle _ R h Ht) as [Hid _]. cbn in Ht, Hid.
    rewrite Ht, Hid. cbn [holds].
    destruct (Nat.eqb_spec h id) as [->|Hne].
    + symmetry. apply Nat.eqb_refl.
    + symmetry. apply Nat.eqb_neq. congruence.
  - pose proof (PipelineFacts.idle_no_handle _ R Ha) as Hn. cbn in Hn.
    rewrite Hn. reflexivity.
Qed.

(** C9.  In every world a DeviceTree can reach and for every id: the
    runtime was asked to clear the timer of request [id] exactly once if
    the request was dispatched and is no longer in service, and not at all
    otherwise; the timer fired at most once, and if it fired the request
    is no longer in service; while the request is in service its timer is
    armed and is the one in the field [timeout]; with no request in
    service the field is null and no timer is armed.  A second
    [clearTimeout] changes nothing, so a handler that calls [clearTimeout]
    and then [finishRequest] clears what [finishRequest] alone clears. *)
Theorem C9_timer_cleared_exactly_once {M : TreeModel}
  (inputs : list Input) (id : nat) :
  let w := run inputs in
  count_occ Nat.eq_dec (cleared w) id
  = (if (id <? requestID w) && negb (inService w id) then 1 else 0)
  /\ count_occ Nat.eq_dec (fired w) id <= 1
  /\ (In id (fired w) -> id < requestID w /\ inService w id = false)
  /\ (inService w id = true -> timeout w = Some id /\ timers w = [id])
  /\ (activeRequest w = None -> timeout w = None /\ timers w = [])
  /\ (forall w0 : World,
         clearTimeout (clearTimeout w0) = clearTimeout w0
         /\ cleared (finishRequest (clearTimeout w0))
            = cleared (finishRequest w0)).
Proof.
  intros w. pose proof (DeviceFacts.stable_run inputs) as St. fold w in St.
  pose proof (inService_holds w id St) as Hh.
  destruct St as [R S].
  assert (Hserv : inService w id = true ->
                  timeout w = Some id /\ timers w = [id]).
  { intros Hs. unfold inService in Hs.
    destruct (activeRequest w) as [a|] eqn:Ha; [|discriminate].
    destruct S as (h & Ht & Hts); [cbn; rewrite Ha; discriminate|].
    destruct (rx_handle _ R h Ht) as [Hid _]. cbn in Ht, Hts, Hid.
    apply Nat.eqb_eq in Hs. assert (h = id) by lia. subst h. tauto. }
  split.
  { rewrite <- Hh. exact (rx_cleared _ R id). }
  split.
  { apply NoDup_count_occ. exact (rx_fired_nodup _ R). }
  split.
  { intros Hin. destruct (rx_fired_old _ R id Hin) as [Hlt Hnot].
    split; [exact Hlt|].
    destruct (inService w id) eqn:Hs; [|reflexivity].
    destruct (Hserv eq_refl) as [_ Hts]. exfalso. apply Hnot.
    cbn. rewrite Hts. left; reflexivity. }
  split; [exact Hserv|].
  split.
  { intros Ha. pose proof (PipelineFacts.idle_no_handle _ R Ha) as Hn.
    split; [exact Hn | exact (PipelineFacts.idle_no_timer _ R Hn)]. }
  intros w0. split; [apply clearTimeout_twice|].
  pose proof (DeviceFacts.pipeline_finishRequest (clearTimeout w0)) as E1.
  pose proof (DeviceFacts.pipeline_finishRequest w0) as E2.
  rewrite DeviceFacts.pipeline_clearTimeout,
    DeviceFacts.pipeFinish_after_clear, <- E2 in E1.
  exact (f_equal q_cleared E1).
Qed.

(** Two runs for C9: request 0 ends by an answer, request 1 by its timer;
    each timer is cleared once. *)
Lemma C9_timer_cleared_exactly_once_witness :
  let inputs :=
    [CallGetDirectory None;
     CallInvokeFunction (M := SimpleTree.model) [1]%Z [];
     ClientEmberTree (DRoot (Some [SimpleTree.node 1 None]));
     TimerFires 1;
     CallGetDirectory (M := SimpleTree.model) (Some [1]%Z)] in
  let w := run inputs in
  In 1 (fired w)
  /\ inService w 2 = true
  /\ activeRequest (run (M := SimpleTree.model) []) = None
  /\ count_occ Nat.eq_dec (cleared w) 0 = 1
  /\ count_occ Nat.eq_dec (cleared w) 1 = 1
  /\ count_occ Nat.eq_dec (cleared w) 2 = 0
  /\ inService w 1 = false
  /\ timers w = [2]
  /\ timers (run (M := SimpleTree.model) []) = [].
Proof.
  pose (inputs :=
          [CallGetDirectory None;
           CallInvokeFunction (M := SimpleTree.model) [1]%Z [];
           ClientEmberTree (DRoot (Some [SimpleTree.node 1 None]));
           TimerFires 1;
           CallGetDirectory (M := SimpleTree.model) (Some [1]%Z)]).
  destruct (C9_timer_cleared_exactly_once inputs 0) as (H0 & _).
  destruct (C9_timer_cleared_exactly_once inputs 1) as (H1 & _ & Hf & _).
  destruct (C9_timer_cleared_exactly_once inputs 2) as (H2 & _ & _ & Hs & _).
  destruct (C9_timer_cleared_exactly_once (M := SimpleTree.model) [] 0)
    as (_ & _ & _ & _ & Hidle & _).
  assert (Hin : In 1 (fired (run inputs))) by (vm_compute; left; reflexivity).
  assert (Hs2 : inService (run inputs) 2 = true) by reflexivity.
  split; [exact Hin|]. split; [exact Hs2|]. split; [reflexivity|].
  split; [exact H0|]. split; [exact H1|]. split; [exact H2|].
  split; [exact (proj2 (Hf Hin))|].
  split; [exact (proj2 (Hs Hs2)) | exact (proj2 (Hidle eq_refl))].
Defined.

(** ** expand *)

Module ExpandFacts.
Import Expand.

Lemma expandNode_eq (node : XNode) :
  expandNode node =
    if x_isParameter node
    then (x_getDirectory node, [XGetDirectory (x_id node)])
    else
      match x_getDirectory node with
      | Rejects e => (Rejects e, [XGetDirectory (x_id node)])
      | Resolves res =>
          match res, x_children node with
          | Some _, Some cs =>
              walkChildren cs (Resolves None) [XGetDirectory (x_id node)]
          | _, _ => (Resolves None, [XGetDirectory (x_id node)])
          end
      end.
Proof.
  destruct node as [id isp gd [cs|]]; cbn [expandNode x_isParameter
    x_getDirectory x_children x_id]; destruct isp; try reflexivity;
    destruct gd as [[res|]|e]; reflexivity.
Qed.

(** The chain never rejects, and its run is the runs of the children it
    expands, one after the other. *)
Lemma walkChildren_run (cs : list XNode) :
  forall v evs,
    (exists v', fst (walkChildren cs (Resolves v) evs) = Resolves v')
    /\ snd (walkChildren cs (Resolves v) evs)
       = evs ++ flat_map childRun
                  (filter (fun c => negb (x_isParameter c)) cs).
Proof.
  induction cs as [|c cs IH]; intros v evs; cbn [walkChildren filter].
  - split; [exists v; reflexivity | cbn; symmetry; apply app_nil_r].
  - destruct (x_isParameter c) eqn:Hp; cbn [negb]; [apply IH|].
    cbn [flat_map]. unfold childRun at 1.
    destruct (expandNode c) as [[v'|e'] l]; cbn [fst snd].
    + destruct (IH v' (evs ++ l)) as [Hv Hl]. split; [exact Hv|].
      rewrite Hl, app_nil_r, <- !app_assoc. reflexivity.
    + destruct (IH None (evs ++ l ++ [XSetError (x_id c) e'])) as [Hv Hl].
      split; [exact Hv|]. rewrite Hl, <- !app_assoc. reflexivity.
Qed.

Lemma expandNode_starts (node : XNode) :
  exists l, snd (expandNode node) = XGetDirectory (x_id node) :: l.
Proof.
  rewrite expandNode_eq. destruct (x_isParameter node); [eexists; reflexivity|].
  destruct (x_getDirectory node) as [[res|]|e]; try (eexists; reflexivity).
  destruct (x_children node) as [cs|]; [|eexists; reflexivity].
  rewrite (proj2 (walkChildren_run cs None _)). eexists; reflexivity.
Qed.

End ExpandFacts.

(** C6.  The promise of [expand(node)] rejects with [e] exactly when
    [getDirectory(node)] rejects with [e].  When the node is not a
    parameter, [getDirectory(node)] resolves with a result and the node has
    children, the promise resolves; the run is the directory request on the
    node followed, child after child in the order of the children and
    skipping parameters, by the whole run of [expand] on the child and, if
    that rejected with [e], by the assignment of [e] to the error field of
    the child.  So every child that is not a parameter gets its directory
    request, whatever happened to its siblings, and a failure is kept on
    the child that failed. *)
Theorem C6_expand_keeps_going (node : Expand.XNode) :
  (forall e, fst (Expand.expandNode node) = Expand.Rejects e <->
             Expand.x_getDirectory node = Expand.Rejects e)
  /\ (Expand.x_isParameter node = false ->
      forall res cs,
        Expand.x_getDirectory node = Expand.Resolves (Some res) ->
        Expand.x_children node = Some cs ->
        (exists v, fst (Expand.expandNode node) = Expand.Resolves v)
        /\ snd (Expand.expandNode node)
           = Expand.XGetDirectory (Expand.x_id node)
               :: flat_map Expand.childRun
                    (filter (fun c => negb (Expand.x_isParameter c)) cs)
        /\ (forall c, In c cs -> Expand.x_isParameter c = false ->
                      In (Expand.XGetDirectory (Expand.x_id c))
                         (snd (Expand.expandNode node))
                      /\ (forall e,
                             fst (Expand.expandNode c) = Expand.Rejects e ->
                             In (Expand.XSetError (Expand.x_id c) e)
                                (snd (Expand.expandNode node))))).
Proof.
  split.
  - intros e. rewrite ExpandFacts.expandNode_eq.
    destruct (Expand.x_isParameter node); [reflexivity|].
    destruct (Expand.x_getDirectory node) as [[res|]|e0]; cbn [fst];
      try (split; intros H; [discriminate H | discriminate H]);
      try reflexivity.
    destruct (Expand.x_children node) as [cs|]; cbn [fst];
      try (split; intros H; [discriminate H | discriminate H]).
    destruct (proj1 (ExpandFacts.walkChildren_run cs None
                       [Expand.XGetDirectory (Expand.x_id node)])) as [v Hv].
    rewrite Hv. split; intros H; discriminate H.
  - intros Hp res cs Hgd Hcs.
    rewrite ExpandFacts.expandNode_eq, Hp, Hgd, Hcs.
    destruct (ExpandFacts.walkChildren_run cs None
                [Expand.XGetDirectory (Expand.x_id node)]) as [Hv Hl].
    split; [exact Hv|]. split; [exact Hl|].
    intros c Hin Hc. rewrite Hl.
    assert (Hrun : forall ev, In ev (Expand.childRun c) ->
                     In ev ([Expand.XGetDirectory (Expand.x_id node)]
                            ++ flat_map Expand.childRun
                                 (filter (fun c => negb (Expand.x_isParameter c))
                                    cs))).
    { intros ev Hev. apply in_or_app. right. apply in_flat_map.
      exists c. split; [|exact Hev]. apply filter_In. rewrite Hc.
      split; [exact Hin | reflexivity]. }
    split.
    + apply Hrun. unfold Expand.childRun. apply in_or_app. left.
      destruct (ExpandFacts.expandNode_starts c) as [l ->]. left; reflexivity.
    + intros e He. apply Hrun. unfold Expand.childRun. apply in_or_app. right.
      rewrite He. left; reflexivity.
Qed.

(** C6 on a node with three children: a parameter, a node whose directory
    request times out and a node that answers. *)
Lemma C6_expand_keeps_going_witness :
  let answer := Expand.Resolves (Some (DRoot (Some []))) in
  let late := Expand.MkXNode 2 false
                (Expand.Rejects (EmberTimeoutError 1)) None in
  let fine := Expand.MkXNode 3 false answer None in
  let top := Expand.MkXNode 0 false answer
               (Some [Expand.MkXNode 1 true answer None; late; fine]) in
  Expand.x_isParameter top = false
  /\ fst (Expand.expandNode late) = Expand.Rejects (EmberTimeoutError 1)
  /\ (exists v, fst (Expand.expandNode top) = Expand.Resolves v)
  /\ snd (Expand.expandNode top)
     = [Expand.XGetDirectory 0; Expand.XGetDirectory 2;
        Expand.XSetError 2 (EmberTimeoutError 1); Expand.XGetDirectory 3]
  /\ In (Expand.XGetDirectory 3) (snd (Expand.expandNode top))
  /\ In (Expand.XSetError 2 (EmberTimeoutError 1))
        (snd (Expand.expandNode top)).
Proof.
  pose (answer := Expand.Resolves (Some (DRoot (Some [])))).
  pose (late := Expand.MkXNode 2 false
                  (Expand.Rejects (EmberTimeoutError 1)) None).
  pose (fine := Expand.MkXNode 3 false answer None).
  pose (top := Expand.MkXNode 0 false answer
                 (Some [Expand.MkXNode 1 true answer None; late; fine])).
  destruct (C6_expand_keeps_going top) as (_ & H).
  destruct (H eq_refl (DRoot (Some []))
              [Expand.MkXNode 1 true answer None; late; fine]
              eq_refl eq_refl) as (Hv & Hl & Hc).
  split; [reflexivity|]. split; [reflexivity|].
  split; [exact Hv|]. split; [exact Hl|].
  split.
  - apply (Hc fine); [right; right; left; reflexivity | reflexivity].
  - apply (Hc late); [right; left; reflexivity | reflexivity | reflexivity].
Defined.

(** * More on the code *)

(** ** Splitting and joining paths *)

Module SplitFacts.
Import JsString.

Lemma split_nonempty (c : ascii) (s : string) : split c s <> [].
Proof.
  destruct s as [|a r]; cbn [split]; [discriminate|].
  destruct (Ascii.eqb a c); [discriminate|].
  destruct (split c r); discriminate.
Qed.

Lemma split_lacks (c : ascii) (s : string) :
  lacks c s = true -> split c s = [s].
Proof.
  induction s as [|a r IH]; cbn [lacks split]; [reflexivity|].
  intros H. apply andb_true_iff in H. destruct H as [Ha Hr].
  apply negb_true_iff in Ha. rewrite Ha, (IH Hr). reflexivity.
Qed.

Lemma split_app_separator (c : ascii) (a b : string) :
  split c (a ++ String c b) = split c a ++ split c b.
Proof.
  induction a as [|x a IH].
  - cbn. rewrite Ascii.eqb_refl. reflexivity.
  - change (String x a ++ String c b)%string
      with (String x (a ++ String c b)%string).
    cbn [split]. rewrite IH.
    destruct (Ascii.eqb x c); [reflexivity|].
    pose proof (split_nonempty c a) as Hne.
    destruct (split c a) as [|h t]; [contradiction | reflexivity].
Qed.

Lemma split_pieces (c : ascii) (s : string) :
  Forall (fun piece => lacks c piece = true) (split c s).
Proof.
  induction s as [|a r IH]; cbn [split].
  - repeat constructor.
  - destruct (Ascii.eqb a c) eqn:Ha; [constructor; [reflexivity | exact IH]|].
    destruct (split c r) as [|h t]; [repeat constructor; cbn; now rewrite Ha|].
    inversion IH as [|? ? Hh Ht]; subst.
    constructor; [cbn; rewrite Ha, Hh; reflexivity | exact Ht].
Qed.

Lemma join_split (c : ascii) (s : string) :
  join (String c EmptyString) (split c s) = s.
Proof.
  induction s as [|a r IH]; [reflexivity|].
  cbn [split]. destruct (Ascii.eqb a c) eqn:Ha.
  - apply Ascii.eqb_eq in Ha. subst a.
    pose proof (split_nonempty c r) as Hne. cbn [join].
    destruct (split c r) as [|h t]; [contradiction|].
    cbn. f_equal. exact IH.
  - destruct (split c r) as [|h t] eqn:E;
      [exfalso; exact (split_nonempty c r E)|].
    cbn [join] in *. destruct t as [|h' t']; cbn; f_equal; exact IH.
Qed.

Lemma append_assoc (a b c : string) :
  ((a ++ b) ++ c = a ++ b ++ c)%string.
Proof. induction a as [|x a IH]; cbn; [reflexivity | now rewrite IH]. Qed.

Lemma join_last (sep : string) (l : list string) (x : string) :
  l <> [] -> join sep (l ++ [x]) = (join sep l ++ sep ++ x)%string.
Proof.
  induction l as [|a l IH]; intros Hne; [contradiction|].
  destruct l as [|b l]; [reflexivity|].
  change ((a :: b :: l) ++ [x]) with (a :: (b :: l) ++ [x]).
  change (join sep (a :: (b :: l) ++ [x]))
    with (a ++ sep ++ join sep ((b :: l) ++ [x]))%string.
  rewrite IH by discriminate.
  change (join sep (a :: b :: l)) with (a ++ sep ++ join sep (b :: l))%string.
  rewrite !append_assoc. reflexivity.
Qed.

Lemma split_single (c : ascii) (s : string) :
  List.length (split c s) = 1 <-> lacks c s = true.
Proof.
  split.
  - intros Hlen. pose proof (join_split c s) as Hj.
    pose proof (split_pieces c s) as Hp.
    destruct (split c s) as [|h [|h' t]]; try discriminate.
    cbn in Hj. subst h. now inversion Hp.
  - intros Hl. rewrite (split_lacks c s Hl). reflexivity.
Qed.

Lemma length_append (a b : string) :
  String.length (a ++ b) = String.length a + String.length b.
Proof. induction a as [|x a IH]; cbn; [reflexivity | now rewrite IH]. Qed.

End SplitFacts.

(** The parent path that [handleQualifiedNode] computes and the parent
    that [isDirectSubPathOf] accepts are the same path. *)
Lemma isDirectSubPathOf_parentPath (p P : string) :
  isDirectSubPathOf p P = true <->
  List.length (JsString.split "."%char p) <> 1 /\ P = parentPath p.
Proof.
  rewrite isDirectSubPathOf_spec. unfold parentPath. split.
  - intros (seg & Hl & ->).
    change (P ++ "." ++ seg)%string with (P ++ String "."%char seg)%string.
    rewrite SplitFacts.split_app_separator, (SplitFacts.split_lacks _ _ Hl).
    rewrite length_app, removelast_last, SplitFacts.join_split.
    split; [|reflexivity].
    pose proof (SplitFacts.split_nonempty "."%char P) as Hne.
    destruct (JsString.split "."%char P); [contradiction | cbn; lia].
  - intros [Hlen ->].
    pose proof (SplitFacts.join_split "."%char p) as Hj.
    pose proof (SplitFacts.split_pieces "."%char p) as Hp.
    destruct (exists_last (SplitFacts.split_nonempty "."%char p))
      as (l & x & E).
    rewrite E in *. rewrite removelast_last.
    assert (Hne : l <> []).
    { intros ->. apply Hlen. reflexivity. }
    rewrite (SplitFacts.join_last _ _ _ Hne) in Hj.
    exists x. split; [|symmetry; exact Hj].
    apply Forall_app in Hp. destruct Hp as [_ Hx]. now inversion Hx.
Qed.

(** X1.  For every path [p]: a path [P] passes
    [isDirectSubPathOf(p, P)] exactly when [p] has more than one component
    and [P] is the path [handleQualifiedNode] looks up for the parent of
    [p], that is [p] split at the dots, without its last component, joined
    again.  A path of one component is a direct sub-path of nothing. *)
Theorem X1_parent_path_agrees (p : string) :
  (forall P, isDirectSubPathOf p P = true <->
             List.length (JsString.split "."%char p) <> 1
             /\ P = parentPath p)
  /\ (List.length (JsString.split "."%char p) = 1 ->
      forall P, isDirectSubPathOf p P = false)
  /\ (List.length (JsString.split "."%char p) <> 1 ->
      isDirectSubPathOf p (parentPath p) = true
      /\ String.length (parentPath p) < String.length p).
Proof.
  split; [intros P; apply isDirectSubPathOf_parentPath|]. split.
  - intros Hlen P. destruct (isDirectSubPathOf p P) eqn:E; [|reflexivity].
    apply isDirectSubPathOf_parentPath in E. tauto.
  - intros Hlen.
    assert (H : isDirectSubPathOf p (parentPath p) = true)
      by (apply isDirectSubPathOf_parentPath; tauto).
    split; [exact H|].
    apply isDirectSubPathOf_spec in H. destruct H as (seg & _ & E).
    rewrite E at 2. rewrite !SplitFacts.length_append. cbn. lia.
Qed.

(** X1 on the paths 7 and 1.2.3. *)
Lemma X1_parent_path_agrees_witness :
  List.length (JsString.split "."%char "7") = 1
  /\ List.length (JsString.split "."%char "1.2.3") <> 1
  /\ isDirectSubPathOf "7" "" = false
  /\ parentPath "1.2.3" = "1.2"%string
  /\ isDirectSubPathOf "1.2.3" (parentPath "1.2.3") = true.
Proof.
  destruct (X1_parent_path_agrees "7") as (_ & H1 & _).
  destruct (X1_parent_path_agrees "1.2.3") as (_ & _ & H2).
  split; [reflexivity|]. split; [cbn; lia|].
  split; [apply H1; reflexivity|]. split; [reflexivity|].
  apply H2. cbn. lia.
Defined.

Lemma subPath_longer (p P : string) :
  isDirectSubPathOf p P = true -> String.length P < String.length p.
Proof.
  intros H. apply isDirectSubPathOf_spec in H. destruct H as (seg & _ & ->).
  rewrite !SplitFacts.length_append. cbn. lia.
Qed.

(** X2.  [isDirectSubPathOf] accepts no path as a child of itself, never
    holds in both directions, and never accepts a grandchild: if [a] is a
    direct sub-path of [b] and [b] of [c], the completion test of line 175
    for the requested path [c] rejects [a], so every fragment that holds
    [a] is judged incomplete. *)
Theorem X2_no_grandchild (a b c : string) :
  isDirectSubPathOf a a = false
  /\ (isDirectSubPathOf a b = true -> isDirectSubPathOf b a = false)
  /\ (isDirectSubPathOf a b = true -> isDirectSubPathOf b c = true ->
      elementMatches c a = false
      /\ forall ps, In a ps -> directoryComplete c (Some ps) = false).
Proof.
  split; [|split].
  - destruct (isDirectSubPathOf a a) eqn:E; [|reflexivity].
    apply subPath_longer in E. lia.
  - intros Hab. destruct (isDirectSubPathOf b a) eqn:E; [|reflexivity].
    apply subPath_longer in E. apply subPath_longer in Hab. lia.
  - intros Hab Hbc.
    assert (Hm : elementMatches c a = false).
    { unfold elementMatches. apply orb_false_iff. split.
      - apply String.eqb_neq. intros ->.
        apply subPath_longer in Hab. apply subPath_longer in Hbc. lia.
      - destruct (isDirectSubPathOf a c) eqn:E; [|reflexivity].
        apply isDirectSubPathOf_parentPath in E, Hab.
        destruct E as [_ E], Hab as [_ Hab]. subst b.
        rewrite <- E in Hbc. apply subPath_longer in Hbc. lia. }
    split; [exact Hm|]. intros ps Hin. cbn [directoryComplete].
    destruct (forallb (elementMatches c) ps) eqn:E; [|reflexivity].
    rewrite forallb_forall in E. rewrite (E a Hin) in Hm. discriminate.
Qed.

(** X2 on 1.2.1.1, 1.2.1 and 1.2. *)
Lemma X2_no_grandchild_witness :
  isDirectSubPathOf "1.2.1.1" "1.2.1" = true
  /\ isDirectSubPathOf "1.2.1" "1.2" = true
  /\ isDirectSubPathOf "1.2.1" "1.2.1.1" = false
  /\ elementMatches "1.2" "1.2.1.1" = false
  /\ directoryComplete "1.2" (Some ["1.2.1"; "1.2.1.1"]%string) = false.
Proof.
  destruct (X2_no_grandchild "1.2.1.1" "1.2.1" "1.2") as (_ & H1 & H2).
  destruct (H2 eq_refl eq_refl) as [Hm Hc].
  split; [reflexivity|]. split; [reflexivity|].
  split; [apply H1; reflexivity|]. split; [exact Hm|].
  apply Hc. right; left; reflexivity.
Defined.


(** ** getNodeByPath on a string *)

Lemma pipeMakeRequest_enqueued {M : TreeModel} (q : Pipeline) :
  q_enqueued (pipeMakeRequest q) = q_enqueued q.
Proof.
  unfold pipeMakeRequest.
  destruct (q_active q); [reflexivity|].
  destruct (q_pending q); reflexivity.
Qed.

Lemma enqueued_addRequest {M : TreeModel} (wk : Work) (w : World) :
  enqueued (addRequest (MkRequest wk (nextPromise w)) (snd (newPromise w)))
  = enqueued w ++ [MkRequest wk (nextPromise w)].
Proof.
  pose proof (DeviceFacts.pipeline_addRequest wk w) as E.
  apply (f_equal q_enqueued) in E. unfold pipeAddRequest in E.
  rewrite pipeMakeRequest_enqueued in E. exact E.
Qed.

(** X3.  [getNodeByPath] called with a string pushes on the queue one
    closure that holds the string split at the slashes: joined by slashes
    the segments give the string back, no segment holds a slash, and a
    string without a slash is one segment.  Called with an array it pushes
    a closure that holds the array as it is. *)
Theorem X3_getNodeByPath_segments {M : TreeModel} (s : string)
  (l : list string) (w : World) :
  enqueued (snd (getNodeByPath (inl s) w))
  = enqueued w
    ++ [MkRequest (WGetNodeByPath (JsString.split "/"%char s))
          (nextPromise w)]
  /\ JsString.join "/" (JsString.split "/"%char s) = s
  /\ Forall (fun seg => JsString.lacks "/"%char seg = true)
       (JsString.split "/"%char s)
  /\ (List.length (JsString.split "/"%char s) = 1 <->
      JsString.lacks "/"%char s = true)
  /\ enqueued (snd (getNodeByPath (inr l) w))
     = enqueued w ++ [MkRequest (WGetNodeByPath l) (nextPromise w)].
Proof.
  split; [|split; [|split; [|split]]].
  - unfold getNodeByPath. cbn [newPromise snd].
    apply (enqueued_addRequest (WGetNodeByPath (JsString.split "/"%char s))).
  - apply SplitFacts.join_split.
  - apply SplitFacts.split_pieces.
  - apply SplitFacts.split_single.
  - unfold getNodeByPath. cbn [newPromise snd].
    apply (enqueued_addRequest (WGetNodeByPath l)).
Qed.

(** ** TreePath *)

Module TreePathFacts.
Import TreePath.

Lemma fold_push (l : list JsValue) :
  forall tp,
    fold_left push l tp
    = {| identifiers := identifiers tp ++ map identifierOf l;
         numbers := numbers tp ++ map numberOf l |}.
Proof.
  induction l as [|x l IH]; intros tp; cbn [fold_left map].
  - rewrite !app_nil_r. destruct tp; reflexivity.
  - rewrite IH. unfold push, identifierOf, numberOf.
    destruct (isInteger x); cbn [identifiers numbers];
      rewrite <- !app_assoc; reflexivity.
Qed.

Lemma merge_back (l : list JsValue) :
  merge (map numberOf l) (map identifierOf l) = l.
Proof.
  induction l as [|x l IH]; [reflexivity|].
  cbn [map merge]. rewrite IH. destruct x; reflexivity.
Qed.

End TreePathFacts.

(** X4.  [new TreePath(path)] fills [numbers] and [identifiers] with one
    entry each for every element of [path], in order: an integer goes to
    [numbers] with [null] in [identifiers], anything else goes to
    [identifiers] with [null] in [numbers].  So [numbers] holds integers
    and nulls only, [identifiers] holds no integer, and reading at each
    place the number, or the identifier where the number is null, gives
    [path] back.  Without a path both arrays are empty. *)
Theorem X4_TreePath_splits_path (path : list TreePath.JsValue) :
  let tp := TreePath.make (Some path) in
  List.length (TreePath.numbers tp) = List.length path
  /\ List.length (TreePath.identifiers tp) = List.length path
  /\ TreePath.numbers tp = map TreePath.numberOf path
  /\ TreePath.identifiers tp = map TreePath.identifierOf path
  /\ Forall (fun n => TreePath.isInteger n || TreePath.isNull n = true)
       (TreePath.numbers tp)
  /\ Forall (fun i => TreePath.isInteger i = false)
       (TreePath.identifiers tp)
  /\ TreePath.merge (TreePath.numbers tp) (TreePath.identifiers tp) = path
  /\ TreePath.make None = TreePath.Mk [] [].
Proof.
  cbn zeta. unfold TreePath.make. rewrite TreePathFacts.fold_push.
  cbn [TreePath.numbers TreePath.identifiers app].
  rewrite !length_map.
  repeat (split; [reflexivity|]).
  split; [|split; [|split; [apply TreePathFacts.merge_back | reflexivity]]].
  - apply Forall_forall. intros n Hn. apply in_map_iff in Hn.
    destruct Hn as (x & <- & _). destruct x; reflexivity.
  - apply Forall_forall. intros i Hi. apply in_map_iff in Hi.
    destruct Hi as (x & <- & _). destruct x; reflexivity.
Qed.

(** ** The pipeline never rests with work waiting *)

Lemma pipeMakeRequest_conserving {M : TreeModel} (q : Pipeline) :
  q_active (pipeMakeRequest q) = None -> q_pending (pipeMakeRequest q) = [].
Proof.
  unfold pipeMakeRequest.
  destruct (q_active q) eqn:Ha; [rewrite Ha; discriminate|].
  destruct (q_pending q) eqn:Hp; [intros _; exact Hp | discriminate].
Qed.

Lemma pipeStep_conserving {M : TreeModel} (q q' : Pipeline) :
  (q_active q = None -> q_pending q = []) ->
  PipeStep q q' ->
  q_active q' = None -> q_pending q' = [].
Proof.
  intros H Hs. destruct Hs as [| |wk| |id Hin Hact|id Hin Hact];
    try exact H;
    try apply pipeMakeRequest_conserving.
Qed.

Lemma conserving_fold {M : TreeModel} (inputs : list Input) :
  forall w,
    (activeRequest w = None -> pendingRequests w = []) ->
    activeRequest (fold_left step inputs w) = None ->
    pendingRequests (fold_left step inputs w) = [].
Proof.
  induction inputs as [|i inputs IH]; intros w Hw; [exact Hw|].
  cbn [fold_left]. apply IH.
  exact (pipeStep_conserving (pipeline w) (pipeline (step w i)) Hw
           (DeviceFacts.pipeline_step w i)).
Qed.

(** X5.  In every world a DeviceTree can reach, the queue is empty
    whenever no request is in service: a request waits only behind a
    request that is in service (and whose timer is armed). *)
Theorem X5_never_idle_with_work {M : TreeModel} (inputs : list Input) :
  let w := run inputs in
  (activeRequest w = None -> pendingRequests w = [])
  /\ (pendingRequests w <> [] ->
      exists r id, activeRequest w = Some r
                   /\ timeout w = Some id /\ timers w = [id]
                   /\ requestID w = S id).
Proof.
  intros w.
  assert (H : activeRequest w = None -> pendingRequests w = []).
  { apply conserving_fold. intros _. reflexivity. }
  split; [exact H|]. intros Hne.
  destruct (activeRequest w) as [r|] eqn:Ha; [|now specialize (H eq_refl)].
  destruct (DeviceFacts.stable_run inputs) as [R S]. fold w in R, S.
  destruct S as (h & Ht & Hts); [cbn; rewrite Ha; discriminate|].
  destruct (rx_handle _ R h Ht) as [Hid _].
  exists r, h. repeat split; assumption.
Qed.

(** X5 on a new DeviceTree, and on one with two calls made. *)
Lemma X5_never_idle_with_work_witness :
  let w := run (M := SimpleTree.model)
             [CallGetDirectory None; CallGetDirectory None] in
  activeRequest (run (M := SimpleTree.model) []) = None
  /\ pendingRequests (run (M := SimpleTree.model) []) = []
  /\ pendingRequests w <> []
  /\ exists r id, activeRequest w = Some r
                  /\ timeout w = Some id /\ timers w = [id]
                  /\ requestID w = S id.
Proof.
  destruct (X5_never_idle_with_work (M := SimpleTree.model) []) as [H0 _].
  destruct (X5_never_idle_with_work (M := SimpleTree.model)
              [CallGetDirectory None; CallGetDirectory None]) as [_ H1].
  split; [reflexivity|]. split; [apply H0; reflexivity|].
  split; [discriminate|]. apply H1. discriminate.
Defined.

(** ** What is sent is what was dispatched *)

Module SentFacts.

Section WithTreeModel.
Context {M : TreeModel}.















Lemma merges_clientCalls (w w' : World) :
  merges w w' -> clientCalls w' = clientCalls w.
Proof.
  intros (s & tr & -> & Htr). rewrite forallb_forall in Htr.
  unfold clientCalls. rewrite MergeFacts.extend_trace, flat_map_app.
  rewrite (MergeFacts.flat_map_none _ tr), app_nil_r; [reflexivity|].
  intros e He. specialize (Htr e He). destruct e; cbn in Htr;
    try discriminate; reflexivity.
Qed.




End WithTreeModel.
End SentFacts.


(** ** Merging touches the tree and the trace only *)

(** X7.  Merging a delivered fragment, whatever it holds, changes the
    tree, calls the tree model, emits value changes and calls callbacks,
    and nothing else: the queue, the request in service, its timer, the
    callback slot, the request counter and the promises are as before, and
    nothing is sent to the client.  The same holds of [handleNode] and
    [handleQualifiedNode] on any node under any parent. *)
Theorem X7_merge_leaves_pipeline_alone {M : TreeModel} (d : Decoded)
  (parent : Ref) (node : Element) (w : World) :
  forall w',
    (w' = handleRoot d w \/ w' = snd (handleNode parent node w)
     \/ w' = snd (handleQualifiedNode parent node w)) ->
    pendingRequests w' = pendingRequests w
    /\ activeRequest w' = activeRequest w
    /\ timeout w' = timeout w
    /\ timers w' = timers w
    /\ callback w' = callback w
    /\ requestID w' = requestID w
    /\ settled w' = settled w
    /\ nextPromise w' = nextPromise w
    /\ clientCalls w' = clientCalls w
    /\ cleared w' = cleared w
    /\ enqueued w' = enqueued w
    /\ dispatched w' = dispatched w.
Proof.
  intros w' Hw'.
  assert (Hm : merges w w').
  { destruct Hw' as [-> | [-> | ->]].
    - apply MergeFacts.handleRoot_merges.
    - apply MergeFacts.handleNode_merges.
    - apply MergeFacts.handleQualifiedNode_merges. }
  pose proof (MergeFacts.merges_fields _ _ Hm)
    as (H1 & H2 & H3 & H4 & H5 & H6 & H7 & H8 & _ & _).
  pose proof (MergeFacts.merges_pipeline _ _ Hm) as Hp.
  pose proof (SentFacts.merges_clientCalls _ _ Hm) as Hc.
  repeat split; try assumption.
  - exact (f_equal q_cleared Hp).
  - exact (f_equal q_enqueued Hp).
  - exact (f_equal q_dispatched Hp).
Qed.

(** X7 on a fragment that arrives while a request is in service. *)
Lemma X7_merge_leaves_pipeline_alone_witness :
  let w := run (M := SimpleTree.model) [CallGetDirectory None] in
  let d := DRoot (Some [SimpleTree.node 1 (Some [SimpleTree.param 2 7])]) in
  activeRequest (handleRoot d w) = activeRequest w
  /\ timers (handleRoot d w) = [0]
  /\ clientCalls (handleRoot d w) = clientCalls w.
Proof.
  destruct (X7_merge_leaves_pipeline_alone (M := SimpleTree.model)
              (DRoot (Some [SimpleTree.node 1 (Some [SimpleTree.param 2 7])]))
              [] (SimpleTree.node 1 None)
              (run [CallGetDirectory None])
              (handleRoot
                 (DRoot (Some [SimpleTree.node 1
                                 (Some [SimpleTree.param 2 7])]))
                 (run [CallGetDirectory None]))
              (or_introl eq_refl))
    as (_ & H2 & _ & H4 & _ & _ & _ & _ & H9 & _).
  split; [exact H2|]. split; [exact H4 | exact H9].
Defined.

(** ** What merging emits and when callbacks are called *)

Module QuietFacts.

Section WithTreeModel.
Context {M : TreeModel}.

Ltac quiet_steps :=
  repeat first
    [ apply MergeFacts.mergesWith_refl
    | apply MergeFacts.mergesWith_set_root
    | apply MergeFacts.mergesWith_log; reflexivity
    | eapply MergeFacts.mergesWith_step;
      [apply MergeFacts.mergesWith_set_root|]
    | eapply MergeFacts.mergesWith_step;
      [apply MergeFacts.mergesWith_log; reflexivity|] ].

Lemma resolveNumbered_quiet (parent : Ref) (node : Element) (w : World) :
  mergesWith quietEvent w (snd (resolveNumbered parent node w)).
Proof.
  unfold resolveNumbered, treeCall.
  destruct (tm_getElementByNumber _ parent (number node)) as [n|].
  - destruct (tm_update _ n node) as [s cbs]. cbn [snd]. quiet_steps.
  - destruct (tm_addChild _ parent node) as [s n]. cbn [snd]. quiet_steps.
Qed.

Lemma resolveQualified_quiet (parent : Ref) (node : Element) (w : World) :
  mergesWith quietEvent w (snd (resolveQualified parent node w)).
Proof.
  unfold resolveQualified, treeCall, emit.
  destruct (tm_getElementByPath _ parent (path node)) as [el|].
  - destruct (tm_update _ el node) as [s cbs]. cbn [snd]. quiet_steps.
  - destruct (Nat.eqb _ 1).
    + destruct (tm_addChild _ tm_root node) as [s n]. cbn [snd]. quiet_steps.
    + destruct (tm_getElementByPath _ tm_root _) as [p|].
      * destruct (tm_addChild _ p node) as [s n]. cbn [snd]. quiet_steps.
      * cbn [snd]. quiet_steps.
Qed.

Lemma handleNode_quiet (node : Element) :
  forall parent w, mergesWith quietEvent w (snd (handleNode parent node w)).
Proof.
  induction node as [n p k st v cbs0|n p k st v cbs0 cs IH]
    using MergeFacts.Element_induction; intros parent w;
    rewrite MergeFacts.handleNode_eq;
    pose proof (resolveNumbered_quiet parent
                  (MkElement n p k st v cbs0
                     ltac:(first [exact (Some cs) | exact None])) w) as H0;
    destruct (resolveNumbered parent _ w) as [[r cbs] w1]; cbn [snd] in H0;
    cbn [children].
  - cbn [snd]. eapply MergeFacts.mergesWith_step; [|exact H0].
    apply MergeFacts.mergesWith_log. reflexivity.
  - clear -IH H0. revert cbs w1 H0.
    induction IH as [|c cs Hc _ IHcs]; intros cbs w1 H0; [exact H0|].
    cbn [handleNodes]. specialize (Hc r w1).
    destruct (handleNode r c w1) as [cbs' w2]. cbn [snd] in Hc.
    apply IHcs. exact (MergeFacts.mergesWith_trans _ _ _ _ H0 Hc).
Qed.

Lemma handleQualifiedNode_quiet (node : Element) :
  forall parent w,
    mergesWith quietEvent w (snd (handleQualifiedNode parent node w)).
Proof.
  induction node as [n p k st v cbs0|n p k st v cbs0 cs IH]
    using MergeFacts.Element_induction; intros parent w;
    rewrite MergeFacts.handleQualifiedNode_eq;
    pose proof (resolveQualified_quiet parent
                  (MkElement n p k st v cbs0
                     ltac:(first [exact (Some cs) | exact None])) w) as H0;
    destruct (resolveQualified parent _ w) as [[[r cbs]|] w1]; cbn [snd] in H0;
    cbn [children]; try exact H0.
  clear -IH H0. revert cbs w1 H0.
  induction IH as [|c cs Hc _ IHcs]; intros cbs w1 H0; [exact H0|].
  cbn [handleChildren].
  assert (Hstep : mergesWith quietEvent w1
                    (snd (if isQualified c
                          then handleQualifiedNode r c w1
                          else handleNode r c w1))).
  { destruct (isQualified c); [apply Hc | apply handleNode_quiet]. }
  destruct (if isQualified c then handleQualifiedNode r c w1
            else handleNode r c w1) as [cbs' w2]. cbn [snd] in Hstep.
  apply IHcs. exact (MergeFacts.mergesWith_trans _ _ _ _ H0 Hstep).
Qed.

(** The loop keeps the callbacks it was given and adds to them. *)
Lemma handleChildren_quiet (element : Ref) (cs : list Element) :
  forall cbs w,
    mergesWith quietEvent w (snd (handleChildren element cs cbs w))
    /\ exists more, fst (handleChildren element cs cbs w) = cbs ++ more.
Proof.
  induction cs as [|c cs IH]; intros cbs w.
  - split; [apply MergeFacts.mergesWith_refl|].
    exists []. cbn. symmetry. apply app_nil_r.
  - cbn [handleChildren].
    assert (Hc : mergesWith quietEvent w
                   (snd (if isQualified c
                         then handleQualifiedNode element c w
                         else handleNode element c w))).
    { destruct (isQualified c);
        [apply handleQualifiedNode_quiet | apply handleNode_quiet]. }
    destruct (if isQualified c then handleQualifiedNode element c w
              else handleNode element c w) as [cbs' w2]. cbn [snd] in Hc.
    destruct (IH (cbs ++ cbs') w2) as [Hm (more & Hmore)]. split.
    + exact (MergeFacts.mergesWith_trans _ _ _ _ Hc Hm).
    + exists (cbs' ++ more). rewrite Hmore, app_assoc. reflexivity.
Qed.

Lemma fireCallbacks_extend (cbs : list nat) :
  forall w, fireCallbacks cbs w = extend (root w) (map EvFire cbs) w.
Proof.
  unfold fireCallbacks.
  induction cbs as [|cb cbs IH]; intros w; cbn [fold_left map].
  - symmetry. apply MergeFacts.extend_nil.
  - rewrite IH, MergeFacts.log_extend, MergeFacts.extend_extend.
    reflexivity.
Qed.

(** *** Value changes emitted below a node handled by number *)

Lemma leaves_eq (node : Element) :
  leaves node = match children node with
                | None => [node]
                | Some cs => flat_map leaves cs
                end.
Proof.
  destruct node as [n p k st v cbs [cs|]]; [|reflexivity].
  cbn [leaves children]. induction cs as [|c cs IH]; [reflexivity|].
  cbn [flat_map]. rewrite <- IH. reflexivity.
Qed.

Lemma emitted_log_call (c : TreeCall) (w : World) :
  emittedEvents (treeCall c w) = emittedEvents w.
Proof.
  unfold emittedEvents, treeCall, log. cbn.
  rewrite flat_map_app. cbn. apply app_nil_r.
Qed.

Lemma emitted_set_root (s : Store) (w : World) :
  emittedEvents (set_root s w) = emittedEvents w.
Proof. reflexivity. Qed.

Lemma emitted_emit (e : Emitted) (w : World) :
  emittedEvents (emit e w) = emittedEvents w ++ [e].
Proof.
  unfold emittedEvents, emit, log. cbn. rewrite flat_map_app. reflexivity.
Qed.

Lemma resolveNumbered_emitted (parent : Ref) (node : Element) (w : World) :
  emittedEvents (snd (resolveNumbered parent node w)) = emittedEvents w.
Proof.
  unfold resolveNumbered.
  destruct (tm_getElementByNumber _ parent (number node)) as [n|].
  - destruct (tm_update _ n node) as [s cbs]. cbn [snd].
    rewrite emitted_set_root, !emitted_log_call. reflexivity.
  - destruct (tm_addChild _ parent node) as [s n]. cbn [snd].
    rewrite emitted_set_root, !emitted_log_call. reflexivity.
Qed.

Lemma handleNode_emitted (node : Element) :
  forall parent w,
    emittedEvents (snd (handleNode parent node w))
    = emittedEvents w ++ map EmValueChange (leaves node).
Proof.
  induction node as [n p k st v cbs0|n p k st v cbs0 cs IH]
    using MergeFacts.Element_induction; intros parent w;
    rewrite MergeFacts.handleNode_eq, leaves_eq;
    pose proof (resolveNumbered_emitted parent
                  (MkElement n p k st v cbs0
                     ltac:(first [exact (Some cs) | exact None])) w) as H0;
    destruct (resolveNumbered parent _ w) as [[r cbs] w1]; cbn [snd] in H0;
    cbn [children].
  - cbn [snd map]. rewrite emitted_emit, H0. reflexivity.
  - rewrite <- H0. clear -IH. revert cbs w1.
    induction IH as [|c cs Hc _ IHcs]; intros cbs w1.
    + cbn. symmetry. apply app_nil_r.
    + cbn [handleNodes flat_map]. specialize (Hc r w1).
      destruct (handleNode r c w1) as [cbs' w2]. cbn [snd] in Hc.
      rewrite IHcs, Hc, map_app, app_assoc. reflexivity.
Qed.

End WithTreeModel.
End QuietFacts.

(** X8.  [handleNode] emits a 'value-change' event for exactly the
    elements of the incoming node that have no list of children (the node
    itself if it has none), each once, in the order of the fragment, and
    for no other element, whatever the tree holds. *)
Theorem X8_handleNode_emits_for_leaves {M : TreeModel} (parent : Ref)
  (node : Element) (w : World) :
  emittedEvents (snd (handleNode parent node w))
  = emittedEvents w ++ map EmValueChange (leaves node).
Proof. apply QuietFacts.handleNode_emitted. Qed.

(** X9.  [handleRoot] calls the callbacks it collected only after the whole
    fragment has been merged, in the order collected: first those that
    [root.update] returned, then those returned for the first element of
    the fragment, then those for the second, and so on, each element being
    merged in the world the element before left.  What it adds to the trace
    is lookups, tree changes and emissions first, then the calls.  For a
    fragment without a list of elements it merges nothing and calls no
    callback, not even those that [root.update] returned. *)
Theorem X9_callbacks_after_merge {M : TreeModel} (d : Decoded) (w : World) :
  exists s tr cbs,
    handleRoot d w = extend s (tr ++ map EvFire cbs) w
    /\ forallb quietEvent tr = true
    /\ (decoded_elements d = None ->
        tr = [] /\ cbs = [] /\ s = fst (tm_updateRoot (root w) d))
    /\ (decoded_elements d <> None ->
        exists more, cbs = snd (tm_updateRoot (root w) d) ++ more)
    /\ (forall els, decoded_elements d = Some els ->
        let merged :=
          fold_left
            (fun (acc : list nat * World) (c : Element) =>
               let r := if isQualified c
                        then handleQualifiedNode tm_root c (snd acc)
                        else handleNode tm_root c (snd acc) in
               (fst acc ++ fst r, snd r))
            els
            (snd (tm_updateRoot (root w) d),
             set_root (fst (tm_updateRoot (root w) d)) w) in
        cbs = fst merged /\ extend s tr w = snd merged).
Proof.
  unfold handleRoot.
  destruct (tm_updateRoot (root w) d) as [s0 cbs0] eqn:Hu. cbn [fst snd].
  destruct (decoded_elements d) as [els|].
  - destruct (QuietFacts.handleChildren_quiet tm_root els cbs0
                (set_root s0 w)) as [(s1 & tr & E & Htr) (more & Hmore)].
    pose proof (ShapeFacts.handleChildren_fold tm_root els cbs0
                  (set_root s0 w)) as Hfold.
    destruct (handleChildren tm_root els cbs0 (set_root s0 w))
      as [cbs1 w1]. cbn [fst snd] in E, Hmore. subst w1 cbs1.
    assert (Ew : extend s1 tr (set_root s0 w) = extend s1 tr w).
    { rewrite MergeFacts.set_root_extend, MergeFacts.extend_extend.
      reflexivity. }
    exists s1, tr, (cbs0 ++ more).
    split; [|split; [exact Htr|split; [intros H; discriminate H|split]]].
    + rewrite QuietFacts.fireCallbacks_extend, MergeFacts.set_root_extend,
        !MergeFacts.extend_extend. reflexivity.
    + intros _. exists more. reflexivity.
    + intros els' Hels. injection Hels as <-. cbv zeta in Hfold |- *.
      rewrite <- Hfold. cbn [fst snd].
      split; [reflexivity | symmetry; exact Ew].
  - exists s0, [], []. cbn [map app fst].
    split; [apply MergeFacts.set_root_extend|].
    split; [reflexivity|]. split; [tauto|].
    split; [intros H; contradiction | intros els H; discriminate H].
Qed.

(** X9 on a fragment without elements, on one with an element, and on one
    that updates a parameter with a callback subscribed. *)
Lemma X9_callbacks_after_merge_witness :
  let w := init (M := SimpleTree.model) in
  let w5 := run (M := SimpleTree.model)
              [ClientEmberTree (DRoot (Some [SimpleTree.param 1 7]));
               CallSubscribe (M := SimpleTree.model) [1%Z] 5] in
  decoded_elements (DRoot None) = None
  /\ decoded_elements (DRoot (Some [SimpleTree.node 1 None])) <> None
  /\ (exists s tr cbs,
         handleRoot (DRoot None) w = extend s (tr ++ map EvFire cbs) w
         /\ tr = [] /\ cbs = [])
  /\ (exists s tr cbs,
         handleRoot (DRoot (Some [SimpleTree.node 1 None])) w
         = extend s (tr ++ map EvFire cbs) w
         /\ forallb quietEvent tr = true)
  /\ (exists s tr,
         handleRoot (DRoot (Some [SimpleTree.param 1 9])) w5
         = extend s (tr ++ [EvFire 5]) w5
         /\ forallb quietEvent tr = true).
Proof.
  intros w w5.
  split; [reflexivity|]. split; [discriminate|]. split; [|split].
  - destruct (X9_callbacks_after_merge (M := SimpleTree.model)
                (DRoot None) init) as (s & tr & cbs & E & _ & H & _).
    destruct (H eq_refl) as (Htr & Hcbs & _).
    exists s, tr, cbs. repeat split; assumption.
  - destruct (X9_callbacks_after_merge (M := SimpleTree.model)
                (DRoot (Some [SimpleTree.node 1 None])) init)
      as (s & tr & cbs & E & Hq & _).
    exists s, tr, cbs. split; assumption.
  - destruct (X9_callbacks_after_merge (M := SimpleTree.model)
                (DRoot (Some [SimpleTree.param 1 9])) w5)
      as (s & tr & cbs & E & Hq & _ & _ & H5).
    destruct (H5 [SimpleTree.param 1 9] eq_refl) as [Hc _].
    assert (Hcbs : cbs = [5]) by (rewrite Hc; vm_compute; reflexivity).
    subst cbs. exists s, tr. split; assumption.
Defined.

(** ** What expand resolves with *)

Module ExpandValueFacts.
Import Expand.

Lemma XNode_induction (P : XNode -> Prop) :
  (forall id isp gd, P (MkXNode id isp gd None)) ->
  (forall id isp gd cs, Forall P cs -> P (MkXNode id isp gd (Some cs))) ->
  forall n, P n.
Proof.
  intros Hleaf Hnode.
  fix IH 1. intros [id isp gd [cs|]].
  - apply Hnode. revert cs. fix IHcs 1. intros [|c cs].
    + constructor.
    + constructor; [apply IH | apply IHcs].
  - apply Hleaf.
Qed.

Lemma walkChildren_undefined (cs : list XNode) :
  Forall (fun c => x_isParameter c = false ->
                   fst (expandNode c) = Resolves None \/
                   exists e, x_getDirectory c = Rejects e /\
                             fst (expandNode c) = Rejects e) cs ->
  forall evs, fst (walkChildren cs (Resolves None) evs) = Resolves None.
Proof.
  induction 1 as [|c cs Hc _ IH]; intros evs; [reflexivity|].
  cbn [walkChildren]. destruct (x_isParameter c) eqn:Hp; [apply IH|].
  specialize (Hc eq_refl).
  destruct (expandNode c) as [[v|e] l]; cbn [fst] in Hc; [|apply IH].
  destruct Hc as [Hv | (e & _ & He)]; [|discriminate He].
  injection Hv as ->. apply IH.
Qed.

Lemma expandNode_undefined (node : XNode) :
  x_isParameter node = false ->
  fst (expandNode node) = Resolves None \/
  exists e, x_getDirectory node = Rejects e /\
            fst (expandNode node) = Rejects e.
Proof.
  induction node as [id isp gd|id isp gd cs IH] using XNode_induction;
    intros Hp; rewrite ExpandFacts.expandNode_eq, Hp;
    cbn [x_getDirectory x_children x_id];
    destruct gd as [[res|]|e];
    try (left; reflexivity);
    try (right; exists e; split; reflexivity).
  left. apply walkChildren_undefined. exact IH.
Qed.

End ExpandValueFacts.

(** X10.  [expand] on a node that is not a parameter never resolves with a
    directory result: its promise resolves with [undefined], whatever the
    device answered for the node and for its descendants, or rejects with
    the error of the directory request on the node itself.  Only on a
    parameter does [expand] settle as [getDirectory] does, with a single
    directory request. *)
Theorem X10_expand_resolves_undefined (node : Expand.XNode) :
  (Expand.x_isParameter node = false ->
   fst (Expand.expandNode node) = Expand.Resolves None \/
   exists e, Expand.x_getDirectory node = Expand.Rejects e /\
             fst (Expand.expandNode node) = Expand.Rejects e)
  /\ (Expand.x_isParameter node = true ->
      Expand.expandNode node
      = (Expand.x_getDirectory node,
         [Expand.XGetDirectory (Expand.x_id node)])).
Proof.
  split; [apply ExpandValueFacts.expandNode_undefined|].
  intros Hp. rewrite ExpandFacts.expandNode_eq, Hp. reflexivity.
Qed.

(** X10 on a node whose child answers, and on a parameter. *)
Lemma X10_expand_resolves_undefined_witness :
  let answer := Expand.Resolves (Some (DRoot (Some []))) in
  let leaf := Expand.MkXNode 1 false answer None in
  let top := Expand.MkXNode 0 false answer (Some [leaf]) in
  let par := Expand.MkXNode 2 true answer None in
  Expand.x_isParameter top = false
  /\ Expand.x_isParameter par = true
  /\ fst (Expand.expandNode top) = Expand.Resolves None
  /\ fst (Expand.expandNode par) = answer.
Proof.
  pose (answer := Expand.Resolves (Some (DRoot (Some [])))).
  pose (top := Expand.MkXNode 0 false answer
                 (Some [Expand.MkXNode 1 false answer None])).
  pose (par := Expand.MkXNode 2 true answer None).
  destruct (X10_expand_resolves_undefined top) as [H1 _].
  destruct (X10_expand_resolves_undefined par) as [_ H2].
  split; [reflexivity|]. split; [reflexivity|]. split.
  - destruct (H1 eq_refl) as [H | (e & He & _)];
      [exact H | discriminate He].
  - exact (f_equal fst (H2 eq_refl)).
Defined.

(** ** Responses go to the request in service *)

Module RoutingFacts.

Section WithTreeModel.
Context {M : TreeModel}.

Ltac crush_trace :=
  unfold sent, dispatched, cleared, fired, enqueued, clientCall, emit,
    treeCall, log;
  cbn; rewrite ?flat_map_app; cbn; rewrite ?app_nil_r; try reflexivity.

(** *** Outcomes *)

Lemma outcome_same (w w' : World) (p : nat) :
  settled w' = settled w -> outcome w' p = outcome w p.
Proof. intros H. unfold outcome. rewrite H. reflexivity. Qed.

Lemma outcome_settle_other (p p' : nat) (o : Outcome) (w : World) :
  p' <> p -> outcome (settle p o w) p' = outcome w p'.
Proof.
  intros Hne. unfold settle. destruct (outcome w p); [reflexivity|].
  unfold outcome. cbn. rewrite PromiseFacts.find_app_first.
  destruct (find _ (settled w)); [reflexivity|]. cbn.
  replace (p =? p') with false; [reflexivity|].
  symmetry. apply Nat.eqb_neq. congruence.
Qed.

Lemma outcome_settle_some (p : nat) (o : Outcome) (w : World) :
  outcome (settle p o w) p <> None.
Proof.
  destruct (outcome w p) as [o'|] eqn:E.
  - rewrite (PromiseFacts.outcome_settle_settled p p o' o w E). discriminate.
  - rewrite (PromiseFacts.outcome_settle_fresh p o w E). discriminate.
Qed.

Lemma outcome_settle_kept (p p' : nat) (o : Outcome) (w : World) :
  outcome w p' <> None -> outcome (settle p o w) p' <> None.
Proof.
  intros H. destruct (outcome w p') as [o'|] eqn:E; [|contradiction].
  rewrite (PromiseFacts.outcome_settle_settled p' p o' o w E). discriminate.
Qed.

Lemma settled_settle_fields (p : nat) (o : Outcome) (w : World) :
  activeRequest (settle p o w) = activeRequest w
  /\ pendingRequests (settle p o w) = pendingRequests w
  /\ callback (settle p o w) = callback w
  /\ treePending (settle p o w) = treePending w
  /\ dispatched (settle p o w) = dispatched w
  /\ root (settle p o w) = root w
  /\ trace (settle p o w) = trace w.
Proof. unfold settle. destruct (outcome w p); repeat split. Qed.

(** *** The shape of a hand-over *)

Lemma handlerOf_promise (r : Request) (cb : Callback) :
  handlerOf r = Some cb -> callbackPromise cb = promise r.
Proof.
  unfold handlerOf. destruct (work r); intros H; try discriminate;
    injection H as <-; reflexivity.
Qed.

Lemma handlerOf_not_connect (r : Request) (p : nat) :
  handlerOf r <> Some (CbConnect p).
Proof. unfold handlerOf. destruct (work r); discriminate. Qed.

Lemma makeRequest_busy (w : World) (a : Request) :
  activeRequest w = Some a -> makeRequest w = w.
Proof. intros H. unfold makeRequest. rewrite H. reflexivity. Qed.

Lemma makeRequest_empty (w : World) :
  activeRequest w = None -> pendingRequests w = [] -> makeRequest w = w.
Proof. intros Ha Hp. unfold makeRequest. rewrite Ha, Hp. reflexivity. Qed.

Lemma makeRequest_next (w : World) (b : Request) (rest : list Request) :
  activeRequest w = None -> pendingRequests w = b :: rest ->
  activeRequest (makeRequest w) = Some b
  /\ pendingRequests (makeRequest w) = rest
  /\ settled (makeRequest w) = settled w
  /\ root (makeRequest w) = root w
  /\ callback (makeRequest w)
     = match handlerOf b with Some h => Some h | None => callback w end
  /\ treePending (makeRequest w)
     = match work b with
       | WGetNodeByPath _ => Some (promise b)
       | _ => treePending w
       end
  /\ dispatched (makeRequest w) = dispatched w ++ [(requestID w, b)]
  /\ sent (makeRequest w) = sent w ++ commandOf (work b)
  /\ timeout (makeRequest w) = Some (requestID w)
  /\ timers (makeRequest w) = requestID w :: timers w
  /\ cleared (makeRequest w) = cleared w
  /\ fired (makeRequest w) = fired w.
Proof.
  intros Ha Hp. unfold makeRequest. rewrite Ha, Hp.
  unfold startWork, handlerOf.
  destruct (work b); cbn; repeat split; crush_trace.
Qed.

Lemma clearTimeout_fields (w : World) :
  activeRequest (clearTimeout w) = activeRequest w
  /\ pendingRequests (clearTimeout w) = pendingRequests w
  /\ callback (clearTimeout w) = callback w
  /\ treePending (clearTimeout w) = treePending w
  /\ settled (clearTimeout w) = settled w
  /\ dispatched (clearTimeout w) = dispatched w
  /\ root (clearTimeout w) = root w
  /\ sent (clearTimeout w) = sent w
  /\ requestID (clearTimeout w) = requestID w
  /\ fired (clearTimeout w) = fired w
  /\ timeout (clearTimeout w) = None
  /\ cleared (clearTimeout w) = cleared w ++ optList (timeout w).
Proof.
  unfold clearTimeout. destruct (timeout w) as [h|] eqn:E; cbn [optList].
  - repeat split; crush_trace.
  - rewrite app_nil_r. repeat split. exact E.
Qed.

(** What [finishRequest] leaves behind, whoever was in service. *)
Lemma finishRequest_shape (w : World) :
  settled (finishRequest w) = settled w
  /\ root (finishRequest w) = root w
  /\ fired (finishRequest w) = fired w
  /\ cleared (finishRequest w) = cleared w ++ optList (timeout w)
  /\ match pendingRequests w with
     | [] =>
         activeRequest (finishRequest w) = None
         /\ pendingRequests (finishRequest w) = []
         /\ timeout (finishRequest w) = None
         /\ callback (finishRequest w) = None
         /\ treePending (finishRequest w) = treePending w
         /\ sent (finishRequest w) = sent w
         /\ dispatched (finishRequest w) = dispatched w
     | b :: rest =>
         activeRequest (finishRequest w) = Some b
         /\ pendingRequests (finishRequest w) = rest
         /\ timeout (finishRequest w) = Some (requestID w)
         /\ callback (finishRequest w) = handlerOf b
         /\ treePending (finishRequest w)
            = match work b with
              | WGetNodeByPath _ => Some (promise b)
              | _ => treePending w
              end
         /\ sent (finishRequest w) = sent w ++ commandOf (work b)
         /\ dispatched (finishRequest w)
            = dispatched w ++ [(requestID w, b)]
     end.
Proof.
  unfold finishRequest.
  destruct (clearTimeout_fields (set_callback None w))
    as (_ & Hp & Hcb & Ht & Hs & Hd & Hr & Hsent & Hid & Hf & Hto & Hc).
  cbn [set_callback pendingRequests callback treePending settled root
       requestID timeout] in Hp, Hcb, Ht, Hs, Hr, Hid, Hc.
  change (dispatched (set_callback None w)) with (dispatched w) in Hd.
  change (sent (set_callback None w)) with (sent w) in Hsent.
  change (fired (set_callback None w)) with (fired w) in Hf.
  change (cleared (set_callback None w)) with (cleared w) in Hc.
  set (w0 := set_activeRequest None (clearTimeout (set_callback None w))).
  assert (Ha0 : activeRequest w0 = None) by reflexivity.
  assert (Hp0 : pendingRequests w0 = pendingRequests w) by exact Hp.
  assert (E1 : settled w0 = settled w) by exact Hs.
  assert (E2 : root w0 = root w) by exact Hr.
  assert (E3 : fired w0 = fired w) by exact Hf.
  assert (E4 : cleared w0 = cleared w ++ optList (timeout w)) by exact Hc.
  assert (E5 : timeout w0 = None) by exact Hto.
  assert (E6 : callback w0 = None) by exact Hcb.
  assert (E7 : treePending w0 = treePending w) by exact Ht.
  assert (E8 : sent w0 = sent w) by exact Hsent.
  assert (E9 : dispatched w0 = dispatched w) by exact Hd.
  assert (E10 : requestID w0 = requestID w) by exact Hid.
  clearbody w0.
  destruct (pendingRequests w) as [|b rest] eqn:Hpw.
  - rewrite (makeRequest_empty w0 Ha0 Hp0).
    repeat split; assumption.
  - destruct (makeRequest_next w0 b rest Ha0 Hp0)
      as (H1 & H2 & H3 & H4 & H5 & H6 & H7 & H8 & H9 & _ & H11 & H12).
    repeat split; try congruence.
    + rewrite H5, E6. unfold handlerOf. destruct (work b); reflexivity.
    + rewrite H6, E7. reflexivity.
Qed.

Lemma settle_finishRequest (p : nat) (o : Outcome) (w : World) :
  settle p o (finishRequest w) = finishRequest (settle p o w).
Proof.
  unfold settle.
  rewrite (outcome_same w (finishRequest w) p)
    by (apply finishRequest_shape).
  destruct (outcome w p); [reflexivity|].
  destruct (finishRequest_shape w) as (Hs & _). rewrite Hs.
  generalize (settled w ++ [(p, o)]). intros l.
  destruct w as [rt pd ac tm cb rid ts np st cc tp tr].
  unfold finishRequest, clearTimeout, makeRequest, startWork, set_callback.
  cbn. destruct tm; cbn; destruct pd as [|b rest]; cbn; try reflexivity;
    destruct (work b); reflexivity.
Qed.

(** *** The invariant through the methods *)

Lemma routed_same (w w' : World) :
  activeRequest w' = activeRequest w ->
  pendingRequests w' = pendingRequests w ->
  callback w' = callback w ->
  treePending w' = treePending w ->
  settled w' = settled w ->
  dispatched w' = dispatched w ->
  Routed w -> Routed w'.
Proof.
  intros Ha Hp Hc Ht Hs Hd [R1 R2 R3 R4].
  assert (Hl : activeList w' = activeList w)
    by (unfold activeList; rewrite Ha; reflexivity).
  constructor.
  - intros r. rewrite Hl, Hp, (outcome_same w w' _ Hs). apply R1.
  - intros cb. rewrite Hc, Hl, Hp, Ht, Ha. apply R2.
  - intros p. rewrite Ht, Ha. apply R3.
  - intros d. rewrite Hd, Hl, (outcome_same w w' _ Hs). apply R4.
Qed.

Lemma routed_merges (w w' : World) : merges w w' -> Routed w -> Routed w'.
Proof.
  intros Hm.
  destruct (MergeFacts.merges_fields _ _ Hm)
    as (Hp & Ha & _ & Hc & _ & _ & _ & Hs & _ & Ht).
  apply routed_same; try assumption.
  exact (f_equal q_dispatched (MergeFacts.merges_pipeline _ _ Hm)).
Qed.

Lemma routed_settle_other (p : nat) (o : Outcome) (w : World) :
  (forall r, In r (activeList w ++ pendingRequests w) -> promise r <> p) ->
  Routed w -> Routed (settle p o w).
Proof.
  intros Hne [R1 R2 R3 R4].
  destruct (settled_settle_fields p o w) as (Ha & Hp & Hc & Ht & Hd & _).
  assert (Hl : activeList (settle p o w) = activeList w)
    by (unfold activeList; rewrite Ha; reflexivity).
  constructor.
  - intros r. rewrite Hl, Hp. intros Hin.
    rewrite outcome_settle_other by (apply Hne; exact Hin).
    apply R1. exact Hin.
  - intros cb. rewrite Hc, Hl, Hp, Ht, Ha. apply R2.
  - intros q. rewrite Ht, Ha. apply R3.
  - intros d. rewrite Hd, Hl. intros Hin.
    destruct (R4 d Hin) as [H|H]; [left; exact H|].
    right. apply outcome_settle_kept. exact H.
Qed.

Lemma routed_handover (w : World) : Handover w -> Routed (makeRequest w).
Proof.
  intros [Hi Ht Hnd Hw Hs Hd].
  destruct (pendingRequests w) as [|b rest] eqn:Hp.
  - rewrite (makeRequest_empty w Hi Hp). constructor.
    + unfold activeList. rewrite Hi, Hp. intros r [].
    + intros cb Hcb. destruct (Hs cb Hcb) as (p & -> & _).
      unfold activeList. rewrite Hi, Hp. intros r [].
    + intros p Hp'. congruence.
    + intros d Hin. right. apply Hd. exact Hin.
  - destruct (makeRequest_next w b rest Hi Hp)
      as (H1 & H2 & H3 & _ & H5 & H6 & H7 & _).
    assert (Hl : activeList (makeRequest w) ++ pendingRequests (makeRequest w)
                 = b :: rest)
      by (unfold activeList; rewrite H1, H2; reflexivity).
    constructor.
    + intros r. rewrite Hl, (outcome_same w _ _ H3). apply Hw.
    + intros cb. rewrite H5, Hl, H6, H1.
      destruct (handlerOf b) as [h|] eqn:Hh.
      * intros E. injection E as <-.
        assert (Hwk : treePending w = None /\
                      exists r, Some b = Some r /\ handlerOf r = Some h).
        { split; [exact Ht | exists b; split; [reflexivity | exact Hh]]. }
        unfold handlerOf in Hh.
        destruct (work b); try discriminate; injection Hh as <-; exact Hwk.
      * intros Hcb. destruct (Hs cb Hcb) as (p & -> & Hne). exact Hne.
    + intros p. rewrite H6, H1. destruct (work b); rewrite ?Ht;
        try discriminate.
      intros E. injection E as <-. exists b. split; reflexivity.
    + intros d. rewrite H7. intros Hin. apply in_app_or in Hin.
      destruct Hin as [Hin | [<- | []]].
      * right. rewrite (outcome_same w _ _ H3). apply Hd. exact Hin.
      * left. unfold activeList. rewrite H1. left; reflexivity.
Qed.

(** A request in service whose promise is settled hands over. *)
Lemma routed_finish (w : World) :
  treePending w = None ->
  NoDup (map promise (pendingRequests w)) ->
  (forall r, In r (pendingRequests w) -> outcome w (promise r) = None) ->
  (forall r, activeRequest w = Some r -> outcome w (promise r) <> None) ->
  (forall d, In d (dispatched w) ->
             In (snd d) (activeList w) \/
             outcome w (promise (snd d)) <> None) ->
  Routed (finishRequest w).
Proof.
  intros Ht Hnd Hw Ha Hd. unfold finishRequest. apply routed_handover.
  destruct (clearTimeout_fields (set_callback None w))
    as (_ & Hp & Hc & Htp & Hs & Hdis & _).
  set (w0 := set_activeRequest None (clearTimeout (set_callback None w))).
  assert (E1 : activeRequest w0 = None) by reflexivity.
  assert (E2 : pendingRequests w0 = pendingRequests w) by exact Hp.
  assert (E3 : callback w0 = None) by exact Hc.
  assert (E4 : treePending w0 = treePending w) by exact Htp.
  assert (E5 : settled w0 = settled w) by exact Hs.
  assert (E6 : dispatched w0 = dispatched w) by exact Hdis.
  clearbody w0.
  constructor.
  - exact E1.
  - rewrite E4. exact Ht.
  - rewrite E2. exact Hnd.
  - intros r. rewrite E2, (outcome_same _ _ _ E5). apply Hw.
  - rewrite E3. discriminate.
  - intros d. rewrite E6, (outcome_same _ _ _ E5). intros Hin.
    destruct (Hd d Hin) as [H|H]; [|exact H].
    unfold activeList in H. destruct (activeRequest w) as [a|] eqn:E;
      [|destruct H].
    destruct H as [<-|[]]. apply Ha. reflexivity.
Qed.

Lemma routed_complete (w : World) (r : Request) (o : Outcome) :
  NoDup (map promise (activeList w ++ pendingRequests w)) ->
  Routed w -> activeRequest w = Some r -> treePending w = None ->
  Routed (finishRequest (settle (promise r) o w)).
Proof.
  intros Hnd [R1 R2 R3 R4] Ha Ht.
  destruct (settled_settle_fields (promise r) o w)
    as (Ha' & Hp' & _ & Ht' & Hd' & _).
  unfold activeList in Hnd, R1, R4. rewrite Ha in Hnd, R1, R4.
  cbn in Hnd, R1.
  inversion Hnd as [|x l Hnot Hnd']. subst.
  apply routed_finish.
  - rewrite Ht'. exact Ht.
  - rewrite Hp'. exact Hnd'.
  - intros r'. rewrite Hp'. intros Hin.
    rewrite outcome_settle_other.
    + apply R1. right; exact Hin.
    + intros E. apply Hnot. rewrite <- E. apply in_map. exact Hin.
  - intros r'. rewrite Ha', Ha. intros E. injection E as <-.
    apply outcome_settle_some.
  - intros d. rewrite Hd'. unfold activeList. rewrite Ha', Ha. intros Hin.
    destruct (R4 d Hin) as [H|H]; [left; exact H|].
    right. apply outcome_settle_kept. exact H.
Qed.

Lemma routed_clearTimeout (w : World) : Routed w -> Routed (clearTimeout w).
Proof.
  destruct (clearTimeout_fields w) as (Ha & Hp & Hc & Ht & Hs & Hd & _).
  apply routed_same; assumption.
Qed.

Lemma routed_drop_slot (w : World) : Routed w -> Routed (set_callback None w).
Proof.
  intros [R1 R2 R3 R4]. constructor; try assumption.
  cbn. discriminate.
Qed.

Lemma routed_drop_tree (w : World) :
  Routed w -> Routed (set_treePending None w).
Proof.
  intros [R1 R2 R3 R4]. constructor; try assumption; cbn.
  - intros cb Hcb. specialize (R2 cb Hcb).
    destruct cb; try exact R2; split; try reflexivity; apply R2.
  - discriminate.
Qed.

Lemma routed_invokeCallback (cb : Callback) (error : option Err)
  (node : option Decoded) (w : World) :
  NoDup (map promise (activeList w ++ pendingRequests w)) ->
  Routed w -> callback w = Some cb ->
  Routed (invokeCallback cb error node w).
Proof.
  intros Hnd R Hcb. pose proof (rt_slot w R cb Hcb) as Hslot.
  assert (Hnd' : NoDup (map promise (activeList (clearTimeout w)
                                     ++ pendingRequests (clearTimeout w)))).
  { destruct (clearTimeout_fields w) as (Ha & Hp & _).
    unfold activeList. rewrite Ha, Hp. exact Hnd. }
  destruct cb as [p|p q|p|p]; cbn [invokeCallback].
  - assert (H : Routed (settle p (match error with
                                  | None => Resolved VUndefined
                                  | Some e => Rejected e
                                  end) (set_callback None w))).
    { apply routed_settle_other; [exact Hslot | apply routed_drop_slot, R]. }
    unfold resolve, reject. destruct error; exact H.
  - destruct Hslot as (Ht & r & Ha & Hh).
    apply handlerOf_promise in Hh. cbn in Hh. subst p.
    assert (H : forall o, Routed (settle (promise r) o
                                    (finishRequest (clearTimeout w)))).
    { intros o. rewrite settle_finishRequest.
      apply routed_complete; [exact Hnd' | apply routed_clearTimeout, R | |];
        destruct (clearTimeout_fields w) as (Ha' & _ & _ & Ht' & _);
        congruence. }
    unfold getDirectoryCallback, resolve, reject.
    destruct node; [|exact R]. destruct error; [apply H|].
    destruct (requestedPathOf q w); [|exact R].
    destruct (directoryComplete _ _); [apply H | exact R].
  - destruct Hslot as (Ht & r & Ha & Hh).
    apply handlerOf_promise in Hh. cbn in Hh. subst p.
    assert (H : forall o, Routed (finishRequest
                                    (settle (promise r) o (clearTimeout w)))).
    { intros o.
      apply routed_complete; [exact Hnd' | apply routed_clearTimeout, R | |];
        destruct (clearTimeout_fields w) as (Ha' & _ & _ & Ht' & _);
        congruence. }
    unfold resolve, reject. destruct error; apply H.
  - destruct Hslot as (Ht & r & Ha & Hh).
    apply handlerOf_promise in Hh. cbn in Hh. subst p.
    assert (H : forall o, Routed (settle (promise r) o (finishRequest w))).
    { intros o. rewrite settle_finishRequest.
      apply routed_complete; assumption. }
    unfold resolve, reject. destruct error; apply H.
Qed.

Lemma routed_callSlot (error : option Err) (node : option Decoded)
  (w : World) :
  NoDup (map promise (activeList w ++ pendingRequests w)) ->
  Routed w ->
  Routed (match callback w with
          | Some cb => invokeCallback cb error node w
          | None => w
          end).
Proof.
  intros Hnd R. destruct (callback w) as [cb|] eqn:Hcb; [|exact R].
  apply routed_invokeCallback; assumption.
Qed.

Lemma routed_failWork (r : Request) (e : Err) (w : World) :
  NoDup (map promise (activeList w ++ pendingRequests w)) ->
  Routed w -> activeRequest w = Some r -> treePending w = None ->
  Routed (failWork r e w).
Proof.
  intros Hnd R Ha Ht. unfold failWork, reject.
  destruct (work r); rewrite ?settle_finishRequest;
    apply routed_complete; assumption.
Qed.

Lemma routed_addRequest (wk : Work) (w : World) :
  NoDup (map promise (activeList w ++ pendingRequests w)) ->
  Made w -> Routed w ->
  Routed (addRequest (MkRequest wk (nextPromise w)) (snd (newPromise w))).
Proof.
  intros Hnd Md R.
  pose proof (PromiseFacts.fresh_unsettled w Md) as Hfresh.
  set (r := MkRequest wk (nextPromise w)).
  unfold addRequest.
  set (w2 := log (EvEnqueue r)
               (set_pendingRequests
                  (pendingRequests (snd (newPromise w)) ++ [r])
                  (snd (newPromise w)))).
  assert (Ha2 : activeRequest w2 = activeRequest w) by reflexivity.
  assert (Hp2 : pendingRequests w2 = pendingRequests w ++ [r])
    by reflexivity.
  assert (Hs2 : settled w2 = settled w) by reflexivity.
  assert (Hc2 : callback w2 = callback w) by reflexivity.
  assert (Ht2 : treePending w2 = treePending w) by reflexivity.
  assert (Hd2 : dispatched w2 = dispatched w) by (subst w2; crush_trace).
  assert (Hold : forall r', In r' (activeList w ++ pendingRequests w) ->
                            promise r' <> nextPromise w).
  { intros r' Hin. pose proof (made_queue w Md r' Hin). lia. }
  destruct R as [R1 R2 R3 R4].
  destruct (activeRequest w) as [a|] eqn:Ha.
  - rewrite (makeRequest_busy w2 a) by (rewrite Ha2; reflexivity).
    assert (Hl : forall r', In r' (activeList w2 ++ pendingRequests w2) ->
                            In r' (activeList w ++ pendingRequests w)
                            \/ r' = r).
    { intros r'. unfold activeList. rewrite Ha2, Hp2, Ha.
      rewrite app_assoc. intros Hin. apply in_app_or in Hin.
      destruct Hin as [Hin|[<-|[]]]; [left; exact Hin | right; reflexivity]. }
    constructor.
    + intros r' Hin. rewrite (outcome_same w w2 _ Hs2).
      destruct (Hl r' Hin) as [Hin'| ->]; [apply R1; exact Hin'|].
      exact Hfresh.
    + intros cb. rewrite Hc2, Ht2, Ha2. intros Hcb.
      specialize (R2 cb Hcb). destruct cb; try exact R2.
      intros r' Hin. destruct (Hl r' Hin) as [Hin'| ->];
        [apply R2; exact Hin'|].
      cbn. pose proof (made_callback w Md _ Hcb) as Hlt. cbn in Hlt. lia.
    + intros p. rewrite Ht2, Ha2. apply R3.
    + intros d. rewrite Hd2, (outcome_same w w2 _ Hs2).
      unfold activeList in R4 |- *. rewrite Ha2. rewrite Ha in R4. apply R4.
  - assert (Hal : activeList w = [])
      by (unfold activeList; rewrite Ha; reflexivity).
    rewrite Hal in Hnd, R1, R2, R4, Hold.
    cbn [app] in Hnd, R1, R2, Hold.
    apply routed_handover. constructor.
    + rewrite Ha2. reflexivity.
    + rewrite Ht2. destruct (treePending w) as [p|] eqn:E; [|reflexivity].
      destruct (R3 p eq_refl) as (r' & Hr' & _). discriminate.
    + rewrite Hp2, map_app.
      apply NoDup_app; [exact Hnd | repeat constructor; intros [] |].
      intros p Hin [<-|[]]. apply in_map_iff in Hin.
      destruct Hin as (r' & Hp' & Hin). cbn in Hp'.
      apply (Hold r'); [exact Hin | exact Hp'].
    + intros r'. rewrite Hp2, (outcome_same w w2 _ Hs2). intros Hin.
      apply in_app_or in Hin. destruct Hin as [Hin|[<-|[]]];
        [apply R1; exact Hin | exact Hfresh].
    + intros cb. rewrite Hc2, Hp2. intros Hcb. specialize (R2 cb Hcb).
      destruct cb as [p|p q|p|p];
        try (destruct R2 as (_ & r' & Hr' & _); discriminate Hr').
      exists p. split; [reflexivity|]. intros r' Hin.
      apply in_app_or in Hin. destruct Hin as [Hin|[<-|[]]];
        [apply R2; exact Hin|].
      cbn. pose proof (made_callback w Md _ Hcb) as Hlt. cbn in Hlt. lia.
    + intros d. rewrite Hd2, (outcome_same w w2 _ Hs2). intros Hin.
      destruct (R4 d Hin) as [[]|H]. exact H.
Qed.

Lemma queue_nodup (w : World) :
  Stable (pipeline w) ->
  NoDup (map promise (activeList w ++ pendingRequests w)).
Proof. intros [R _]. exact (rx_queue_nodup _ R). Qed.

Lemma routed_step (w : World) (i : Input) :
  Stable (pipeline w) -> Made w -> Routed w -> Routed (step w i).
Proof.
  intros St Md R. pose proof (queue_nodup w St) as Hnd.
  destruct i; cbn [step].
  - (* connect *)
    unfold connect. cbn [newPromise].
    assert (H : Routed (set_callback (Some (CbConnect (nextPromise w)))
                          (set_nextPromise (S (nextPromise w)) w))).
    { destruct R as [R1 R2 R3 R4]. constructor; try assumption. cbn.
      intros cb E. injection E as <-. intros r Hin.
      pose proof (made_queue w Md r Hin). lia. }
    destruct (clientConnected _); cbn [snd];
      (eapply routed_same; [ | | | | | | exact H]);
      try reflexivity; crush_trace.
  - unfold disconnect.
    eapply routed_same; [ | | | | | | exact R]; try reflexivity; crush_trace.
  - unfold getDirectory. destruct qnode; cbn [newPromise snd].
    + apply routed_addRequest; assumption.
    + apply (routed_addRequest (WGetDirectory tm_root)
               (set_root (tm_clear (root w)) w)); try assumption.
      * destruct Md. constructor; assumption.
      * eapply routed_same; [ | | | | | | exact R]; reflexivity.
  - unfold invokeFunction. cbn [newPromise snd].
    apply routed_addRequest; assumption.
  - unfold getNodeByPath. cbn [newPromise snd].
    apply routed_addRequest; assumption.
  - unfold setValue. cbn [newPromise].
    match goal with |- context [if ?b then _ else _] => destruct b end;
      cbn [snd]; [|apply routed_addRequest; assumption].
    unfold reject. apply routed_settle_other.
    + intros r Hin. pose proof (made_queue w Md r Hin) as Hlt.
      cbn in Hlt |- *. lia.
    + eapply routed_same; [ | | | | | | exact R]; reflexivity.
  - unfold subscribe.
    match goal with |- context [if ?b then _ else _] => destruct b end;
      [exact R|].
    eapply routed_same; [ | | | | | | exact R]; reflexivity.
  - unfold unsubscribe.
    match goal with |- context [if ?b then _ else _] => destruct b end;
      [exact R|].
    eapply routed_same; [ | | | | | | exact R]; reflexivity.
  - unfold onConnecting.
    eapply routed_same; [ | | | | | | exact R]; try reflexivity; crush_trace.
  - unfold onConnected. apply routed_callSlot; [exact Hnd|].
    eapply routed_same; [ | | | | | | exact R]; try reflexivity; crush_trace.
  - unfold onDisconnected.
    eapply routed_same; [ | | | | | | exact R]; try reflexivity; crush_trace.
  - unfold onError.
    pose proof (routed_callSlot (Some e) None w Hnd R) as H.
    eapply routed_same; [ | | | | | | exact H]; try reflexivity; crush_trace.
  - unfold onEmberTree.
    match goal with |- context [callback ?w1] =>
      assert (Hm : merges w w1)
    end.
    { destruct d; [apply MergeFacts.handleRoot_merges|].
      apply MergeFacts.mergesWith_log. reflexivity. }
    apply routed_callSlot; [|exact (routed_merges _ _ Hm R)].
    destruct (MergeFacts.merges_fields _ _ Hm) as (Hp & Ha & _).
    unfold activeList. rewrite Ha, Hp. exact Hnd.
  - unfold onTimer. destruct (existsb _ _); [|exact R].
    unfold timeoutRequest.
    match goal with |- Routed (match activeRequest ?w1 with _ => _ end) =>
      assert (H1 : Routed w1);
      [|destruct (activeRequest w1) as [r|] eqn:Hact; [|exact H1]]
    end.
    { apply routed_drop_tree.
      eapply routed_same; [ | | | | | | exact R]; try reflexivity.
      crush_trace. }
    cbn [callRequest]. apply routed_failWork; try assumption; reflexivity.
  - unfold onNodeByPath. destruct (treePending w) as [p|] eqn:Hp; [|exact R].
    destruct (rt_tree w R p Hp) as (r & Ha & <-).
    assert (H : forall o, Routed (finishRequest
                                    (settle (promise r) o
                                       (set_treePending None w)))).
    { intros o. apply routed_complete; try assumption; try reflexivity.
      apply routed_drop_tree, R. }
    unfold resolve, reject. destruct error; apply H.
Qed.

Lemma routed_init : Routed init.
Proof.
  constructor; cbn; try discriminate; intros x [].
Qed.

Lemma invariants_fold (inputs : list Input) :
  forall w,
    Stable (pipeline w) -> Made w -> Routed w ->
    Routed (fold_left step inputs w).
Proof.
  induction inputs as [|i inputs IH]; intros w St Md R; [exact R|].
  cbn [fold_left]. apply IH.
  - exact (PipelineFacts.stable_step _ _ St (DeviceFacts.pipeline_step w i)).
  - apply PromiseFacts.made_step, Md.
  - apply routed_step; assumption.
Qed.

Lemma routed_run (inputs : list Input) : Routed (run inputs).
Proof.
  apply invariants_fold;
    [apply DeviceFacts.stable_init | apply PromiseFacts.made_init
    | apply routed_init].
Qed.

Lemma run_snoc (inputs : list Input) (i : Input) :
  run (inputs ++ [i]) = step (run inputs) i.
Proof. unfold run. rewrite fold_left_app. reflexivity. Qed.

End WithTreeModel.
End RoutingFacts.

(** ** What a call, an event and a timer do to the request in service *)

Module ServiceFacts.

Section WithTreeModel.
Context {M : TreeModel}.

Ltac trace_fields :=
  unfold sent, dispatched, cleared, fired, enqueued, emittedEvents,
    clientCall, emit, treeCall, log;
  cbn; rewrite ?flat_map_app; cbn; rewrite ?app_nil_r; try reflexivity.

Lemma makeRequest_enqueued (w : World) :
  enqueued (makeRequest w) = enqueued w.
Proof.
  unfold makeRequest. destruct (activeRequest w); [reflexivity|].
  destruct (pendingRequests w) as [|b rest]; [reflexivity|].
  unfold startWork. destruct (work b); trace_fields.
Qed.

Lemma idle_world_unarmed (w : World) :
  Stable (pipeline w) -> activeRequest w = None ->
  timeout w = None /\ timers w = [].
Proof.
  intros [R _] Ha.
  assert (Ht : timeout w = None).
  { destruct (timeout w) as [h|] eqn:E; [|reflexivity].
    destruct (rx_handle _ R h E) as [_ Hne]. cbn in Hne. congruence. }
  split; [exact Ht|].
  destruct (timers w) as [|t ts] eqn:E; [reflexivity|].
  pose proof (rx_timers _ R t) as H. cbn in H. rewrite E, Ht in H.
  discriminate H. left; reflexivity.
Qed.

(** [addRequest] with a new promise, on a DeviceTree that is idle or
    busy. *)
Lemma addRequest_shape (wk : Work) (w : World) :
  Stable (pipeline w) ->
  (activeRequest w = None -> pendingRequests w = []) ->
  let r := MkRequest wk (nextPromise w) in
  let w' := addRequest r (snd (newPromise w)) in
  enqueued w' = enqueued w ++ [r]
  /\ root w' = root w
  /\ match activeRequest w with
     | None =>
         activeRequest w' = Some r
         /\ pendingRequests w' = []
         /\ sent w' = sent w ++ commandOf wk
         /\ timeout w' = Some (requestID w)
         /\ timers w' = [requestID w]
         /\ callback w'
            = match handlerOf r with Some h => Some h | None => callback w end
     | Some a =>
         activeRequest w' = Some a
         /\ pendingRequests w' = pendingRequests w ++ [r]
         /\ sent w' = sent w
         /\ timeout w' = timeout w
         /\ timers w' = timers w
         /\ callback w' = callback w
     end.
Proof.
  intros St Hidle r w'. subst w'. unfold addRequest.
  set (w2 := log (EvEnqueue r)
               (set_pendingRequests
                  (pendingRequests (snd (newPromise w)) ++ [r])
                  (snd (newPromise w)))).
  assert (He : enqueued w2 = enqueued w ++ [r]) by (subst w2; trace_fields).
  assert (Hs : sent w2 = sent w) by (subst w2; trace_fields).
  assert (Ha2 : activeRequest w2 = activeRequest w) by reflexivity.
  assert (Hp2 : pendingRequests w2 = pendingRequests w ++ [r])
    by reflexivity.
  assert (Hr2 : root w2 = root w) by reflexivity.
  assert (Ht2 : timeout w2 = timeout w) by reflexivity.
  assert (Hts2 : timers w2 = timers w) by reflexivity.
  assert (Hc2 : callback w2 = callback w) by reflexivity.
  assert (Hid2 : requestID w2 = requestID w) by reflexivity.
  clearbody w2.
  split; [rewrite makeRequest_enqueued; exact He|].
  destruct (activeRequest w) as [a|] eqn:Ha.
  - rewrite (RoutingFacts.makeRequest_busy w2 a Ha2).
    repeat split; assumption.
  - rewrite (Hidle eq_refl) in Hp2. cbn [app] in Hp2.
    destruct (RoutingFacts.makeRequest_next w2 r [] Ha2 Hp2)
      as (H1 & H2 & _ & H4 & H5 & _ & _ & H8 & H9 & H10 & _).
    destruct (idle_world_unarmed w St Ha) as [_ Hts].
    rewrite Hc2 in H5. rewrite Hs in H8. change (work r) with wk in H8.
    repeat split; try congruence.
Qed.

Lemma settle_fresh_eq (p : nat) (o : Outcome) (w : World) :
  outcome w p = None ->
  settle p o w = set_settled (settled w ++ [(p, o)]) w.
Proof. intros H. unfold settle. rewrite H. reflexivity. Qed.

(** [timeoutRequest] with a request in service whose promise is
    unsettled. *)
Lemma timeoutRequest_shape (w : World) (r : Request) (id : nat) :
  activeRequest w = Some r -> outcome w (promise r) = None ->
  let w' := timeoutRequest id w in
  outcome w' (promise r) = Some (Rejected (EmberTimeoutError id))
  /\ root w' = tm_cancelCallbacks (root w)
  /\ fired w' = fired w
  /\ match pendingRequests w with
     | [] =>
         activeRequest w' = None
         /\ pendingRequests w' = []
         /\ timeout w' = None
         /\ callback w' = None
         /\ treePending w' = None
         /\ sent w' = sent w
         /\ dispatched w' = dispatched w
     | b :: rest =>
         activeRequest w' = Some b
         /\ pendingRequests w' = rest
         /\ timeout w' = Some (requestID w)
         /\ callback w' = handlerOf b
         /\ treePending w'
            = match work b with
              | WGetNodeByPath _ => Some (promise b)
              | _ => None
              end
         /\ sent w' = sent w ++ commandOf (work b)
         /\ dispatched w' = dispatched w ++ [(requestID w, b)]
     end.
Proof.
  intros Ha Ho w'. subst w'. unfold timeoutRequest. cbv zeta.
  set (w1 := set_treePending None
               (set_root (tm_cancelCallbacks (root w)) w)).
  change (activeRequest w1) with (activeRequest w). rewrite Ha.
  cbn [callRequest].
  assert (Ho1 : outcome w1 (promise r) = None) by exact Ho.
  assert (Hf : failWork r (EmberTimeoutError id) w1
               = finishRequest
                   (settle (promise r) (Rejected (EmberTimeoutError id)) w1)).
  { unfold failWork, reject.
    destruct (work r); rewrite ?RoutingFacts.settle_finishRequest;
      reflexivity. }
  rewrite Hf.
  destruct (RoutingFacts.finishRequest_shape
              (settle (promise r) (Rejected (EmberTimeoutError id)) w1))
    as (Hs & Hr & Hfi & _ & Hm).
  split.
  { rewrite (RoutingFacts.outcome_same _ _ _ Hs).
    apply PromiseFacts.outcome_settle_fresh. exact Ho1. }
  rewrite (settle_fresh_eq _ _ _ Ho1) in Hr, Hfi, Hm |- *.
  split; [exact Hr|]. split; [exact Hfi|]. exact Hm.
Qed.

(** The timer of the request in service fires. *)
Lemma onTimer_active (w : World) (r : Request) (id : nat) :
  Stable (pipeline w) -> Routed w ->
  activeRequest w = Some r -> timeout w = Some id ->
  let w' := step w (TimerFires id) in
  outcome w' (promise r) = Some (Rejected (EmberTimeoutError id))
  /\ root w' = tm_cancelCallbacks (root w)
  /\ fired w' = fired w ++ [id]
  /\ match pendingRequests w with
     | [] =>
         activeRequest w' = None
         /\ pendingRequests w' = []
         /\ timeout w' = None
         /\ callback w' = None
         /\ treePending w' = None
         /\ sent w' = sent w
         /\ dispatched w' = dispatched w
     | b :: rest =>
         activeRequest w' = Some b
         /\ pendingRequests w' = rest
         /\ timeout w' = Some (S id)
         /\ callback w' = handlerOf b
         /\ treePending w'
            = match work b with
              | WGetNodeByPath _ => Some (promise b)
              | _ => None
              end
         /\ sent w' = sent w ++ commandOf (work b)
         /\ dispatched w' = dispatched w ++ [(S id, b)]
     end.
Proof.
  intros St R Ha Hto w'. subst w'. cbn [step]. unfold onTimer.
  destruct St as [Rx Hs].
  destruct Hs as (h & Hh & Hts); [cbn; rewrite Ha; discriminate|].
  cbn in Hh, Hts. rewrite Hto in Hh. injection Hh as <-.
  destruct (rx_handle _ Rx id Hto) as [Hid _]. cbn in Hid.
  rewrite Hts. cbn [existsb]. rewrite Nat.eqb_refl. cbn [orb].
  set (w0 := log (EvTimerFired id)
               (set_timers (remove Nat.eq_dec id [id]) w)).
  assert (Ho : outcome w0 (promise r) = None).
  { change (outcome w (promise r) = None). apply (rt_waiting w R).
    unfold activeList. rewrite Ha. left; reflexivity. }
  destruct (timeoutRequest_shape w0 r id Ha Ho) as (H1 & H2 & H3 & H4).
  split; [exact H1|]. split; [exact H2|].
  split; [rewrite H3; subst w0; trace_fields|].
  change (pendingRequests w0) with (pendingRequests w) in H4.
  change (requestID w0) with (requestID w) in H4.
  assert (Hsent : sent w0 = sent w) by (subst w0; trace_fields).
  assert (Hdis : dispatched w0 = dispatched w) by (subst w0; trace_fields).
  rewrite Hsent, Hdis, Hid in H4. exact H4.
Qed.


End WithTreeModel.
End ServiceFacts.

(** X11.  In every world a DeviceTree can reach, the promise of a request
    that is queued or in service is unsettled, and the promise of every
    request that was dispatched and is no longer in service is settled:
    no request leaves service without its caller being told. *)
Theorem X11_promise_follows_service {M : TreeModel} (inputs : list Input) :
  let w := run inputs in
  (forall r, In r (activeList w ++ pendingRequests w) ->
             outcome w (promise r) = None)
  /\ (forall id r, In (id, r) (dispatched w) ->
                   activeRequest w <> Some r ->
                   outcome w (promise r) <> None).
Proof.
  intros w. pose proof (RoutingFacts.routed_run inputs) as R. fold w in R.
  split; [exact (rt_waiting w R)|].
  intros id r Hin Hne.
  destruct (rt_done w R (id, r) Hin) as [H|H]; [|exact H].
  cbn [snd] in H. unfold activeList in H.
  destruct (activeRequest w) as [a|]; [|destruct H].
  destruct H as [->|[]]. contradiction.
Qed.

(** X12.  In every reachable world the response handler in [self.callback]
    is either the handler of [connect] (whose promise belongs to no request
    of the queue), or the handler that the request in service installed: it
    settles the promise of that request, which is still unsettled, and no
    continuation of [root.getNodeByPath] is pending beside it. *)
Theorem X12_slot_belongs_to_service {M : TreeModel} (inputs : list Input)
  (cb : Callback) :
  let w := run inputs in
  callback w = Some cb ->
  match cb with
  | CbConnect p =>
      forall r, In r (activeList w ++ pendingRequests w) -> promise r <> p
  | _ =>
      exists r, activeRequest w = Some r
                /\ handlerOf r = Some cb
                /\ callbackPromise cb = promise r
                /\ outcome w (promise r) = None
                /\ treePending w = None
  end.
Proof.
  intros w Hcb. pose proof (RoutingFacts.routed_run inputs) as R. fold w in R.
  pose proof (rt_slot w R cb Hcb) as H.
  assert (Hgen : (treePending w = None /\
                  exists r, activeRequest w = Some r /\ handlerOf r = Some cb)
                 -> exists r, activeRequest w = Some r
                              /\ handlerOf r = Some cb
                              /\ callbackPromise cb = promise r
                              /\ outcome w (promise r) = None
                              /\ treePending w = None).
  { intros (Ht & r & Ha & Hh). exists r.
    split; [exact Ha|]. split; [exact Hh|].
    split; [exact (RoutingFacts.handlerOf_promise r cb Hh)|].
    split; [|exact Ht].
    apply (rt_waiting w R). unfold activeList. rewrite Ha.
    left; reflexivity. }
  destruct cb; [exact H | apply Hgen, H | apply Hgen, H | apply Hgen, H].
Qed.

(** X13.  When the timer of the request in service fires, the promise of
    that request is rejected with the timeout error carrying its id, the
    callbacks of the tree are cancelled, and the head of the queue, if there
    is one, is put in service with the next id and its command is sent;
    with an empty queue the DeviceTree is idle, with no handler left. *)
Theorem X13_timeout_hands_over {M : TreeModel} (inputs : list Input)
  (r : Request) (id : nat) :
  let w := run inputs in
  activeRequest w = Some r -> timeout w = Some id ->
  let w' := step w (TimerFires id) in
  outcome w' (promise r) = Some (Rejected (EmberTimeoutError id))
  /\ root w' = tm_cancelCallbacks (root w)
  /\ fired w' = fired w ++ [id]
  /\ match pendingRequests w with
     | [] =>
         activeRequest w' = None
         /\ pendingRequests w' = []
         /\ timeout w' = None
         /\ callback w' = None
         /\ treePending w' = None
         /\ sent w' = sent w
         /\ dispatched w' = dispatched w
     | b :: rest =>
         activeRequest w' = Some b
         /\ pendingRequests w' = rest
         /\ timeout w' = Some (S id)
         /\ callback w' = handlerOf b
         /\ treePending w'
            = match work b with
              | WGetNodeByPath _ => Some (promise b)
              | _ => None
              end
         /\ sent w' = sent w ++ commandOf (work b)
         /\ dispatched w' = dispatched w ++ [(S id, b)]
     end.
Proof.
  intros w Ha Hto.
  apply ServiceFacts.onTimer_active; try assumption.
  - apply DeviceFacts.stable_run.
  - apply RoutingFacts.routed_run.
Qed.

(** X14.  A call of [getDirectory], [invokeFunction], [getNodeByPath] or
    [setValue] (on a parameter) in a reachable world: on an idle DeviceTree
    the request is put in service at once, its command sent and its timer
    armed under the current id; on a busy one nothing is sent, and the
    request waits at the end of the queue with the request in service, its
    timer and its handler untouched.  Its promise is unsettled, and only
    [getDirectory] without a node touches the tree (it clears it). *)
Theorem X14_call_served_or_queued {M : TreeModel} (inputs : list Input)
  (i : Input) (wk : Work) :
  let w := run inputs in
  queuedWork w i = Some wk ->
  let r := MkRequest wk (nextPromise w) in
  let w' := step w i in
  outcome w' (promise r) = None
  /\ enqueued w' = enqueued w ++ [r]
  /\ root w' = match i with
               | CallGetDirectory None => tm_clear (root w)
               | _ => root w
               end
  /\ match activeRequest w with
     | None =>
         activeRequest w' = Some r
         /\ pendingRequests w' = []
         /\ sent w' = sent w ++ commandOf wk
         /\ timeout w' = Some (requestID w)
         /\ timers w' = [requestID w]
         /\ callback w'
            = match handlerOf r with Some h => Some h | None => callback w end
     | Some a =>
         activeRequest w' = Some a
         /\ pendingRequests w' = pendingRequests w ++ [r]
         /\ sent w' = sent w
         /\ timeout w' = timeout w
         /\ timers w' = timers w
         /\ callback w' = callback w
     end.
Proof.
  intros w Hq r w'.
  pose proof (DeviceFacts.stable_run inputs) as St. fold w in St.
  assert (Hidle : activeRequest w = None -> pendingRequests w = []).
  { apply conserving_fold. intros _. reflexivity. }
  assert (Hshape :
            enqueued w' = enqueued w ++ [r]
            /\ root w' = match i with
                         | CallGetDirectory None => tm_clear (root w)
                         | _ => root w
                         end
            /\ match activeRequest w with
               | None =>
                   activeRequest w' = Some r
                   /\ pendingRequests w' = []
                   /\ sent w' = sent w ++ commandOf wk
                   /\ timeout w' = Some (requestID w)
                   /\ timers w' = [requestID w]
                   /\ callback w'
                      = match handlerOf r with
                        | Some h => Some h
                        | None => callback w
                        end
               | Some a =>
                   activeRequest w' = Some a
                   /\ pendingRequests w' = pendingRequests w ++ [r]
                   /\ sent w' = sent w
                   /\ timeout w' = timeout w
                   /\ timers w' = timers w
                   /\ callback w' = callback w
               end).
  { subst w' r. destruct i; try discriminate Hq; cbn [step].
    - destruct qnode as [q|]; injection Hq as <-;
        unfold getDirectory; cbn [newPromise snd].
      + exact (ServiceFacts.addRequest_shape (WGetDirectory q) w St Hidle).
      + exact (ServiceFacts.addRequest_shape (WGetDirectory tm_root)
                 (set_root (tm_clear (root w)) w) St Hidle).
    - injection Hq as <-. unfold invokeFunction. cbn [newPromise snd].
      exact (ServiceFacts.addRequest_shape _ w St Hidle).
    - unfold getNodeByPath. cbn [newPromise snd].
      destruct p; injection Hq as <-;
        exact (ServiceFacts.addRequest_shape _ w St Hidle).
    - unfold setValue. cbn [newPromise]. cbn [queuedWork] in Hq.
      change (root (set_nextPromise (S (nextPromise w)) w))
        with (root w).
      destruct (negb (instanceofParameter (tm_kind (root w) node))
                && negb (instanceofQualifiedParameter
                           (tm_kind (root w) node)));
        [discriminate Hq|].
      injection Hq as <-. cbn [snd].
      exact (ServiceFacts.addRequest_shape _ w St Hidle). }
  split; [|exact Hshape].
  pose proof (RoutingFacts.routed_run (inputs ++ [i])) as R.
  rewrite RoutingFacts.run_snoc in R. fold w in R. fold w' in R.
  apply (rt_waiting w' R).
  destruct Hshape as (_ & _ & Hm). unfold activeList.
  destruct (activeRequest w) as [a|].
  - destruct Hm as (-> & -> & _). apply in_or_app. right.
    apply in_or_app. right. left; reflexivity.
  - destruct Hm as (-> & _). apply in_or_app. left. left; reflexivity.
Qed.


(** X16.  While the handler of [getDirectory] is in [self.callback], a
    'connected' or an 'error' event of the client changes nothing for the
    request: it stays in service, its promise unsettled, its handler in
    place and its timer armed (the error is only emitted).  After such an
    error the request ends when its timer fires, with the timeout error. *)
Theorem X16_getDirectory_outlives_socket_events {M : TreeModel}
  (inputs : list Input) (p : nat) (q : Ref) (e : Err) :
  let w := run inputs in
  callback w = Some (CbGetDirectory p q) ->
  exists r id,
    activeRequest w = Some r /\ promise r = p /\ timeout w = Some id
    /\ step w (ClientError e) = emit (EmError e) w
    /\ step w ClientConnected = emit EmConnected (set_clientConnected true w)
    /\ outcome (step w (ClientError e)) p = None
    /\ outcome (step w ClientConnected) p = None
    /\ outcome (step (step w (ClientError e)) (TimerFires id)) p
       = Some (Rejected (EmberTimeoutError id)).
Proof.
  intros w Hc.
  pose proof (RoutingFacts.routed_run inputs) as R. fold w in R.
  destruct (rt_slot w R _ Hc) as (_ & r & Ha & Hh).
  pose proof (RoutingFacts.handlerOf_promise r _ Hh) as Hp. cbn in Hp.
  symmetry in Hp.
  assert (Ho : outcome w p = None).
  { rewrite <- Hp. apply (rt_waiting w R). unfold activeList. rewrite Ha.
    left; reflexivity. }
  destruct (DeviceFacts.stable_run inputs) as [_ Hs]. fold w in Hs.
  destruct Hs as (id & Hto & _); [cbn; rewrite Ha; discriminate|].
  cbn in Hto.
  assert (E1 : step w (ClientError e) = emit (EmError e) w).
  { cbn [step]. unfold onError. rewrite Hc. reflexivity. }
  assert (E2 : step w ClientConnected
               = emit EmConnected (set_clientConnected true w)).
  { cbn [step]. unfold onConnected. cbv zeta.
    change (callback (emit EmConnected (set_clientConnected true w)))
      with (callback w).
    rewrite Hc. reflexivity. }
  exists r, id.
  split; [exact Ha|]. split; [exact Hp|]. split; [exact Hto|].
  split; [exact E1|]. split; [exact E2|].
  split; [rewrite E1; exact Ho|]. split; [rewrite E2; exact Ho|].
  rewrite <- Hp.
  apply ServiceFacts.onTimer_active.
  - unfold w. rewrite <- RoutingFacts.run_snoc. apply DeviceFacts.stable_run.
  - unfold w. rewrite <- RoutingFacts.run_snoc. apply RoutingFacts.routed_run.
  - rewrite E1. exact Ha.
  - rewrite E1. exact Hto.
Qed.

(** X11 after two calls and the timeout of the first. *)
Lemma X11_promise_follows_service_witness :
  let w := run (M := SimpleTree.model)
             [CallGetDirectory None; CallGetDirectory None; TimerFires 0] in
  outcome w 1 = None /\ outcome w 0 <> None.
Proof.
  destruct (X11_promise_follows_service (M := SimpleTree.model)
              [CallGetDirectory None; CallGetDirectory None; TimerFires 0])
    as [H1 H2].
  split.
  - apply (H1 (MkRequest (M := SimpleTree.model) (WGetDirectory (M := SimpleTree.model) []) 1)).
    vm_compute. left; reflexivity.
  - apply (H2 0 (MkRequest (M := SimpleTree.model)
                   (WGetDirectory (M := SimpleTree.model) []) 0)).
    + vm_compute. left; reflexivity.
    + intros H. vm_compute in H. discriminate H.
Defined.

(** X12 with a [getDirectory] in service. *)
Lemma X12_slot_belongs_to_service_witness :
  let w := run (M := SimpleTree.model) [CallGetDirectory None] in
  callback w = Some (CbGetDirectory (M := SimpleTree.model) 0 [])
  /\ exists r, activeRequest w = Some r
               /\ handlerOf r = Some (CbGetDirectory (M := SimpleTree.model) 0 [])
               /\ 0 = promise r
               /\ outcome w (promise r) = None
               /\ treePending w = None.
Proof.
  split; [reflexivity|].
  exact (X12_slot_belongs_to_service (M := SimpleTree.model)
           [CallGetDirectory None] (CbGetDirectory (M := SimpleTree.model) 0 []) eq_refl).
Defined.

(** X13 with an [invokeFunction] waiting behind a [getDirectory]. *)
Lemma X13_timeout_hands_over_witness :
  let w := run (M := SimpleTree.model)
             [CallGetDirectory None;
              CallInvokeFunction (M := SimpleTree.model) [1%Z] []] in
  let w' := step w (TimerFires 0) in
  let first := MkRequest (M := SimpleTree.model)
                 (WGetDirectory (M := SimpleTree.model) []) 0 in
  let second := MkRequest (M := SimpleTree.model)
                  (WInvokeFunction (M := SimpleTree.model) [1%Z] []) 1 in
  activeRequest w = Some first
  /\ timeout w = Some 0
  /\ outcome w' (promise first)
     = Some (Rejected (EmberTimeoutError 0))
  /\ activeRequest w' = Some second
  /\ timeout w' = Some 1
  /\ sent w' = sent w ++ commandOf (work second).
Proof.
  intros w w' first second.
  assert (Ha : activeRequest w = Some first) by (vm_compute; reflexivity).
  assert (Ht : timeout w = Some 0) by (vm_compute; reflexivity).
  assert (Hp : pendingRequests w = [second]) by (vm_compute; reflexivity).
  destruct (X13_timeout_hands_over (M := SimpleTree.model)
              [CallGetDirectory None;
               CallInvokeFunction (M := SimpleTree.model) [1%Z] []]
              first 0 Ha Ht) as (H1 & _ & _ & H4).
  fold w in H4. rewrite Hp in H4.
  destruct H4 as (Ha' & _ & Ht' & _ & _ & Hs' & _).
  split; [exact Ha|]. split; [exact Ht|]. split; [exact H1|].
  split; [exact Ha'|]. split; [exact Ht' | exact Hs'].
Defined.

(** X14 on a new DeviceTree, and on one with a [getDirectory] in
    service. *)
Lemma X14_call_served_or_queued_witness :
  let w0 := run (M := SimpleTree.model) [] in
  let w := run (M := SimpleTree.model) [CallGetDirectory None] in
  let call := CallInvokeFunction (M := SimpleTree.model) [1%Z] [] in
  let wk := WInvokeFunction (M := SimpleTree.model) [1%Z] [] in
  sent (step w0 (CallGetDirectory None))
  = sent w0 ++ commandOf (WGetDirectory (M := SimpleTree.model) [])
  /\ sent (step w call) = sent w
  /\ pendingRequests (step w call)
     = pendingRequests w ++ [MkRequest wk (nextPromise w)].
Proof.
  intros w0 w call wk.
  assert (Ha0 : activeRequest w0 = None) by reflexivity.
  assert (Ha : activeRequest w
               = Some (MkRequest (M := SimpleTree.model)
                         (WGetDirectory (M := SimpleTree.model) []) 0))
    by (vm_compute; reflexivity).
  destruct (X14_call_served_or_queued (M := SimpleTree.model)
              [] (CallGetDirectory None)
              (WGetDirectory (M := SimpleTree.model) []) eq_refl)
    as (_ & _ & _ & H0).
  fold w0 in H0. rewrite Ha0 in H0.
  destruct (X14_call_served_or_queued (M := SimpleTree.model)
              [CallGetDirectory None] call wk eq_refl)
    as (_ & _ & _ & H1).
  fold w in H1. rewrite Ha in H1.
  destruct H0 as (_ & _ & Hs0 & _).
  destruct H1 as (_ & Hp1 & Hs1 & _).
  split; [exact Hs0|]. split; [exact Hs1 | exact Hp1].
Defined.


(** X16 with a [getDirectory] in service. *)
Lemma X16_getDirectory_outlives_socket_events_witness :
  let w := run (M := SimpleTree.model) [CallGetDirectory None] in
  callback w = Some (CbGetDirectory (M := SimpleTree.model) 0 [])
  /\ exists r id,
       activeRequest w = Some r /\ promise r = 0 /\ timeout w = Some id
       /\ outcome (step w (ClientError (ClientFailure 1))) 0 = None
       /\ outcome (step (step w (ClientError (ClientFailure 1)))
                     (TimerFires id)) 0
          = Some (Rejected (EmberTimeoutError id)).
Proof.
  split; [reflexivity|].
  destruct (X16_getDirectory_outlives_socket_events (M := SimpleTree.model)
              [CallGetDirectory None] 0 [] (ClientFailure 1) eq_refl)
    as (r & id & Ha & Hp & Ht & _ & _ & Ho & _ & Hf).
  exists r, id. repeat split; assumption.
Defined.

(** ** connect: who can still settle its promise *)

Module OrphanFacts.

Section WithTreeModel.
Context {M : TreeModel}.

Lemma orphan_weaken (p : nat) (w w' : World) :
  nextPromise w <= nextPromise w' ->
  settled w' = settled w ->
  (forall cb, callback w' = Some cb -> callback w = Some cb) ->
  (forall q, treePending w' = Some q -> treePending w = Some q) ->
  incl (activeList w' ++ pendingRequests w')
       (activeList w ++ pendingRequests w) ->
  Orphan p w -> Orphan p w'.
Proof.
  intros Hn Hs Hc Ht Hq [O1 O2 O3 O4 O5]. constructor.
  - lia.
  - rewrite (RoutingFacts.outcome_same w w' p Hs). exact O2.
  - intros cb Hcb. exact (O3 cb (Hc cb Hcb)).
  - intros q Hq'. exact (O4 q (Ht q Hq')).
  - intros r Hin. exact (O5 r (Hq r Hin)).
Qed.

Ltac same_orphan :=
  match goal with
  | H : Orphan ?p ?w |- Orphan ?p _ =>
      apply (orphan_weaken p w); [ | | | | | exact H];
      cbn; try apply incl_refl; auto
  end.

Lemma orphan_log (p : nat) (e : Event) (w : World) :
  Orphan p w -> Orphan p (log e w).
Proof. intros H. same_orphan. Qed.

Lemma orphan_merges (p : nat) (w w' : World) :
  merges w w' -> Orphan p w -> Orphan p w'.
Proof. intros (s & tr & -> & _) H. same_orphan. Qed.

Lemma orphan_settle (p q : nat) (o : Outcome) (w : World) :
  Orphan p w -> q <> p -> Orphan p (settle q o w).
Proof.
  intros [O1 O2 O3 O4 O5] Hne.
  destruct (RoutingFacts.settled_settle_fields q o w)
    as (Ha & Hp & Hc & Ht & _).
  constructor.
  - rewrite PromiseFacts.nextPromise_settle. exact O1.
  - rewrite RoutingFacts.outcome_settle_other by congruence. exact O2.
  - rewrite Hc. exact O3.
  - rewrite Ht. exact O4.
  - unfold activeList. rewrite Ha, Hp. exact O5.
Qed.

Lemma orphan_clearTimeout (p : nat) (w : World) :
  Orphan p w -> Orphan p (clearTimeout w).
Proof.
  intros H. unfold clearTimeout. destruct (timeout w); [same_orphan | exact H].
Qed.

Lemma orphan_startWork (p : nat) (r : Request) (w : World) :
  Orphan p w -> promise r <> p -> Orphan p (startWork r w).
Proof.
  intros [O1 O2 O3 O4 O5] Hr. unfold startWork.
  destruct (work r); constructor; cbn; auto;
    intros x Hx; injection Hx as <-; exact Hr.
Qed.

Lemma orphan_makeRequest (p : nat) (w : World) :
  Orphan p w -> Orphan p (makeRequest w).
Proof.
  intros H. unfold makeRequest.
  destruct (activeRequest w) as [a|] eqn:Ha; [exact H|].
  destruct (pendingRequests w) as [|r rest] eqn:Hp; [exact H|].
  assert (Hr : promise r <> p).
  { apply (or_queue p w H). unfold activeList. rewrite Ha, Hp.
    left; reflexivity. }
  apply orphan_startWork; [|exact Hr].
  apply (orphan_weaken p w); [ | | | | | exact H]; cbn; auto.
  unfold activeList. rewrite Ha, Hp. apply incl_refl.
Qed.

(** [finishRequest] empties the slot: whatever it held is gone. *)
Lemma finishRequest_orphans (p : nat) (w : World) :
  p < nextPromise w -> outcome w p = None ->
  (forall q, treePending w = Some q -> q <> p) ->
  (forall r, In r (activeList w ++ pendingRequests w) -> promise r <> p) ->
  Orphan p (finishRequest w).
Proof.
  intros H1 H2 H4 H5. unfold finishRequest. apply orphan_makeRequest.
  assert (H0 : Orphan p (clearTimeout (set_callback None w))).
  { apply orphan_clearTimeout. constructor; cbn; try assumption.
    discriminate. }
  revert H0. generalize (clearTimeout (set_callback None w)). intros w1 H0.
  apply (orphan_weaken p w1); [ | | | | | exact H0]; cbn; auto.
  unfold activeList. destruct (activeRequest w1); cbn;
    [apply incl_tl|]; apply incl_refl.
Qed.

Lemma orphan_finishRequest (p : nat) (w : World) :
  Orphan p w -> Orphan p (finishRequest w).
Proof.
  intros [O1 O2 O3 O4 O5]. apply finishRequest_orphans; assumption.
Qed.

(** A closure called with an error finishes the request: the slot is
    emptied here as well. *)
Lemma failWork_orphans (p : nat) (r : Request) (e : Err) (w : World) :
  p < nextPromise w -> outcome w p = None ->
  (forall q, treePending w = Some q -> q <> p) ->
  (forall r, In r (activeList w ++ pendingRequests w) -> promise r <> p) ->
  promise r <> p ->
  Orphan p (failWork r e w).
Proof.
  intros H1 H2 H4 H5 Hr.
  assert (E : failWork r e w
              = finishRequest (settle (promise r) (Rejected e) w)).
  { unfold failWork, reject.
    destruct (work r); rewrite ?RoutingFacts.settle_finishRequest;
      reflexivity. }
  rewrite E.
  destruct (RoutingFacts.settled_settle_fields (promise r) (Rejected e) w)
    as (Ha & Hp & _ & Ht & _).
  apply finishRequest_orphans.
  - rewrite PromiseFacts.nextPromise_settle. exact H1.
  - rewrite RoutingFacts.outcome_settle_other by congruence. exact H2.
  - rewrite Ht. exact H4.
  - unfold activeList. rewrite Ha, Hp. exact H5.
Qed.

Lemma orphan_invokeCallback (p : nat) (cb : Callback) (error : option Err)
  (node : option Decoded) (w : World) :
  Orphan p w -> callbackPromise cb <> p ->
  Orphan p (invokeCallback cb error node w).
Proof.
  intros H Hp. destruct cb as [q|q qn|q|q]; cbn [invokeCallback] in *;
    cbn [callbackPromise] in Hp; unfold resolve, reject.
  - destruct error; (apply orphan_settle; [|exact Hp]);
      same_orphan; discriminate.
  - unfold getDirectoryCallback, resolve, reject.
    destruct node; [|exact H]. destruct error.
    + apply orphan_settle; [|exact Hp].
      apply orphan_finishRequest, orphan_clearTimeout. exact H.
    + destruct (requestedPathOf qn w); [|exact H].
      destruct (directoryComplete _ _); [|exact H].
      apply orphan_settle; [|exact Hp].
      apply orphan_finishRequest, orphan_clearTimeout. exact H.
  - apply orphan_finishRequest.
    destruct error; (apply orphan_settle; [|exact Hp]);
      apply orphan_clearTimeout; exact H.
  - destruct error; (apply orphan_settle; [|exact Hp]);
      apply orphan_finishRequest; exact H.
Qed.

Lemma orphan_callSlot (p : nat) (error : option Err)
  (node : option Decoded) (w : World) :
  Orphan p w ->
  Orphan p (match callback w with
            | Some cb => invokeCallback cb error node w
            | None => w
            end).
Proof.
  intros H. destruct (callback w) as [cb|] eqn:Hcb; [|exact H].
  apply orphan_invokeCallback; [exact H | apply (or_slot p w H cb Hcb)].
Qed.

Lemma orphan_addRequest (p : nat) (wk : Work) (w : World) :
  Orphan p w ->
  Orphan p (addRequest (MkRequest wk (nextPromise w)) (snd (newPromise w))).
Proof.
  intros [O1 O2 O3 O4 O5]. unfold addRequest. apply orphan_makeRequest.
  constructor; cbn; auto.
  intros r Hin.
  change (In r (activeList w ++ pendingRequests w
                ++ [MkRequest wk (nextPromise w)])) in Hin.
  rewrite app_assoc in Hin. apply in_app_or in Hin.
  destruct Hin as [Hin|[<-|[]]]; [exact (O5 r Hin) | cbn; lia].
Qed.

Lemma orphan_step (p : nat) (w : World) (i : Input) :
  Orphan p w -> Orphan p (step w i).
Proof.
  intros H. destruct i; cbn [step].
  - unfold connect. cbn [newPromise].
    destruct H as [O1 O2 O3 O4 O5].
    destruct (clientConnected _); cbn [snd]; constructor; cbn; auto;
      intros x Hx; injection Hx as <-; cbn; lia.
  - unfold disconnect, clientCall. apply orphan_log; exact H.
  - unfold getDirectory. destruct qnode; cbn [newPromise snd].
    + apply orphan_addRequest; exact H.
    + apply (orphan_addRequest p _ (set_root (tm_clear (root w)) w)).
      same_orphan.
  - unfold invokeFunction. cbn [newPromise snd].
    apply orphan_addRequest; exact H.
  - unfold getNodeByPath. cbn [newPromise snd].
    apply orphan_addRequest; exact H.
  - unfold setValue. cbn [newPromise].
    match goal with |- context [if ?b then _ else _] => destruct b end;
      cbn [snd]; [|apply orphan_addRequest; exact H].
    unfold reject. apply orphan_settle.
    + apply (orphan_weaken p w); [ | | | | | exact H]; cbn; auto;
        apply incl_refl.
    + pose proof (or_made p w H). cbn. lia.
  - unfold subscribe.
    match goal with |- context [if ?b then _ else _] => destruct b end;
      [exact H | same_orphan].
  - unfold unsubscribe.
    match goal with |- context [if ?b then _ else _] => destruct b end;
      [exact H | same_orphan].
  - unfold onConnecting, emit. apply orphan_log; exact H.
  - unfold onConnected. apply orphan_callSlot. unfold emit.
    apply orphan_log. same_orphan.
  - unfold onDisconnected, emit. apply orphan_log. same_orphan.
  - unfold onError, emit. apply orphan_log. apply orphan_callSlot. exact H.
  - unfold onEmberTree. apply orphan_callSlot.
    destruct d; [|unfold emit; apply orphan_log; exact H].
    exact (orphan_merges p _ _ (MergeFacts.handleRoot_merges _ w) H).
  - unfold onTimer. destruct (existsb _ _); [|exact H].
    unfold timeoutRequest.
    match goal with
    | |- Orphan p (match activeRequest ?w1 with _ => _ end) =>
        assert (H1 : Orphan p w1) by (same_orphan; discriminate);
        destruct (activeRequest w1) as [r|] eqn:Hact; [|exact H1]
    end.
    cbn [callRequest]. destruct H1 as [O1 O2 O3 O4 O5].
    apply failWork_orphans; try assumption.
    apply O5. unfold activeList. rewrite Hact. left; reflexivity.
  - unfold onNodeByPath. destruct (treePending w) as [q|] eqn:Hq; [|exact H].
    apply orphan_finishRequest. unfold resolve, reject.
    assert (Hne : q <> p) by (apply (or_tree p w H); exact Hq).
    destruct error; (apply orphan_settle; [|exact Hne]);
      same_orphan; discriminate.
Qed.

(** Once nothing holds a promise it is never settled. *)
Lemma orphan_fold (p : nat) (more : list Input) :
  forall w, Orphan p w -> Orphan p (fold_left step more w).
Proof.
  induction more as [|i more IH]; intros w Hw; [exact Hw|].
  cbn [fold_left]. apply IH, orphan_step, Hw.
Qed.

End WithTreeModel.
End OrphanFacts.

Module ConnectFacts.

Section WithTreeModel.
Context {M : TreeModel}.

Lemma connect_fields (t : Z) (w : World) :
  fst (connect t w) = nextPromise w
  /\ nextPromise (snd (connect t w)) = S (nextPromise w)
  /\ settled (snd (connect t w)) = settled w
  /\ treePending (snd (connect t w)) = treePending w
  /\ activeRequest (snd (connect t w)) = activeRequest w
  /\ pendingRequests (snd (connect t w)) = pendingRequests w
  /\ root (snd (connect t w)) = root w
  /\ callback (snd (connect t w)) = Some (CbConnect (nextPromise w)).
Proof.
  unfold connect. cbn [newPromise].
  destruct (clientConnected _); cbn [fst snd]; repeat split.
Qed.

(** A request with a response handler, started on an idle DeviceTree,
    takes the slot. *)
Lemma addRequest_orphans (p : nat) (wk : Work) (w : World) :
  p < nextPromise w -> outcome w p = None ->
  (forall q, treePending w = Some q -> q <> p) ->
  activeRequest w = None -> pendingRequests w = [] ->
  handlerOf (MkRequest wk (nextPromise w)) <> None ->
  Orphan p (addRequest (MkRequest wk (nextPromise w)) (snd (newPromise w)))
  /\ callback (addRequest (MkRequest wk (nextPromise w))
                 (snd (newPromise w)))
     = handlerOf (MkRequest wk (nextPromise w)).
Proof.
  intros H1 H2 H4 Ha Hp Hh.
  unfold addRequest, makeRequest. cbn [newPromise snd].
  change (activeRequest
            (log (EvEnqueue (MkRequest wk (nextPromise w)))
               (set_pendingRequests
                  (pendingRequests (set_nextPromise (S (nextPromise w)) w)
                   ++ [MkRequest wk (nextPromise w)])
                  (set_nextPromise (S (nextPromise w)) w))))
    with (activeRequest w).
  change (pendingRequests
            (log (EvEnqueue (MkRequest wk (nextPromise w)))
               (set_pendingRequests
                  (pendingRequests (set_nextPromise (S (nextPromise w)) w)
                   ++ [MkRequest wk (nextPromise w)])
                  (set_nextPromise (S (nextPromise w)) w))))
    with (pendingRequests w ++ [MkRequest wk (nextPromise w)]).
  rewrite Ha, Hp. cbn [app]. cbv zeta.
  unfold startWork, handlerOf in *. cbn [work promise] in *.
  destruct wk; try contradiction; (split; [|reflexivity]);
    constructor; cbn; auto;
    try (intros x Hx; injection Hx as <-; cbn; lia);
    intros r [<-|[]]; cbn; lia.
Qed.

End WithTreeModel.
End ConnectFacts.

(** C10, as amended.  [connect] stores its one-shot callback in
    [self.callback]; if the client is connected it calls [disconnect] on it
    and then [connect], otherwise [connect] alone; the promise it returns
    is new and unsettled.  While that callback is in the slot, a
    'connected' event resolves the promise and an 'error' event carrying
    [e] rejects it with [e]; either way the slot is empty afterwards, so
    that a later event of either kind calls nothing and settles nothing.
    This is so when the event follows [connect] directly.  The slot is
    shared with the requests: a [getDirectory], [invokeFunction] or
    [setValue] started after [connect] on an idle DeviceTree puts its own
    handler in the slot, and a request in service that times out empties
    the slot; in both cases the promise of [connect] is never settled,
    whatever happens afterwards, as is any promise that neither the slot,
    nor the queue, nor a pending tree lookup holds. *)
Theorem C10_connect_one_shot {M : TreeModel} :
  (forall (inputs : list Input) (t : Z),
      let w := run inputs in
      clientCalls (snd (connect t w))
      = clientCalls w
        ++ (if isConnected w then [ClientDisconnect; ClientConnect t]
            else [ClientConnect t])
      /\ callback (snd (connect t w)) = Some (CbConnect (fst (connect t w)))
      /\ outcome (snd (connect t w)) (fst (connect t w)) = None)
  /\ (forall (w : World) (p : nat),
         callback w = Some (CbConnect p) -> outcome w p = None ->
         outcome (onConnected w) p = Some (Resolved VUndefined)
         /\ callback (onConnected w) = None
         /\ (forall e : Err,
                outcome (onError e w) p = Some (Rejected e)
                /\ callback (onError e w) = None))
  /\ (forall (w : World) (e : Err),
         callback w = None ->
         settled (onConnected w) = settled w
         /\ settled (onError e w) = settled w
         /\ callback (onConnected w) = None
         /\ callback (onError e w) = None)
  /\ (forall (inputs : list Input) (t : Z) (e : Err),
         let w := snd (connect t (run inputs)) in
         let p := fst (connect t (run inputs)) in
         outcome (onConnected w) p = Some (Resolved VUndefined)
         /\ outcome (onError e w) p = Some (Rejected e)
         /\ callback (onConnected w) = None
         /\ callback (onError e w) = None)
  /\ (forall (inputs : list Input) (t : Z) (i : Input) (wk : Work),
         let w := snd (connect t (run inputs)) in
         let p := fst (connect t (run inputs)) in
         activeRequest (run inputs) = None ->
         queuedWork w i = Some wk ->
         handlerOf (MkRequest wk (nextPromise w)) <> None ->
         callback (step w i) = handlerOf (MkRequest wk (nextPromise w))
         /\ callback (step w i) <> Some (CbConnect p)
         /\ forall more : list Input,
             outcome (fold_left step more (step w i)) p = None)
  /\ (forall (inputs : list Input) (p : nat) (r : Request) (id : nat),
         let w := run inputs in
         callback w = Some (CbConnect p) -> outcome w p = None ->
         activeRequest w = Some r -> timeout w = Some id ->
         callback (step w (TimerFires id)) <> Some (CbConnect p)
         /\ forall more : list Input,
             outcome (fold_left step more (step w (TimerFires id))) p
             = None)
  /\ (forall (w : World) (p : nat) (more : list Input),
         Orphan p w -> outcome (fold_left step more w) p = None).
Proof.
  assert (HA : forall (inputs : list Input) (t : Z),
             let w := run inputs in
             clientCalls (snd (connect t w))
             = clientCalls w
               ++ (if isConnected w then [ClientDisconnect; ClientConnect t]
                   else [ClientConnect t])
             /\ callback (snd (connect t w))
                = Some (CbConnect (fst (connect t w)))
             /\ outcome (snd (connect t w)) (fst (connect t w)) = None).
  { intros inputs t w.
    pose proof (PromiseFacts.fresh_unsettled w (PromiseFacts.made_run inputs))
      as Hfresh.
    unfold connect, isConnected. cbn [newPromise].
    change (clientConnected
              (set_callback (Some (CbConnect (nextPromise w)))
                 (set_nextPromise (S (nextPromise w)) w)))
      with (clientConnected w).
    destruct (clientConnected w); cbn [fst snd];
      (split; [|split; [reflexivity | exact Hfresh]]);
      unfold clientCalls, clientCall, log; cbn;
      rewrite ?flat_map_app; cbn; rewrite ?app_nil_r, <- ?app_assoc;
      reflexivity. }
  assert (HB : forall (w : World) (p : nat),
             callback w = Some (CbConnect p) -> outcome w p = None ->
             outcome (onConnected w) p = Some (Resolved VUndefined)
             /\ callback (onConnected w) = None
             /\ (forall e : Err,
                    outcome (onError e w) p = Some (Rejected e)
                    /\ callback (onError e w) = None)).
  { intros w p Hcb Hout.
    split; [|split].
    + unfold onConnected.
      change (callback (emit EmConnected (set_clientConnected true w)))
        with (callback w).
      rewrite Hcb. cbn [invokeCallback]. unfold resolve.
      apply PromiseFacts.outcome_settle_fresh. exact Hout.
    + unfold onConnected.
      change (callback (emit EmConnected (set_clientConnected true w)))
        with (callback w).
      rewrite Hcb. cbn [invokeCallback]. unfold resolve, settle.
      destruct (outcome _ p); reflexivity.
    + intros e. unfold onError. rewrite Hcb. cbn [invokeCallback].
      split.
      * unfold reject, emit.
        change (outcome (set_callback None w) p) with (outcome w p) in *.
        pose proof (PromiseFacts.outcome_settle_fresh p (Rejected e)
                      (set_callback None w) Hout) as H.
        exact H.
      * unfold reject, settle. destruct (outcome _ p); reflexivity. }
  assert (HO : forall (w : World) (p : nat) (more : list Input),
             Orphan p w -> outcome (fold_left step more w) p = None).
  { intros w p more H.
    exact (or_unsettled p _ (OrphanFacts.orphan_fold p more w H)). }
  assert (HS : forall (w : World) (p : nat),
             Orphan p w -> callback w <> Some (CbConnect p)).
  { intros w p H Hcb. exact (or_slot p w H _ Hcb eq_refl). }
  split; [exact HA|]. split; [exact HB|].
  split; [|split; [|split; [|split; [|exact HO]]]].
  - intros w e Hcb. unfold onConnected, onError.
    change (callback (emit EmConnected (set_clientConnected true w)))
      with (callback w).
    rewrite Hcb. repeat split; exact Hcb.
  - intros inputs t e w p.
    destruct (HA inputs t) as (_ & Hcb & Hout).
    destruct (HB w p Hcb Hout) as (Hres & Hslot & Herr).
    destruct (Herr e) as (Hrej & Hslot').
    repeat split; assumption.
  - intros inputs t i wk w p Hidle Hq Hh.
    pose proof (PromiseFacts.made_run inputs) as Md.
    pose proof (PromiseFacts.fresh_unsettled _ Md) as Hfresh.
    assert (Hpend : pendingRequests (run inputs) = []).
    { apply conserving_fold; [intros _; reflexivity | exact Hidle]. }
    destruct (ConnectFacts.connect_fields t (run inputs))
      as (Ep & En & Es & Et & Ea & Epd & Er & Ec).
    fold w in En, Es, Et, Ea, Epd, Er, Ec. fold p in Ep.
    assert (H1 : p < nextPromise w) by (rewrite En, Ep; lia).
    assert (H2 : outcome w p = None).
    { rewrite (RoutingFacts.outcome_same _ _ _ Es), Ep. exact Hfresh. }
    assert (H4 : forall q, treePending w = Some q -> q <> p).
    { intros q Hq'. rewrite Et in Hq'.
      pose proof (made_pending _ Md q Hq'). lia. }
    assert (Ha : activeRequest w = None) by (rewrite Ea; exact Hidle).
    assert (Hp : pendingRequests w = []) by (rewrite Epd; exact Hpend).
    assert (Hgoal : Orphan p (step w i)
                    /\ callback (step w i)
                       = handlerOf (MkRequest wk (nextPromise w))).
    { clearbody w p. destruct i; try discriminate Hq; cbn [step].
      - destruct qnode as [q|]; injection Hq as <-;
          unfold getDirectory; cbn [newPromise snd].
        + exact (ConnectFacts.addRequest_orphans p _ w H1 H2 H4 Ha Hp Hh).
        + exact (ConnectFacts.addRequest_orphans p _
                   (set_root (tm_clear (root w)) w) H1 H2 H4 Ha Hp Hh).
      - injection Hq as <-. unfold invokeFunction. cbn [newPromise snd].
        exact (ConnectFacts.addRequest_orphans p _ w H1 H2 H4 Ha Hp Hh).
      - exfalso. apply Hh. destruct p0; injection Hq as <-; reflexivity.
      - unfold setValue. cbn [newPromise]. cbn [queuedWork] in Hq.
        change (root (set_nextPromise (S (nextPromise w)) w))
          with (root w).
        destruct (negb (instanceofParameter (tm_kind (root w) node))
                  && negb (instanceofQualifiedParameter
                             (tm_kind (root w) node)));
          [discriminate Hq|].
        injection Hq as <-. cbn [snd].
        exact (ConnectFacts.addRequest_orphans p _ w H1 H2 H4 Ha Hp Hh). }
    destruct Hgoal as [Ho Hc].
    split; [exact Hc|]. split; [exact (HS _ _ Ho)|].
    intros more. exact (HO _ _ more Ho).
  - intros inputs p r id w Hcb Hout Ha Hto.
    pose proof (PromiseFacts.made_run inputs) as Md. fold w in Md.
    pose proof (RoutingFacts.routed_run inputs) as R. fold w in R.
    destruct (DeviceFacts.stable_run inputs) as [_ Hs]. fold w in Hs.
    destruct Hs as (h & Hh & Hts); [cbn; rewrite Ha; discriminate|].
    cbn in Hh, Hts. rewrite Hto in Hh. injection Hh as <-.
    assert (Ho : Orphan p (step w (TimerFires id))).
    { cbn [step]. unfold onTimer. rewrite Hts. cbn [existsb].
      rewrite Nat.eqb_refl. cbn [orb]. unfold timeoutRequest. cbv zeta.
      match goal with
      | |- Orphan p (match activeRequest ?w1 with _ => _ end) =>
          change (activeRequest w1) with (activeRequest w);
          rewrite Ha; cbn [callRequest];
          apply (OrphanFacts.failWork_orphans p r _ w1)
      end.
      - exact (made_callback w Md _ Hcb).
      - exact Hout.
      - intros q Hq. discriminate Hq.
      - exact (rt_slot w R _ Hcb).
      - apply (rt_slot w R _ Hcb). unfold activeList. rewrite Ha.
        left; reflexivity. }
    split; [exact (HS _ _ Ho)|].
    intros more. exact (HO _ _ more Ho).
Qed.

(** C10 on a connected client: [connect] disconnects first, and the
    promise it returns is resolved by the next 'connected' event; a
    [getDirectory] started right after [connect] takes the slot. *)
Lemma C10_connect_one_shot_witness :
  let w0 := run (M := SimpleTree.model) [ClientConnected] in
  let w := snd (connect 2 w0) in
  callback w = Some (CbConnect 0)
  /\ outcome w 0 = None
  /\ clientCalls w = [ClientDisconnect; ClientConnect 2]
  /\ outcome (onConnected w) 0 = Some (Resolved VUndefined)
  /\ callback (onConnected w) = None
  /\ settled (onError InvalidQnode (onConnected w)) = settled (onConnected w)
  /\ callback (step w (CallGetDirectory None))
     <> Some (CbConnect (fst (connect 2 w0))).
Proof.
  destruct (C10_connect_one_shot (M := SimpleTree.model))
    as (HA & HB & HC & _ & HD & _).
  destruct (HA [ClientConnected] 2%Z) as (Hcalls & _ & _).
  destruct (HB (snd (connect 2 (run (M := SimpleTree.model) [ClientConnected])))
              0) as (Hres & Hslot & _); [reflexivity | reflexivity |].
  destruct (HC (onConnected
                  (snd (connect 2
                          (run (M := SimpleTree.model) [ClientConnected]))))
              InvalidQnode Hslot) as (_ & Hset & _).
  destruct (HD [ClientConnected] 2%Z (CallGetDirectory None)
              (WGetDirectory (M := SimpleTree.model) []))
    as (_ & Hover & _); [reflexivity | reflexivity | discriminate |].
  split; [reflexivity|]. split; [reflexivity|].
  split; [exact Hcalls|]. split; [exact Hres|].
  split; [exact Hslot|]. split; [exact Hset | exact Hover].
Defined.

(** C10, as stated, fails: [connect], then [getDirectory], then the
    'connected' event (or an 'error' event).  The handler of the directory
    request has taken the slot; it ignores the event, the promise of
    [connect] is neither resolved nor rejected, and nothing that happens
    later settles it. *)
Lemma C10_connect_promise_left_pending :
  let w := run (M := SimpleTree.model)
             [CallConnect 2; CallGetDirectory None; ClientConnected] in
  let w' := run (M := SimpleTree.model)
              [CallConnect 2; CallGetDirectory None;
               ClientError (ClientFailure 1)] in
  fst (connect 2 (run (M := SimpleTree.model) [])) = 0
  /\ emittedEvents w = [EmConnected]
  /\ outcome w 0 = None
  /\ callback w = Some (CbGetDirectory (M := SimpleTree.model) 1 [])
  /\ emittedEvents w' = [EmError (ClientFailure 1)]
  /\ outcome w' 0 = None
  /\ (forall more : list Input, outcome (fold_left step more w) 0 = None)
  /\ (forall more : list Input, outcome (fold_left step more w') 0 = None).
Proof.
  intros w w'.
  assert (E1 : nextPromise w = 2) by (vm_compute; reflexivity).
  assert (E2 : settled w = []) by (vm_compute; reflexivity).
  assert (E3 : callback w
               = Some (CbGetDirectory (M := SimpleTree.model) 1 []))
    by (vm_compute; reflexivity).
  assert (E4 : treePending w = None) by (vm_compute; reflexivity).
  assert (E5 : activeList w ++ pendingRequests w
               = [MkRequest (M := SimpleTree.model)
                    (WGetDirectory (M := SimpleTree.model) []) 1])
    by (vm_compute; reflexivity).
  assert (F1 : nextPromise w' = 2) by (vm_compute; reflexivity).
  assert (F2 : settled w' = []) by (vm_compute; reflexivity).
  assert (F3 : callback w'
               = Some (CbGetDirectory (M := SimpleTree.model) 1 []))
    by (vm_compute; reflexivity).
  assert (F4 : treePending w' = None) by (vm_compute; reflexivity).
  assert (F5 : activeList w' ++ pendingRequests w'
               = [MkRequest (M := SimpleTree.model)
                    (WGetDirectory (M := SimpleTree.model) []) 1])
    by (vm_compute; reflexivity).
  assert (O : Orphan 0 w).
  { constructor.
    - rewrite E1. lia.
    - unfold outcome. rewrite E2. reflexivity.
    - intros cb Hcb. rewrite E3 in Hcb. injection Hcb as <-. discriminate.
    - intros q Hq. rewrite E4 in Hq. discriminate Hq.
    - intros r Hin. rewrite E5 in Hin. destruct Hin as [<-|[]].
      discriminate. }
  assert (O' : Orphan 0 w').
  { constructor.
    - rewrite F1. lia.
    - unfold outcome. rewrite F2. reflexivity.
    - intros cb Hcb. rewrite F3 in Hcb. injection Hcb as <-. discriminate.
    - intros q Hq. rewrite F4 in Hq. discriminate Hq.
    - intros r Hin. rewrite F5 in Hin. destruct Hin as [<-|[]].
      discriminate. }
  split; [reflexivity|].
  split; [vm_compute; reflexivity|].
  split; [exact (or_unsettled 0 w O)|].
  split; [exact E3|].
  split; [vm_compute; reflexivity|].
  split; [exact (or_unsettled 0 w' O')|].
  split; intros more.
  - exact (or_unsettled 0 _ (OrphanFacts.orphan_fold 0 more w O)).
  - exact (or_unsettled 0 _ (OrphanFacts.orphan_fold 0 more w' O')).
Qed.
